(** * ipi: the round-based source installer ([ipi/pipelines.py], [ipi/tools/distlib.py])

    A shallow embedding of the resolution engine of [ipi]: preferences,
    the per-lane sub-round, the two-lane round, the installer's convergence
    loop, and the installed-distribution lookup.

    Python dictionaries are insertion-ordered maps; they are modelled as
    association lists with the update-in-place discipline of [dict].  Objects
    that are shared and mutated (the sub-rounds of the current round and of
    its successor) live in an explicit store and are addressed by lane, so
    that aliasing is the source's.  Exceptions are a [result] type; effects
    on the outside world (clones, builds, scratch directories) are threaded
    through a [World] record. *)

From Stdlib Require Import String List Bool Arith Lia.
Import ListNotations.
Open Scope string_scope.

(** ** Insertion-ordered dictionaries *)

Section Dict.
Context {V : Type}.

Definition dict := list (string * V).

Definition keys (d : dict) : list string := map fst d.

(** [d.get(k, None)] *)
Fixpoint dict_get (k : string) (d : dict) : option V :=
  match d with
  | [] => None
  | (k', v) :: d' => if String.eqb k k' then Some v else dict_get k d'
  end.

(** [k in d] *)
Definition dict_mem (k : string) (d : dict) : bool :=
  match dict_get k d with Some _ => true | None => false end.

(** [d[k] = v]: an existing key keeps its position, a new key goes last. *)
Fixpoint dict_set (k : string) (v : V) (d : dict) : dict :=
  match d with
  | [] => [(k, v)]
  | (k', v') :: d' =>
      if String.eqb k k' then (k, v) :: d' else (k', v') :: dict_set k v d'
  end.

(** [del d[k]] for a key that is present (the only use in the source comes
    right after [d[k] = 1] on the same dictionary, so [KeyError] cannot
    arise there). *)
Definition dict_del (k : string) (d : dict) : dict :=
  filter (fun kv => negb (String.eqb k (fst kv))) d.

(** [d.update(e)] *)
Definition dict_update (d e : dict) : dict :=
  fold_left (fun acc kv => dict_set (fst kv) (snd kv) acc) e d.

(** [bool(d)] *)
Definition dict_bool (d : dict) : bool :=
  match d with [] => false | _ :: _ => true end.
End Dict.

Arguments dict V : clear implicits.

(** ** Values and external data *)

(** [pathlib.Path], as its components. *)
Definition Path := list string.

Definition path_join (p : Path) (c : string) : Path := (p ++ [c])%list.

(** What the stage collections hold: a source directory, or the integer [1]
    that [toFetch] and the promotion in [appendNewDeps] store. *)
Inductive value :=
| One
| Dir (p : Path).

(** Both [1] and a [Path] are truthy. *)
Definition value_truthy (v : value) : bool :=
  match v with One => true | Dir _ => true end.

Definition Version := string.

(** [packaging.specifiers.SpecifierSet], as its clauses; the specifier set
    built from the empty string is the empty list. *)
Definition SpecifierSet := list string.

Module Requirement.
Record t := mk {
  name : string;
  specifier : SpecifierSet;
  marker : option string
}.
End Requirement.

Module Metadata.
Record t := mk {
  name : string;
  deps : list Requirement.t;
  buildDeps : list Requirement.t
}.
End Metadata.

(** [deps.fetchers.Source]; [pipelines.py] names [git] and [system], the
    remaining kinds are kept open. *)
Inductive Source :=
| git
| system
| otherSource (n : nat).

Definition Source_eqb (a b : Source) : bool :=
  match a, b with
  | git, git => true
  | system, system => true
  | otherSource n, otherSource m => Nat.eqb n m
  | _, _ => false
  end.

Module FetcherSpec.
(** The [fetcher] attribute of a registry record.  [isSourceFetcher] is
    the outcome of [isinstance(fetcherSpec, SourceFetcher)]. *)
Record t := mk {
  isSourceFetcher : bool;
  type : Source;
  repo : string;
  depth : option nat;
  refSpec : option string;
  subDir : option string
}.
End FetcherSpec.

Module Package.
(** [registry.lookup(name).pkg] *)
Record t := mk {
  name : string;
  fetcher : FetcherSpec.t
}.
End Package.

(** A distribution found by [distlib]'s [DistributionPath]. *)
Module Distribution.
Record t := mk {
  name : string;
  version : Version
}.
End Distribution.

(** The collaborators the pipeline calls but does not define.  They are
    total here: a failure inside a collaborator (registry, fetcher, metadata
    extraction, build) is that collaborator's own error and is not modelled. *)
Record Collaborators := {
  (** [registry.lookup(name).pkg] *)
  registry_lookup : string -> Package.t;
  (** the table [deps.fetchers.fetchers], by the fetcher's name *)
  fetchers : Source -> option string;
  (** [utils.metadataExtractor.extractMetadata] *)
  extractMetadata : Path -> Metadata.t;
  (** [utils.metadataExtractor.canonicalizedRequirement] *)
  canonicalizedRequirement : string -> Requirement.t;
  (** [tools.install.getInstalledPackageVersion] *)
  getInstalledPackageVersion : string -> option Version;
  (** [SpecifierSet.filter(versions, prereleases=True)] *)
  specifier_filter : SpecifierSet -> list Version -> list Version;
  (** whether [import unpin.patcher] succeeds, and its [filterSpecifiers] *)
  unpinAvailable : bool;
  filterSpecifiers : SpecifierSet -> SpecifierSet;
  (** [utils.canonicalizePackageNameMulti] *)
  canonicalizePackageNameMulti : string -> string * string;
  (** [DistributionPath.get_distribution] *)
  get_distribution : string -> option Distribution.t;
  (** the name [TemporaryDirectory] picks for the scratch directory *)
  tempName : string
}.

(** ** Exceptions *)

Inductive exn :=
| NotImplementedError
| UnboundLocalError
| TypeError
| KeyError
| RuntimeError.

Inductive result (A : Type) :=
| Ok (a : A)
| Raise (e : exn).

Arguments Ok {A} a.
Arguments Raise {A} e.

Definition bind {A B} (r : result A) (f : A -> result B) : result B :=
  match r with
  | Ok a => f a
  | Raise e => Raise e
  end.

Declare Scope result_scope.
Delimit Scope result_scope with result.
Notation "x <- r ;; k" := (bind r (fun x => k))
  (at level 61, r at next level, right associativity) : result_scope.

(** ** [ipi/deps/unpin.py] *)

Definition unpinRequirement (E : Collaborators) (req : Requirement.t) : Requirement.t :=
  if unpinAvailable E
  then Requirement.mk (Requirement.name req)
         (filterSpecifiers E (Requirement.specifier req)) (Requirement.marker req)
  else Requirement.mk (Requirement.name req) [] (Requirement.marker req).

(** ** [ipi/tools/distlib.py] *)

Definition getInstalledPackageDistribution (E : Collaborators) (name : string)
  : result (option Distribution.t) :=
  let '(dashName, underscoreName) := canonicalizePackageNameMulti E name in
  if negb (String.eqb dashName underscoreName) then
    let dDist := get_distribution E dashName in
    let uDist := get_distribution E underscoreName in
    match dDist, uDist with
    | Some _, Some _ => Raise RuntimeError
    | _, _ => Ok (match dDist with Some d => Some d | None => uDist end)
    end
  else Ok (get_distribution E dashName).

(** ** [ResolutionPrefs] *)

Record ResolutionPrefs := {
  upgrade : bool;
  resolveDeps : bool;
  forceReinstall : bool
}.

Definition or_default (o : option bool) (dflt : bool) : bool :=
  match o with None => dflt | Some b => b end.

(** [prefs.clone(upgrade=..., resolveDeps=..., forceReinstall=...)] *)
Definition clone (self : ResolutionPrefs) (upgrade' resolveDeps' forceReinstall' : option bool)
  : ResolutionPrefs :=
  {| upgrade := or_default upgrade' (upgrade self);
     resolveDeps := or_default resolveDeps' (resolveDeps self);
     forceReinstall := or_default forceReinstall' (forceReinstall self) |}.

(** A keyword dictionary, unpacked into the arguments of [prefs.clone]. *)
Record PrefsPatch := {
  patch_upgrade : option bool;
  patch_resolveDeps : option bool;
  patch_forceReinstall : option bool
}.

Definition clone_patch (self : ResolutionPrefs) (p : PrefsPatch) : ResolutionPrefs :=
  clone self (patch_upgrade p) (patch_resolveDeps p) (patch_forceReinstall p).

(** ** [ResolutionSubRound.isReInstallationNeeded]

    [self] only feeds the progress messages and is left out. *)

Definition satisfies (E : Collaborators) (spec : SpecifierSet) (version : Version) : bool :=
  match specifier_filter E spec [version] with
  | [] => false
  | _ :: _ => true
  end.

Definition isReInstallationNeeded (E : Collaborators) (el : Requirement.t)
    (prefs : ResolutionPrefs) : bool :=
  match Requirement.marker el with
  | Some _ => false
  | None =>
      match getInstalledPackageVersion E (Requirement.name el) with
      | Some version =>
          if negb (upgrade prefs) then
            if forceReinstall prefs then true
            else if satisfies E (Requirement.specifier el) version then false
            else true
          else true
      | None => true
      end
  end.

(** ** The outside world *)

(** One call [fetcher(repo, outDir, depth=..., refSpec=...)]. *)
Record CloneCall := {
  call_fetcher : string;
  call_repo : string;
  call_outDir : Path;
  call_depth : option nat;
  call_refSpec : option string
}.

Record World := {
  (** the fetcher calls made so far, oldest first *)
  clones : list CloneCall;
  (** the directories handed to the module-level [buildAndInstallWheel] *)
  builds : list value;
  (** the scratch directories that exist *)
  scratch : list Path
}.

Definition log_clone (c : CloneCall) (w : World) : World :=
  {| clones := (clones w ++ [c])%list; builds := builds w; scratch := scratch w |}.

Definition log_build (d : value) (w : World) : World :=
  {| clones := clones w; builds := (builds w ++ [d])%list; scratch := scratch w |}.

Definition Path_eqb (p q : Path) : bool :=
  if list_eq_dec string_dec p q then true else false.

(** [TemporaryDirectory(...)] creates the directory; [cleanup()] removes it. *)
Definition make_scratch (p : Path) (w : World) : World :=
  {| clones := clones w; builds := builds w; scratch := (scratch w ++ [p])%list |}.

Definition cleanup (p : Path) (w : World) : World :=
  {| clones := clones w; builds := builds w;
     scratch := filter (fun q => negb (Path_eqb p q)) (scratch w) |}.

(** ** [clonePackagesRepos] *)

Definition string_truthy (o : option string) : bool :=
  match o with
  | Some EmptyString => false
  | Some _ => true
  | None => false
  end.

(** Whether the loop body of [clonePackagesRepos] reaches the fetcher call:
    the specification is a [SourceFetcher] and the table has its type. *)
Definition matchingFetcher (E : Collaborators) (fetcherSpec : FetcherSpec.t) : option string :=
  if FetcherSpec.isSourceFetcher fetcherSpec
  then fetchers E (FetcherSpec.type fetcherSpec)
  else None.

(** The directory recorded for a fetched package: [targetDir / name], then
    [/ subDir] when the specification has a non-empty one. *)
Definition cloneTarget (targetDir : Path) (name : string) (fetcherSpec : FetcherSpec.t) : Path :=
  let outDir := path_join targetDir name in
  match FetcherSpec.subDir fetcherSpec with
  | Some subDir => if string_truthy (Some subDir) then path_join outDir subDir else outDir
  | None => outDir
  end.

Fixpoint clonePackagesRepos_loop (E : Collaborators) (targetDir : Path)
    (packagesToClone : list string)
    (w : World) (res : dict value) (ignored : list Package.t)
  : World * dict value * list Package.t :=
  match packagesToClone with
  | [] => (w, res, ignored)
  | name :: rest =>
      let outDir := path_join targetDir name in
      let lookupRes := registry_lookup E name in
      let fetcherSpec := Package.fetcher lookupRes in
      match matchingFetcher E fetcherSpec with
      | None =>
          clonePackagesRepos_loop E targetDir rest w res (ignored ++ [lookupRes])%list
      | Some fetcher =>
          let w' := log_clone {| call_fetcher := fetcher;
                                 call_repo := FetcherSpec.repo fetcherSpec;
                                 call_outDir := outDir;
                                 call_depth := FetcherSpec.depth fetcherSpec;
                                 call_refSpec := FetcherSpec.refSpec fetcherSpec |} w in
          clonePackagesRepos_loop E targetDir rest w'
            (dict_set name (Dir (cloneTarget targetDir name fetcherSpec)) res) ignored
      end
  end.

Definition clonePackagesRepos (E : Collaborators) (targetDir : Path)
    (packagesToClone : list string) (w : World)
  : World * dict value * list Package.t :=
  clonePackagesRepos_loop E targetDir packagesToClone w [] [].

(** ** Stages and lanes *)

(** [ResolutionSubRoundPipelineStage] *)
Module Stage.
Inductive t := notResolved | fetched | depsResolved | built | installed.

Definition value (s : t) : nat :=
  match s with
  | notResolved => 0 | fetched => 1 | depsResolved => 2 | built => 3 | installed => 4
  end.

(** [bool(stage)] of an [IntEnum] member *)
Definition truthy (s : t) : bool := negb (Nat.eqb (value s) 0).

Definition eqb (a b : t) : bool := Nat.eqb (value a) (value b).
End Stage.

Module ResolutionRoundSubRound.
Inductive t := build | pkgs.

Definition eqb (a b : t) : bool :=
  match a, b with
  | build, build => true
  | pkgs, pkgs => true
  | _, _ => false
  end.
End ResolutionRoundSubRound.

Definition Lane := ResolutionRoundSubRound.t.

(** ** [ResolutionSubRound] *)

Record ResolutionSubRound := {
  idx : Lane;
  packageTypeName : string;
  depsGetter : ResolutionPrefs -> Metadata.t -> list Requirement.t;
  moveToThis : bool;
  prefsPatch : PrefsPatch;
  toFetch : dict value;
  fetched : dict value;
  resolved : dict value;
  ignored : dict Package.t
}.

Definition ResolutionSubRound_init (idx : Lane) (packageTypeName : string)
    (depsGetter : ResolutionPrefs -> Metadata.t -> list Requirement.t)
    (moveToThis : bool) (prefsPatch : PrefsPatch) : ResolutionSubRound :=
  {| idx := idx; packageTypeName := packageTypeName; depsGetter := depsGetter;
     moveToThis := moveToThis; prefsPatch := prefsPatch;
     toFetch := []; fetched := []; resolved := []; ignored := [] |}.

Definition set_toFetch (d : dict value) (s : ResolutionSubRound) : ResolutionSubRound :=
  {| idx := idx s; packageTypeName := packageTypeName s; depsGetter := depsGetter s;
     moveToThis := moveToThis s; prefsPatch := prefsPatch s;
     toFetch := d; fetched := fetched s; resolved := resolved s; ignored := ignored s |}.

Definition set_fetched (d : dict value) (s : ResolutionSubRound) : ResolutionSubRound :=
  {| idx := idx s; packageTypeName := packageTypeName s; depsGetter := depsGetter s;
     moveToThis := moveToThis s; prefsPatch := prefsPatch s;
     toFetch := toFetch s; fetched := d; resolved := resolved s; ignored := ignored s |}.

Definition set_resolved (d : dict value) (s : ResolutionSubRound) : ResolutionSubRound :=
  {| idx := idx s; packageTypeName := packageTypeName s; depsGetter := depsGetter s;
     moveToThis := moveToThis s; prefsPatch := prefsPatch s;
     toFetch := toFetch s; fetched := fetched s; resolved := d; ignored := ignored s |}.

Definition set_ignored (d : dict Package.t) (s : ResolutionSubRound) : ResolutionSubRound :=
  {| idx := idx s; packageTypeName := packageTypeName s; depsGetter := depsGetter s;
     moveToThis := moveToThis s; prefsPatch := prefsPatch s;
     toFetch := toFetch s; fetched := fetched s; resolved := resolved s; ignored := d |}.

(** [ResolutionSubRound.__bool__] *)
Definition ResolutionSubRound_bool (self : ResolutionSubRound) : bool :=
  dict_bool (toFetch self).

(** The loop of [fetch] over the records [clonePackagesRepos] gave up on. *)
Fixpoint check_ignored (ignored : list Package.t) : result unit :=
  match ignored with
  | [] => Ok tt
  | ignoredPackage :: rest =>
      if negb (Source_eqb (FetcherSpec.type (Package.fetcher ignoredPackage)) system)
      then Raise NotImplementedError
      else check_ignored rest
  end.

(** [{el.name: el for el in ignored}] *)
Definition ignoredNames_of (ignored : list Package.t) : dict Package.t :=
  fold_left (fun acc el => dict_set (Package.name el) el acc) ignored [].

(** [ResolutionSubRound.fetch]; the fetcher calls have happened by the time
    the check may raise, so the world is returned in both cases. *)
Definition fetch (E : Collaborators) (self : ResolutionSubRound) (sourcesDir : Path)
    (w : World) : World * result ResolutionSubRound :=
  let '(w', buildDepsInstallDirs, ignored') :=
    clonePackagesRepos E sourcesDir (keys (toFetch self)) w in
  (w',
   (_ <- check_ignored ignored' ;;
    let ignoredNames := ignoredNames_of ignored' in
    let self := set_fetched (dict_update (fetched self) buildDepsInstallDirs) self in
    let self := set_toFetch [] self in
    let self := set_ignored (dict_update (ignored self) ignoredNames) self in
    Ok self)%result).

(** [ResolutionSubRound.buildAndInstallWheel]: the module-level function of
    the same name is an external build; each call is logged.  Of the errors
    of this loop only the [KeyError] of a lookup [installDirs[t]] is
    modelled: what the build or the install backend may raise is not, so the
    properties of this phase speak of the runs in which it returns or in
    which a lookup fails. *)
Fixpoint buildAndInstallWheel_each (names : list string) (installDirs : dict value)
    (w : World) : World * result unit :=
  match names with
  | [] => (w, Ok tt)
  | t :: rest =>
      match dict_get t installDirs with
      | None => (w, Raise KeyError)
      | Some d => buildAndInstallWheel_each rest installDirs (log_build d w)
      end
  end.

Definition ResolutionSubRound_buildAndInstallWheel (self : ResolutionSubRound)
    (installDirs : dict value) (w : World) : World * result unit :=
  if dict_bool (resolved self)
  then buildAndInstallWheel_each (keys (resolved self)) installDirs w
  else (w, Ok tt).

(** A reference to one of the dictionaries of a sub-round, as the lambdas of
    [_STAGE_TO_COLLECTION] give it. *)
Record Collection := {
  coll_get : ResolutionSubRound -> dict value;
  coll_set : dict value -> ResolutionSubRound -> ResolutionSubRound
}.

Definition _STAGE_TO_COLLECTION : list (Stage.t * Collection) :=
  [ (Stage.fetched, {| coll_get := fetched; coll_set := set_fetched |});
    (Stage.depsResolved, {| coll_get := resolved; coll_set := set_resolved |}) ].

Fixpoint isAlreadyBeingProcessed_loop (table : list (Stage.t * Collection))
    (self : ResolutionSubRound) (el : string) : Stage.t :=
  match table with
  | [] => Stage.notResolved
  | (stage, collectionGetter) :: rest =>
      match dict_get el (coll_get collectionGetter self) with
      | Some isAlreadyFetched =>
          if value_truthy isAlreadyFetched then stage
          else isAlreadyBeingProcessed_loop rest self el
      | None => isAlreadyBeingProcessed_loop rest self el
      end
  end.

Definition isAlreadyBeingProcessed (self : ResolutionSubRound) (el : string) : Stage.t :=
  isAlreadyBeingProcessed_loop _STAGE_TO_COLLECTION self el.

Fixpoint stage_lookup (table : list (Stage.t * Collection)) (stage : Stage.t)
  : result Collection :=
  match table with
  | [] => Raise KeyError
  | (s, c) :: rest => if Stage.eqb stage s then Ok c else stage_lookup rest stage
  end.

(** ** [ResolutionRound] *)

Record ResolutionRound := {
  build : ResolutionSubRound;
  pkgs : ResolutionSubRound
}.

(** the keys of [self.subRounds], in insertion order *)
Definition subRounds_keys : list Lane :=
  [ResolutionRoundSubRound.build; ResolutionRoundSubRound.pkgs].

(** [self.subRounds[i]] *)
Definition subRounds (self : ResolutionRound) (i : Lane) : ResolutionSubRound :=
  match i with
  | ResolutionRoundSubRound.build => build self
  | ResolutionRoundSubRound.pkgs => pkgs self
  end.

Definition set_subRound (i : Lane) (s : ResolutionSubRound) (self : ResolutionRound)
  : ResolutionRound :=
  match i with
  | ResolutionRoundSubRound.build => {| build := s; pkgs := pkgs self |}
  | ResolutionRoundSubRound.pkgs => {| build := build self; pkgs := s |}
  end.

Definition nonempty {A} (l : list A) : bool :=
  match l with [] => false | _ :: _ => true end.

(** [ResolutionRound.__init__]; the package lane is also constructed with the
    index [build], as in the source. *)
Definition ResolutionRound_init : ResolutionRound :=
  {| build := ResolutionSubRound_init ResolutionRoundSubRound.build "build tool"
                (fun prefs md => Metadata.buildDeps md)
                true
                {| patch_upgrade := None; patch_resolveDeps := None;
                   patch_forceReinstall := Some false |};
     pkgs := ResolutionSubRound_init ResolutionRoundSubRound.build "package"
               (fun prefs md =>
                  if resolveDeps prefs && nonempty (Metadata.deps md)
                  then Metadata.deps md else [])
               false
               {| patch_upgrade := None; patch_resolveDeps := None;
                  patch_forceReinstall := None |} |}.

(** [ResolutionRound.__bool__] *)
Definition ResolutionRound_bool (self : ResolutionRound) : bool :=
  ResolutionSubRound_bool (build self) || ResolutionSubRound_bool (pkgs self).

(** [ResolutionRound.thisOtherSubRounds], by index *)
Definition thisOtherSubRounds : list (Lane * list Lane) :=
  map (fun thisSubRoundIdx =>
         (thisSubRoundIdx,
          filter (fun otherSubRoundIdx =>
                    negb (ResolutionRoundSubRound.eqb otherSubRoundIdx thisSubRoundIdx))
                 subRounds_keys))
      subRounds_keys.

(** ** The store of one [_resolveDeps] call

    The sub-rounds of [self] and of [successor] are shared, mutable objects;
    the methods below address them by lane in this store. *)

Record Store := {
  current : ResolutionRound;
  successor : ResolutionRound
}.

Definition update_current (i : Lane) (f : ResolutionSubRound -> ResolutionSubRound)
    (st : Store) : Store :=
  {| current := set_subRound i (f (subRounds (current st) i)) (current st);
     successor := successor st |}.

Definition update_successor (i : Lane) (f : ResolutionSubRound -> ResolutionSubRound)
    (st : Store) : Store :=
  {| current := current st;
     successor := set_subRound i (f (subRounds (successor st) i)) (successor st) |}.

(** A dictionary held by a sub-round of the current round. *)
Record DictRef := {
  ref_owner : Lane;
  ref_coll : Collection
}.

(** [owner.stageToCollection(stage)] *)
Definition stageToCollection (owner : Lane) (stage : Stage.t) : result DictRef :=
  (c <- stage_lookup _STAGE_TO_COLLECTION stage ;;
   Ok {| ref_owner := owner; ref_coll := c |})%result.

Definition ref_modify (r : DictRef) (f : dict value -> dict value) (st : Store) : Store :=
  update_current (ref_owner r)
    (fun s => coll_set (ref_coll r) (f (coll_get (ref_coll r) s)) s) st.

Fixpoint foldM {A B} (f : A -> B -> result A) (l : list B) (a : A) : result A :=
  match l with
  | [] => Ok a
  | b :: l' => (a' <- f a b ;; foldM f l' a')%result
  end.

(** The body of [for otherSubRound in otherSubRounds] in [appendNewDeps].
    Both collections are taken from [otherSubRound]; the [continue] that ends
    the body continues this inner loop. *)
Definition appendNewDeps_other (this : Lane) (el : string) (st : Store)
    (otherSubRound : Lane) : result Store :=
  let otherRoundStage := isAlreadyBeingProcessed (subRounds (current st) otherSubRound) el in
  if Stage.truthy otherRoundStage then
    if moveToThis (subRounds (current st) this) then
      (otherRoundCollection <- stageToCollection otherSubRound otherRoundStage ;;
       thisRoundCollection <- stageToCollection otherSubRound otherRoundStage ;;
       let st := ref_modify thisRoundCollection (dict_set el One) st in
       let st := ref_modify otherRoundCollection (dict_del el) st in
       Ok st)%result
    else Ok st
  else Ok st.

(** The body of [for el in srcList] in [appendNewDeps]. *)
Definition appendNewDeps_el (E : Collaborators) (this : Lane) (prefs : ResolutionPrefs)
    (otherSubRounds : list Lane) (successor_ : Lane) (st : Store) (el : Requirement.t)
  : result Store :=
  if dict_mem (Requirement.name el) (ignored (subRounds (current st) this)) then Ok st
  else if negb (isReInstallationNeeded E el prefs) then Ok st
  else
    let el := Requirement.name el in
    (st <- foldM (appendNewDeps_other this el) otherSubRounds st ;;
     let currentRoundStage := isAlreadyBeingProcessed (subRounds (current st) this) el in
     if Stage.truthy currentRoundStage then Ok st
     else Ok (update_successor successor_
                (fun s => set_toFetch (dict_set el One (toFetch s)) s) st))%result.

(** [thisSubRound.appendNewDeps(prefs, srcList, otherSubRounds, successor)],
    where [this] and [otherSubRounds] are lanes of the current round and
    [successor_] is a lane of the successor round. *)
Definition appendNewDeps (E : Collaborators) (this : Lane) (prefs : ResolutionPrefs)
    (srcList : list Requirement.t) (otherSubRounds : list Lane) (successor_ : Lane)
    (st : Store) : result Store :=
  foldM (appendNewDeps_el E this prefs otherSubRounds successor_) srcList st.

(** [ResolutionRound.subroundSuccessorPrefs], by index: the lane whose
    [depsGetter] is used, the successor's lane, and the patched preferences. *)
Definition subroundSuccessorPrefs (prefs : ResolutionPrefs) (self : ResolutionRound)
  : list (Lane * Lane * ResolutionPrefs) :=
  map (fun thisSubRoundIdx =>
         (thisSubRoundIdx, thisSubRoundIdx,
          clone_patch prefs (prefsPatch (subRounds self thisSubRoundIdx))))
      subRounds_keys.

(** The locals of [_resolveDeps] that outlive a loop iteration: the store, and
    [successorSubRound], unbound until the innermost loop has run once. *)
Record Frame := {
  store : Store;
  successorSubRound : option Lane
}.

Definition extractMetadata_value (E : Collaborators) (installDir : value) : result Metadata.t :=
  match installDir with
  | Dir p => Ok (extractMetadata E p)
  | One => Raise TypeError
  end.

(** The body of the innermost loop of [_resolveDeps]. *)
Definition resolveDeps_inner (E : Collaborators) (prefs : ResolutionPrefs)
    (thisSubRound : Lane) (otherSubRounds : list Lane)
    (name : string) (installDir : value) (md : Metadata.t)
    (fr : Frame) (item : Lane * Lane * ResolutionPrefs) : result Frame :=
  let '(subRoundForDepsExtr, successorSubRound, thisSubRoundPrefs) := item in
  let deps := depsGetter (subRounds (current (store fr)) subRoundForDepsExtr) prefs md in
  let deps := map (unpinRequirement E) deps in
  (st <- appendNewDeps E thisSubRound thisSubRoundPrefs deps otherSubRounds
           successorSubRound (store fr) ;;
   let st := update_current thisSubRound
               (fun s => set_resolved (dict_set name installDir (resolved s)) s) st in
   Ok {| store := st; successorSubRound := Some successorSubRound |})%result.

(** The body of [for name, installDir in thisSubRound.fetched.items()]. *)
Definition resolveDeps_name (E : Collaborators) (prefs : ResolutionPrefs)
    (thisSubRound : Lane) (otherSubRounds : list Lane)
    (fr : Frame) (item : string * value) : result Frame :=
  let '(name, installDir) := item in
  (fr <- (if negb (dict_mem name (ignored (subRounds (current (store fr)) thisSubRound)))
          then
            md <- extractMetadata_value E installDir ;;
            foldM (resolveDeps_inner E prefs thisSubRound otherSubRounds name installDir md)
                  (subroundSuccessorPrefs prefs (current (store fr))) fr
          else Ok fr) ;;
   match successorSubRound fr with
   | None => Raise UnboundLocalError
   | Some s =>
       let thisResolved := resolved (subRounds (current (store fr)) thisSubRound) in
       Ok {| store := update_successor s
                        (fun t => set_resolved (dict_update (resolved t) thisResolved) t)
                        (store fr);
             successorSubRound := successorSubRound fr |}
   end)%result.

(** The body of the outer loop of [_resolveDeps].  The items of
    [thisSubRound.fetched] are read when its loop starts: while it runs only
    the other lanes' collections, this lane's [resolved] and the successor
    are written, so the dictionary iterated over does not change. *)
Definition resolveDeps_lane (E : Collaborators) (prefs : ResolutionPrefs)
    (fr : Frame) (item : Lane * list Lane) : result Frame :=
  let '(thisSubRound, otherSubRounds) := item in
  foldM (resolveDeps_name E prefs thisSubRound otherSubRounds)
        (fetched (subRounds (current (store fr)) thisSubRound)) fr.

(** [ResolutionRound._resolveDeps] *)
Definition _resolveDeps (E : Collaborators) (prefs : ResolutionPrefs) (st : Store)
  : result Store :=
  (fr <- foldM (resolveDeps_lane E prefs) thisOtherSubRounds
           {| store := st; successorSubRound := None |} ;;
   Ok (store fr))%result.

(** What one [ResolutionRound.__call__] leaves behind: the round itself after
    the call, the round it returned, and [installDirs]. *)
Record RoundCall := {
  after : ResolutionRound;
  nextRound : ResolutionRound;
  dirs : dict value
}.

(** [ResolutionRound.__call__] *)
Definition ResolutionRound_call (E : Collaborators) (self : ResolutionRound)
    (prefs : ResolutionPrefs) (installDirs : dict value) (sourcesDir : Path) (w : World)
  : World * result RoundCall :=
  let nextRound := ResolutionRound_init in
  let '(w, r) := fetch E (build self) sourcesDir w in
  match r with
  | Raise e => (w, Raise e)
  | Ok b =>
      let self := set_subRound ResolutionRoundSubRound.build b self in
      let '(w, r) := fetch E (pkgs self) sourcesDir w in
      match r with
      | Raise e => (w, Raise e)
      | Ok p =>
          let self := set_subRound ResolutionRoundSubRound.pkgs p self in
          match _resolveDeps E prefs {| current := self; successor := nextRound |} with
          | Raise e => (w, Raise e)
          | Ok st =>
              let installDirs := dict_update installDirs (fetched (build (current st))) in
              let installDirs := dict_update installDirs (fetched (pkgs (current st))) in
              (w, Ok {| after := current st; nextRound := successor st;
                        dirs := installDirs |})
          end
      end
  end.

(** [ResolutionRound.buildAndInstallWheel] *)
Definition ResolutionRound_buildAndInstallWheel (self : ResolutionRound)
    (installDirs : dict value) (w : World) : World * result unit :=
  let '(w, r) := ResolutionSubRound_buildAndInstallWheel (build self) installDirs w in
  match r with
  | Raise e => (w, Raise e)
  | Ok _ => ResolutionSubRound_buildAndInstallWheel (pkgs self) installDirs w
  end.

(** ** [PackagesInstaller] *)

(** How a call that contains the [while] loop ends; [OutOfFuel] stands for a
    loop that is still running when the fuel is used up. *)
Inductive outcome (A : Type) :=
| Returned (a : A)
| Raised (e : exn)
| OutOfFuel.

Arguments Returned {A} a.
Arguments Raised {A} e.
Arguments OutOfFuel {A}.

(** [while rr: rr = rr(prefs.clone(upgrade=False), ...)], with the calls it
    made, oldest first. *)
Fixpoint converge (E : Collaborators) (fuel : nat) (prefs : ResolutionPrefs)
    (rr : ResolutionRound) (installDirs : dict value) (sourcesDir : Path) (w : World)
  : list RoundCall * World * outcome (ResolutionRound * dict value) :=
  if ResolutionRound_bool rr then
    match fuel with
    | 0 => ([], w, OutOfFuel)
    | S fuel =>
        match ResolutionRound_call E rr (clone prefs (Some false) None None)
                installDirs sourcesDir w with
        | (w, Raise e) => ([], w, Raised e)
        | (w, Ok c) =>
            let '(calls, w, r) :=
              converge E fuel prefs (nextRound c) (dirs c) sourcesDir w in
            (c :: calls, w, r)
        end
    end
  else ([], w, Returned (rr, installDirs)).

Module PackagesInstaller.
Record t := {
  installDirs : dict value;
  ignored : list string;
  sourcesDir : option Path
}.

Definition _reset : t :=
  {| installDirs := []; ignored := []; sourcesDir := None |}.

(** [{canonicalizedRequirement(el).name: 1 for el in names}] *)
Definition seed (E : Collaborators) (names : list string) : dict value :=
  fold_left (fun acc el => dict_set (Requirement.name (canonicalizedRequirement E el)) One acc)
            names [].

Definition firstRound (E : Collaborators) (names : list string) : ResolutionRound :=
  let rr := ResolutionRound_init in
  set_subRound ResolutionRoundSubRound.pkgs
    (set_toFetch (dict_update (toFetch (pkgs rr)) (seed E names)) (pkgs rr)) rr.

(** [downloadPackagesAndTheirDependencies], called with the scratch
    directory in place; the result carries the round the loop ended on. *)
Definition downloadPackagesAndTheirDependencies (E : Collaborators) (fuel : nat)
    (self : t) (scratchDir : Path) (prefs : ResolutionPrefs) (names : list string)
    (w : World)
  : list RoundCall * World * outcome (ResolutionRound * t) :=
  let rr := firstRound E names in
  let '(calls, w, r) := converge E fuel prefs rr (installDirs self) scratchDir w in
  match r with
  | Returned (rr, installDirs') =>
      let self := {| installDirs := installDirs'; ignored := ignored self;
                     sourcesDir := sourcesDir self |} in
      match ResolutionRound_buildAndInstallWheel rr installDirs' w with
      | (w, Ok _) => (calls, w, Returned (rr, self))
      | (w, Raise e) => (calls, w, Raised e)
      end
  | Raised e => (calls, w, Raised e)
  | OutOfFuel => (calls, w, OutOfFuel)
  end.

(** the directory [TemporaryDirectory(prefix=install_, dir=.)] creates *)
Definition scratchDir (E : Collaborators) : Path := ["install_" ++ tempName E].

(** [PackagesInstaller.__call__] *)
Definition call (E : Collaborators) (fuel : nat) (self : t)
    (prefs : ResolutionPrefs) (names : list string) (w : World)
  : list RoundCall * World * outcome (ResolutionRound * t) :=
  let self := _reset in
  let w := make_scratch (scratchDir E) w in
  let self := {| installDirs := installDirs self; ignored := ignored self;
                 sourcesDir := Some (scratchDir E) |} in
  match downloadPackagesAndTheirDependencies E fuel self (scratchDir E) prefs names w with
  | (calls, w, Returned r) => (calls, cleanup (scratchDir E) w, Returned r)
  | (calls, w, Raised e) => (calls, w, Raised e)
  | (calls, w, OutOfFuel) => (calls, w, OutOfFuel)
  end.
End PackagesInstaller.

(** ** Sample collaborators

    A small index for the examples: every package is fetched with git unless
    listed otherwise, nothing is installed, and every specifier accepts every
    version. *)

Definition gitSpec (name : string) : FetcherSpec.t :=
  FetcherSpec.mk true git ("https://example.org/" ++ name) None None None.

Definition systemSpec : FetcherSpec.t :=
  FetcherSpec.mk false system "" None None None.

Definition svnSpec (name : string) : FetcherSpec.t :=
  FetcherSpec.mk true (otherSource 0) ("svn://example.org/" ++ name) None None None.

Definition req (name : string) : Requirement.t := Requirement.mk name [] None.

Definition sampleCollaborators (lookup : string -> Package.t)
    (metadata : string -> Metadata.t) : Collaborators :=
  {| registry_lookup := lookup;
     fetchers := fun s => match s with git => Some "git" | _ => None end;
     extractMetadata := fun p => metadata (last p "");
     canonicalizedRequirement := req;
     getInstalledPackageVersion := fun _ => None;
     specifier_filter := fun _ vs => vs;
     unpinAvailable := false;
     filterSpecifiers := fun s => s;
     canonicalizePackageNameMulti := fun n => (n, n);
     get_distribution := fun _ => None;
     tempName := "k3xq" |}.

(** The scenario of the specification: [A] has the build dependency [B] and
    the dependency [C]; [C] has the build dependency [B]. *)
Definition abcMetadata (name : string) : Metadata.t :=
  if String.eqb name "A" then Metadata.mk "A" [req "C"] [req "B"]
  else if String.eqb name "C" then Metadata.mk "C" [] [req "B"]
  else Metadata.mk name [] [].

Definition abc : Collaborators :=
  sampleCollaborators (fun n => Package.mk n (gitSpec n)) abcMetadata.

Definition emptyWorld : World := {| clones := []; builds := []; scratch := [] |}.

Definition defaultPrefs : ResolutionPrefs :=
  {| upgrade := false; resolveDeps := true; forceReinstall := false |}.

(** An index whose package [legacy] is kept in a repository kind that has no
    fetcher, and whose package [libc] is provided by the system. *)
Definition mixedLookup (name : string) : Package.t :=
  if String.eqb name "legacy" then Package.mk name (svnSpec name)
  else if String.eqb name "libc" then Package.mk name systemSpec
  else Package.mk name (gitSpec name).

Definition mixed : Collaborators :=
  sampleCollaborators mixedLookup (fun name => Metadata.mk name [] []).

(** An install database queried under both spellings of a name. *)
Definition spellings (found : string -> option Distribution.t) : Collaborators :=
  {| registry_lookup := fun n => Package.mk n (gitSpec n);
     fetchers := fun s => match s with git => Some "git" | _ => None end;
     extractMetadata := fun p => Metadata.mk (last p "") [] [];
     canonicalizedRequirement := req;
     getInstalledPackageVersion := fun _ => None;
     specifier_filter := fun _ vs => vs;
     unpinAvailable := false;
     filterSpecifiers := fun s => s;
     canonicalizePackageNameMulti := fun _ => ("foo-bar", "foo_bar");
     get_distribution := found;
     tempName := "k3xq" |}.

Definition onlyUnderscore (n : string) : option Distribution.t :=
  if String.eqb n "foo_bar" then Some (Distribution.mk "foo_bar" "1.0") else None.

(** A build tool that needs a package which the package lane fetched in the
    same round: [A] has the build dependency [B] and the dependency [X], and
    [B] has the build dependency [X]. *)
Definition promoMetadata (name : string) : Metadata.t :=
  if String.eqb name "A" then Metadata.mk "A" [req "X"] [req "B"]
  else if String.eqb name "B" then Metadata.mk "B" [] [req "X"]
  else Metadata.mk name [] [].

Definition promo : Collaborators :=
  sampleCollaborators (fun n => Package.mk n (gitSpec n)) promoMetadata.

(** The store of the second round of that run once both lanes have fetched. *)
Definition promoStore : Store :=
  {| current :=
       {| build := set_fetched [("B", Dir ["install_k3xq"; "B"])] (build ResolutionRound_init);
          pkgs := set_resolved [("A", Dir ["install_k3xq"; "A"])]
                    (set_fetched [("X", Dir ["install_k3xq"; "X"])]
                       (pkgs ResolutionRound_init)) |};
     successor := ResolutionRound_init |}.

(** The calls of a run, its final world and its outcome. *)
Definition calls_of {A} (r : list RoundCall * World * outcome A) : list RoundCall :=
  fst (fst r).

Definition world_of {A} (r : list RoundCall * World * outcome A) : World :=
  snd (fst r).

Definition outcome_of {A} (r : list RoundCall * World * outcome A) : outcome A :=
  snd r.

(** How often a directory was the target of a fetcher call. *)
Definition times_cloned (p : Path) (w : World) : nat :=
  length (filter (fun c => Path_eqb p (call_outDir c)) (clones w)).

(** The lanes of a round that hold a name as resolved. *)
Definition lanes_resolving (name : string) (rr : ResolutionRound) : list Lane :=
  filter (fun i => dict_mem name (resolved (subRounds rr i))) subRounds_keys.

(** The fetch specification the registry gives for a name, and whether
    [clonePackagesRepos] finds no fetcher for it. *)
Definition fetcherSpecOf (E : Collaborators) (name : string) : FetcherSpec.t :=
  Package.fetcher (registry_lookup E name).

Definition unmatched (E : Collaborators) (name : string) : bool :=
  match matchingFetcher E (fetcherSpecOf E name) with None => true | Some _ => false end.

(** Modelled from the spec: the table [deps.fetchers.fetchers] is not among
    the sources; a system-provided dependency is "deliberately never
    fetched", so the table has no fetcher for the system kind. *)
Definition no_system_fetcher (E : Collaborators) : Prop :=
  fetchers E system = None.

(** Modelled from the spec: the registry is not among the sources; it
    "resolves a name to a fetch specification", so the record it returns for
    a name carries that name. *)
Definition registry_answers_by_name (E : Collaborators) (names : list string) : Prop :=
  forall name, In name names -> Package.name (registry_lookup E name) = name.

(** A package lane that is about to fetch a system-provided package and an
    ordinary one, and one that is about to fetch a package of a repository
    kind without a fetcher. *)
Definition sampleLane : ResolutionSubRound :=
  set_toFetch [("libc", One); ("x", One)] (pkgs ResolutionRound_init).

Definition legacyLane : ResolutionSubRound :=
  set_toFetch [("x", One); ("legacy", One)] (pkgs ResolutionRound_init).

(** ** Invariants of the resolution step *)

(** Every key of [d] satisfies [S]. *)
Definition keys_within {V : Type} (d : dict V) (S : string -> Prop) : Prop :=
  forall k, In k (keys d) -> S k.

(** What holds of the store while lane [t] of a round is being processed,
    relative to the store [st0] at the start of that lane: every [resolved]
    collection stays within [S]; the lane's own [fetched] and every
    [moveToThis] flag are untouched; and a lane that does not promote leaves
    every [fetched] collection alone. *)
Record LaneInv (t : Lane) (S : string -> Prop) (st0 st : Store) : Prop := {
  li_cur : forall l, keys_within (resolved (subRounds (current st) l)) S;
  li_succ : forall l, keys_within (resolved (subRounds (successor st) l)) S;
  li_own : fetched (subRounds (current st) t) = fetched (subRounds (current st0) t);
  li_mv_cur : forall l, moveToThis (subRounds (current st) l)
                        = moveToThis (subRounds (current st0) l);
  li_mv_succ : forall l, moveToThis (subRounds (successor st) l)
                         = moveToThis (subRounds (successor st0) l);
  li_frozen : moveToThis (subRounds (current st0) t) = false ->
              forall l, fetched (subRounds (current st) l)
                        = fetched (subRounds (current st0) l)
}.

(** What holds of a round and [installDirs] between two calls of the loop. *)
Definition RoundInv (rr : ResolutionRound) (installDirs : dict value) : Prop :=
  moveToThis (pkgs rr) = false /\
  forall l, keys_within (resolved (subRounds rr l)) (fun k => In k (keys installDirs)).

(** ** Further notions used to describe the resolution step *)

(** Whether [appendNewDeps], run on the lane [thisSubRound], reaches its last
    line for [el]: the name is not ignored by the lane, it needs
    (re)installation, and the lane has not fetched or resolved it. *)
Definition eligible (E : Collaborators) (prefs : ResolutionPrefs)
    (thisSubRound : ResolutionSubRound) (el : Requirement.t) : bool :=
  negb (dict_mem (Requirement.name el) (ignored thisSubRound))
  && isReInstallationNeeded E el prefs
  && negb (Stage.truthy (isAlreadyBeingProcessed thisSubRound (Requirement.name el))).

(** The fields of a sub-round that are set once, by [__init__]. *)
Definition same_static (s s' : ResolutionSubRound) : Prop :=
  idx s' = idx s /\ packageTypeName s' = packageTypeName s /\
  depsGetter s' = depsGetter s /\ moveToThis s' = moveToThis s /\
  prefsPatch s' = prefsPatch s.

(** The fetcher call [clonePackagesRepos] makes for a name that has a
    fetcher. *)
Definition cloneCallOf (E : Collaborators) (targetDir : Path) (name : string) : CloneCall :=
  {| call_fetcher := match matchingFetcher E (fetcherSpecOf E name) with
                     | Some fetcher => fetcher
                     | None => ""
                     end;
     call_repo := FetcherSpec.repo (fetcherSpecOf E name);
     call_outDir := path_join targetDir name;
     call_depth := FetcherSpec.depth (fetcherSpecOf E name);
     call_refSpec := FetcherSpec.refSpec (fetcherSpecOf E name) |}.

Definition matched (E : Collaborators) (name : string) : bool := negb (unmatched E name).

(** The current round of [st'] differs from that of [st] at most by entries
    removed from [fetched] and [resolved]. *)
Definition current_shrinks (st st' : Store) : Prop :=
  forall l,
    toFetch (subRounds (current st') l) = toFetch (subRounds (current st) l) /\
    ignored (subRounds (current st') l) = ignored (subRounds (current st) l) /\
    same_static (subRounds (current st) l) (subRounds (current st') l) /\
    (forall k v, In (k, v) (fetched (subRounds (current st') l)) ->
                 In (k, v) (fetched (subRounds (current st) l))) /\
    (forall k v, In (k, v) (resolved (subRounds (current st') l)) ->
                 In (k, v) (resolved (subRounds (current st) l))).

(** The [toFetch] that [appendNewDeps] leaves in the successor lane: the
    eligible names of [srcList], set in order. *)
Definition queued (E : Collaborators) (prefs : ResolutionPrefs)
    (thisSubRound : ResolutionSubRound) (srcList : list Requirement.t)
    (d : dict value) : dict value :=
  fold_left (fun d el => if eligible E prefs thisSubRound el
                         then dict_set (Requirement.name el) One d else d)
            srcList d.

(** What [_resolveDeps] keeps of the store it started from, [st0]: in the
    current round, [toFetch], [ignored] and the constructor fields of every
    lane, and no [fetched] entry is new; in the successor round, [fetched],
    [ignored] and the constructor fields of every lane and the build lane's
    [resolved]; and, when [nodeps] holds, the package lane's [toFetch]. *)
Record ResolveInv (nodeps : Prop) (st0 st : Store) : Prop := {
  ri_toFetch : forall l, toFetch (subRounds (current st) l)
                         = toFetch (subRounds (current st0) l);
  ri_ignored : forall l, ignored (subRounds (current st) l)
                         = ignored (subRounds (current st0) l);
  ri_static : forall l, same_static (subRounds (current st0) l) (subRounds (current st) l);
  ri_fetched : forall l k v, In (k, v) (fetched (subRounds (current st) l)) ->
                             In (k, v) (fetched (subRounds (current st0) l));
  ri_sfetched : forall l, fetched (subRounds (successor st) l)
                          = fetched (subRounds (successor st0) l);
  ri_signored : forall l, ignored (subRounds (successor st) l)
                          = ignored (subRounds (successor st0) l);
  ri_sstatic : forall l, same_static (subRounds (successor st0) l)
                                     (subRounds (successor st) l);
  ri_sbuild : resolved (build (successor st)) = resolved (build (successor st0));
  ri_nodeps : nodeps -> toFetch (pkgs (successor st)) = toFetch (pkgs (successor st0))
}.

(** With [resolveDeps] off and the package lane holding the [depsGetter]
    that [ResolutionRound.__init__] gives it, no dependency is followed. *)
Definition nodeps_of (prefs : ResolutionPrefs) (st0 : Store) : Prop :=
  resolveDeps prefs = false /\
  depsGetter (pkgs (current st0)) = depsGetter (pkgs ResolutionRound_init).

(** [successorSubRound] between two names of [_resolveDeps]: unbound, or left
    on the package lane by the innermost loop. *)
Definition leftover (o : option Lane) : Prop :=
  o = None \/ o = Some ResolutionRoundSubRound.pkgs.

(** The state in which [_resolveDeps] cannot raise: every [fetched] value is
    a directory and no fetched name is also ignored by its lane. *)
Definition fetched_ready (st0 : Store) : Prop :=
  forall l k v,
    In (k, v) (fetched (subRounds (current st0) l)) ->
    (exists p, v = Dir p) /\ dict_mem k (ignored (subRounds (current st0) l)) = false.

(** A round as [ResolutionRound.__init__] leaves it, but for [toFetch] and
    [resolved]. *)
Definition fresh (rr : ResolutionRound) : Prop :=
  forall l,
    fetched (subRounds rr l) = [] /\ ignored (subRounds rr l) = [] /\
    same_static (subRounds ResolutionRound_init l) (subRounds rr l).

(** ** [ipi/bootstrap/utils.py] *)

(** An element of a [pythonPaths] tuple: the name of a cloned package, or a
    directory given as such. *)
Inductive PathEntry :=
| ByName (name : string)
| ByDir (dir : Path).

(** [el not in alreadyInstalled]; a directory is never a member of the set of
    installed names. *)
Definition not_installed (alreadyInstalled : list string) (el : PathEntry) : bool :=
  match el with
  | ByName name => negb (existsb (String.eqb name) alreadyInstalled)
  | ByDir _ => true
  end.

(** [clonedDirs[el] if isinstance(el, str) else el] *)
Definition entryDir (clonedDirs : dict Path) (el : PathEntry) : result Path :=
  match el with
  | ByName name =>
      match dict_get name clonedDirs with
      | Some dir => Ok dir
      | None => Raise KeyError
      end
  | ByDir dir => Ok dir
  end.

(** The generator expression that rebuilds [pythonPaths]. *)
Fixpoint cookPythonPaths (clonedDirs : dict Path) (alreadyInstalled : list string)
    (pythonPaths : list PathEntry) : result (list Path) :=
  match pythonPaths with
  | [] => Ok []
  | el :: rest =>
      if not_installed alreadyInstalled el then
        (dir <- entryDir clonedDirs el ;;
         dirs <- cookPythonPaths clonedDirs alreadyInstalled rest ;;
         Ok (dir :: dirs))%result
      else cookPythonPaths clonedDirs alreadyInstalled rest
  end.

(** One call [buildAndInstallWheel(targetDir, buildPythonPath=...)]. *)
Record BootstrapBuild := {
  bb_targetDir : Path;
  bb_buildPythonPath : list Path
}.

(** [bootstrapBySequence]: the builds made, oldest first, and how the call
    ended.  Each [pythonPaths] is a tuple, the one container for which
    [(targetDir,) + pythonPaths] is defined; the build call is logged and what
    it may raise is not modelled, so the properties of this function speak of
    the runs in which it returns or in which a lookup in [clonedDirs]
    fails. *)
Fixpoint bootstrapBySequence_loop (clonedDirs : dict Path)
    (bootstrapSequence : list (string * list PathEntry))
    (alreadyInstalled : list string) (made : list BootstrapBuild)
  : list BootstrapBuild * result unit :=
  match bootstrapSequence with
  | [] => (made, Ok tt)
  | (name, pythonPaths) :: rest =>
      match dict_get name clonedDirs with
      | None => (made, Raise KeyError)
      | Some targetDir =>
          match cookPythonPaths clonedDirs alreadyInstalled pythonPaths with
          | Raise e => (made, Raise e)
          | Ok pythonPaths =>
              bootstrapBySequence_loop clonedDirs rest (name :: alreadyInstalled)
                (made ++ [{| bb_targetDir := targetDir;
                             bb_buildPythonPath := targetDir :: pythonPaths |}])%list
          end
      end
  end.

Definition bootstrapBySequence (clonedDirs : dict Path)
    (bootstrapSequence : list (string * list PathEntry))
  : list BootstrapBuild * result unit :=
  bootstrapBySequence_loop clonedDirs bootstrapSequence [] [].

(** The entries of [pythonPaths] that are kept for a package: those that do
    not name a package earlier in the sequence. *)
Definition kept (earlier : list string) (pythonPaths : list PathEntry) : list PathEntry :=
  filter (not_installed earlier) pythonPaths.

(** A sample bootstrap: [a], then [b] which needs [a] and a directory. *)
Definition sampleClones : dict Path := [("a", ["src"; "a"]); ("b", ["src"; "b"])].

Definition sampleSequence : list (string * list PathEntry) :=
  [("a", []); ("b", [ByName "a"; ByDir ["vendor"]])].

(** ** The loop, as the rounds see it *)

(** The loop in which every round is called with the one preferences value
    [roundPrefs], whatever the caller asked for: what [converge] is compared
    with to state which preferences its rounds receive. *)
Fixpoint rounds_with (E : Collaborators) (fuel : nat) (roundPrefs : ResolutionPrefs)
    (rr : ResolutionRound) (installDirs : dict value) (sourcesDir : Path) (w : World)
  : list RoundCall * World * outcome (ResolutionRound * dict value) :=
  if ResolutionRound_bool rr then
    match fuel with
    | 0 => ([], w, OutOfFuel)
    | S fuel =>
        match ResolutionRound_call E rr roundPrefs installDirs sourcesDir w with
        | (w, Raise e) => ([], w, Raised e)
        | (w, Ok c) =>
            let '(calls, w, r) :=
              rounds_with E fuel roundPrefs (nextRound c) (dirs c) sourcesDir w in
            (c :: calls, w, r)
        end
    end
  else ([], w, Returned (rr, installDirs)).

(** The preferences [prefs] with [upgrade] off. *)
Definition without_upgrade (prefs : ResolutionPrefs) : ResolutionPrefs :=
  {| upgrade := false; resolveDeps := resolveDeps prefs;
     forceReinstall := forceReinstall prefs |}.

(** The scenario [abc] on a system where [B] is installed in a version that
    satisfies every requirement. *)
Definition abcInstalled : Collaborators :=
  {| registry_lookup := registry_lookup abc;
     fetchers := fetchers abc;
     extractMetadata := extractMetadata abc;
     canonicalizedRequirement := canonicalizedRequirement abc;
     getInstalledPackageVersion :=
       fun name => if String.eqb name "B" then Some "1.0" else None;
     specifier_filter := specifier_filter abc;
     unpinAvailable := unpinAvailable abc;
     filterSpecifiers := filterSpecifiers abc;
     canonicalizePackageNameMulti := canonicalizePackageNameMulti abc;
     get_distribution := get_distribution abc;
     tempName := tempName abc |}.

(** A caller who asks for upgrades. *)
Definition upgradePrefs : ResolutionPrefs :=
  {| upgrade := true; resolveDeps := true; forceReinstall := false |}.

(** * Properties *)

(** ** Dictionaries *)

Section DictFacts.
Context {V : Type}.
Implicit Types (d e : dict V) (k : string) (v : V).

Lemma dict_get_In k d v : dict_get k d = Some v -> In (k, v) d.
Proof.
  induction d as [|[k' v'] d IH]; simpl; [discriminate|].
  destruct (String.eqb_spec k k') as [->|Hne]; intros H.
  - inversion H; subst; now left.
  - right; auto.
Qed.

Lemma dict_get_None k d : dict_get k d = None <-> ~ In k (keys d).
Proof.
  induction d as [|[k' v'] d IH]; simpl.
  - tauto.
  - destruct (String.eqb_spec k k') as [->|Hne].
    + split; [discriminate | tauto].
    + rewrite IH. split; [intros H [E|H']; [congruence|tauto] | tauto].
Qed.

Lemma dict_mem_In k d : dict_mem k d = true <-> In k (keys d).
Proof.
  unfold dict_mem. destruct (dict_get k d) eqn:G.
  - apply dict_get_In in G. split; [intros _|reflexivity].
    unfold keys. apply in_map_iff. now exists (k, v).
  - apply dict_get_None in G. split; [discriminate | tauto].
Qed.

Lemma dict_mem_false k d : dict_mem k d = false <-> ~ In k (keys d).
Proof.
  rewrite <- dict_mem_In. destruct (dict_mem k d); split; congruence.
Qed.

Lemma keys_dict_set k k' v d :
  In k (keys (dict_set k' v d)) <-> k = k' \/ In k (keys d).
Proof.
  induction d as [|[k0 v0] d IH]; simpl.
  - intuition.
  - destruct (String.eqb_spec k' k0) as [->|Hne]; simpl.
    + intuition.
    + rewrite IH. intuition.
Qed.

Lemma dict_get_set_same k v d : dict_get k (dict_set k v d) = Some v.
Proof.
  induction d as [|[k0 v0] d IH]; simpl.
  - now rewrite String.eqb_refl.
  - destruct (String.eqb_spec k k0) as [->|Hne]; simpl.
    + now rewrite String.eqb_refl.
    + destruct (String.eqb_spec k k0); [contradiction|assumption].
Qed.

Lemma dict_get_set_other k k' v d :
  k <> k' -> dict_get k (dict_set k' v d) = dict_get k d.
Proof.
  intros Hne. induction d as [|[k0 v0] d IH]; simpl.
  - destruct (String.eqb_spec k k'); [contradiction|reflexivity].
  - destruct (String.eqb_spec k' k0) as [->|Hne0]; simpl.
    + destruct (String.eqb_spec k k0); [contradiction|reflexivity].
    + destruct (String.eqb_spec k k0); [reflexivity|assumption].
Qed.

Lemma keys_dict_del k k' d :
  In k (keys (dict_del k' d)) <-> k <> k' /\ In k (keys d).
Proof.
  unfold dict_del, keys. rewrite !in_map_iff. split.
  - intros [[k0 v0] [E H]]. simpl in E; subst k0.
    apply filter_In in H. destruct H as [H Hb]. simpl in Hb.
    destruct (String.eqb_spec k' k); [discriminate|].
    split; [congruence|]. now exists (k, v0).
  - intros [Hne [[k0 v0] [E H]]]. simpl in E; subst k0.
    exists (k, v0). split; [reflexivity|].
    apply filter_In. split; [assumption|]. simpl.
    destruct (String.eqb_spec k' k); [congruence|reflexivity].
Qed.

Lemma keys_dict_update k d e :
  In k (keys (dict_update d e)) <-> In k (keys d) \/ In k (keys e).
Proof.
  unfold dict_update. revert d.
  induction e as [|[k0 v0] e IH]; intros d; simpl.
  - tauto.
  - rewrite IH, keys_dict_set. intuition.
Qed.

Lemma dict_get_update_absent k d e :
  ~ In k (keys e) -> dict_get k (dict_update d e) = dict_get k d.
Proof.
  unfold dict_update. revert d.
  induction e as [|[k0 v0] e IH]; intros d Hn; simpl in *.
  - reflexivity.
  - rewrite IH by tauto. apply dict_get_set_other. intros ->. tauto.
Qed.

Lemma dict_get_update_present k d e :
  In k (keys e) -> exists v, dict_get k (dict_update d e) = Some v /\ In (k, v) e.
Proof.
  unfold dict_update. revert d.
  induction e as [|[k0 v0] e IH]; intros d Hin; simpl in *.
  - contradiction.
  - destruct (in_dec string_dec k (keys e)) as [Hk|Hk].
    + destruct (IH (dict_set k0 v0 d) Hk) as [v [G I]]. exists v. auto.
    + destruct Hin as [->|Hin]; [|contradiction].
      exists v0. split; [|now left].
      fold (dict_update (dict_set k v0 d) e).
      rewrite dict_get_update_absent by assumption.
      apply dict_get_set_same.
Qed.
End DictFacts.

(** ** The reinstallation check *)

(** C4. [isReInstallationNeeded] is false for a requirement with a marker;
    without a marker it is true when nothing is installed, true when a
    version is installed and [upgrade] is set, and, when a version is
    installed and [upgrade] is not set, true under [forceReinstall], false
    when the installed version satisfies the specifier, and true otherwise. *)
Theorem isReInstallationNeeded_table (E : Collaborators) (el : Requirement.t)
    (prefs : ResolutionPrefs) :
  (Requirement.marker el <> None -> isReInstallationNeeded E el prefs = false) /\
  (Requirement.marker el = None ->
   (getInstalledPackageVersion E (Requirement.name el) = None ->
    isReInstallationNeeded E el prefs = true) /\
   (forall version,
      getInstalledPackageVersion E (Requirement.name el) = Some version ->
      (upgrade prefs = true -> isReInstallationNeeded E el prefs = true) /\
      (upgrade prefs = false ->
       (forceReinstall prefs = true -> isReInstallationNeeded E el prefs = true) /\
       (forceReinstall prefs = false ->
        isReInstallationNeeded E el prefs
        = negb (satisfies E (Requirement.specifier el) version))))).
Proof.
  unfold isReInstallationNeeded. split.
  - destruct (Requirement.marker el); [reflexivity | congruence].
  - intros ->. split.
    + intros ->. reflexivity.
    + intros version ->. split; [intros ->; reflexivity|].
      intros ->. simpl. split; intros ->; [reflexivity|].
      now destruct (satisfies E (Requirement.specifier el) version).
Qed.

(** A requirement with a marker is skipped even when nothing is installed. *)
Lemma isReInstallationNeeded_table_witness :
  isReInstallationNeeded abc (Requirement.mk "D" [] (Some "os_name == 'nt'")) defaultPrefs
  = false.
Proof.
  apply (proj1 (isReInstallationNeeded_table abc
                  (Requirement.mk "D" [] (Some "os_name == 'nt'")) defaultPrefs)).
  simpl. discriminate.
Defined.

(** ** The installed-distribution lookup *)

(** C8. When the dash form and the underscore form of a name differ, the
    lookup raises if both are installed, and otherwise returns the one that
    is installed, or nothing. *)
Theorem getInstalledPackageDistribution_variants (E : Collaborators)
    (name dashName underscoreName : string) :
  canonicalizePackageNameMulti E name = (dashName, underscoreName) ->
  dashName <> underscoreName ->
  (forall dDist uDist,
     get_distribution E dashName = Some dDist ->
     get_distribution E underscoreName = Some uDist ->
     getInstalledPackageDistribution E name = Raise RuntimeError) /\
  (get_distribution E underscoreName = None ->
   getInstalledPackageDistribution E name = Ok (get_distribution E dashName)) /\
  (get_distribution E dashName = None ->
   getInstalledPackageDistribution E name = Ok (get_distribution E underscoreName)).
Proof.
  intros Hc Hne. unfold getInstalledPackageDistribution. rewrite Hc.
  destruct (String.eqb_spec dashName underscoreName) as [|_]; [contradiction|].
  simpl. repeat split.
  - intros dDist uDist -> ->. reflexivity.
  - intros ->. now destruct (get_distribution E dashName).
  - intros ->. now destruct (get_distribution E underscoreName).
Qed.

Lemma getInstalledPackageDistribution_variants_witness :
  getInstalledPackageDistribution (spellings onlyUnderscore) "Foo_Bar"
  = Ok (Some (Distribution.mk "foo_bar" "1.0")).
Proof.
  apply (proj2 (proj2 (getInstalledPackageDistribution_variants
                         (spellings onlyUnderscore) "Foo_Bar" "foo-bar" "foo_bar"
                         eq_refl ltac:(discriminate)))).
  reflexivity.
Defined.

(** ** Preferences seen by the rounds *)

Lemma clone_upgrade_false (p1 p2 : ResolutionPrefs) :
  resolveDeps p1 = resolveDeps p2 ->
  forceReinstall p1 = forceReinstall p2 ->
  clone p1 (Some false) None None = clone p2 (Some false) None None.
Proof. unfold clone; simpl. now intros -> ->. Qed.

Lemma converge_clone (E : Collaborators) (fuel : nat) (p1 p2 : ResolutionPrefs) :
  clone p1 (Some false) None None = clone p2 (Some false) None None ->
  forall rr installDirs sourcesDir w,
    converge E fuel p1 rr installDirs sourcesDir w
    = converge E fuel p2 rr installDirs sourcesDir w.
Proof.
  intros Hc. induction fuel as [|fuel IH]; intros rr installDirs sourcesDir w; simpl.
  - reflexivity.
  - rewrite Hc.
    destruct (ResolutionRound_bool rr); [|reflexivity].
    destruct (ResolutionRound_call E rr (clone p2 (Some false) None None)
                installDirs sourcesDir w) as [w' [c|e]]; [|reflexivity].
    now rewrite IH.
Qed.

Lemma converge_rounds_with (E : Collaborators) (fuel : nat) (prefs : ResolutionPrefs)
    (sourcesDir : Path) :
  forall rr installDirs w,
    converge E fuel prefs rr installDirs sourcesDir w
    = rounds_with E fuel (without_upgrade prefs) rr installDirs sourcesDir w.
Proof.
  induction fuel as [|fuel IH]; intros rr installDirs w; simpl.
  - reflexivity.
  - destruct (ResolutionRound_bool rr); [|reflexivity].
    change (clone prefs (Some false) None None) with (without_upgrade prefs).
    destruct (ResolutionRound_call E rr (without_upgrade prefs) installDirs sourcesDir w)
      as [w' [c|e]]; [|reflexivity].
    now rewrite IH.
Qed.

(** With rounds that did receive the caller's [upgrade], the installed [B]
    of [abcInstalled] would be fetched again: the flag matters to a round. *)
Lemma upgrade_would_matter :
  times_cloned ["install_k3xq"; "B"]
    (world_of (rounds_with abcInstalled 8 upgradePrefs
                 (PackagesInstaller.firstRound abcInstalled ["A"]) []
                 ["install_k3xq"] emptyWorld)) = 2.
Proof. vm_compute. reflexivity. Qed.

(** C9. Every round of the loop is called with the caller's preferences in
    which [upgrade] has been turned off, the other two flags being kept: the
    loop is the one whose rounds all receive that value.  Hence two
    preference values that differ only in [upgrade] give the same run: the
    same round calls, the same effects on the world and the same outcome. *)
Theorem upgrade_never_reaches_rounds (E : Collaborators) (fuel : nat)
    (self : PackagesInstaller.t) (p1 p2 : ResolutionPrefs) (names : list string)
    (w : World) :
  resolveDeps p1 = resolveDeps p2 ->
  forceReinstall p1 = forceReinstall p2 ->
  (forall rr installDirs sourcesDir w0,
     converge E fuel p1 rr installDirs sourcesDir w0
     = rounds_with E fuel
         {| upgrade := false; resolveDeps := resolveDeps p1;
            forceReinstall := forceReinstall p1 |}
         rr installDirs sourcesDir w0) /\
  upgrade (clone p1 (Some false) None None) = false /\
  PackagesInstaller.call E fuel self p1 names w
  = PackagesInstaller.call E fuel self p2 names w.
Proof.
  intros Hr Hf. split; [|split; [reflexivity|]].
  - intros rr installDirs sourcesDir w0. apply converge_rounds_with.
  - unfold PackagesInstaller.call, PackagesInstaller.downloadPackagesAndTheirDependencies.
    now rewrite (converge_clone E fuel p1 p2 (clone_upgrade_false p1 p2 Hr Hf)).
Qed.

(** On a system where [B] is installed, a caller who asks for upgrades gets
    the run of one who does not, in which [B] is never fetched. *)
Lemma upgrade_never_reaches_rounds_witness :
  PackagesInstaller.call abcInstalled 8 PackagesInstaller._reset upgradePrefs ["A"]
    emptyWorld
  = PackagesInstaller.call abcInstalled 8 PackagesInstaller._reset defaultPrefs ["A"]
      emptyWorld /\
  converge abcInstalled 8 upgradePrefs (PackagesInstaller.firstRound abcInstalled ["A"]) []
    ["install_k3xq"] emptyWorld
  = rounds_with abcInstalled 8 defaultPrefs (PackagesInstaller.firstRound abcInstalled ["A"])
      [] ["install_k3xq"] emptyWorld /\
  times_cloned ["install_k3xq"; "B"]
    (world_of (PackagesInstaller.call abcInstalled 8 PackagesInstaller._reset upgradePrefs
                 ["A"] emptyWorld)) = 0.
Proof.
  destruct (upgrade_never_reaches_rounds abcInstalled 8 PackagesInstaller._reset
              upgradePrefs defaultPrefs ["A"] emptyWorld eq_refl eq_refl)
    as (H1 & _ & H3).
  split; [exact H3|]. split; [apply H1|]. vm_compute. reflexivity.
Defined.

(** ** The scratch directory *)

Lemma clonePackagesRepos_loop_scratch (E : Collaborators) (targetDir : Path)
    (names : list string) :
  forall w res ign,
    scratch (fst (fst (clonePackagesRepos_loop E targetDir names w res ign))) = scratch w.
Proof.
  induction names as [|name rest IH]; intros w res ign; simpl; [reflexivity|].
  destruct (matchingFetcher E (Package.fetcher (registry_lookup E name)));
    rewrite IH; reflexivity.
Qed.

Lemma fetch_scratch (E : Collaborators) (self : ResolutionSubRound) (sourcesDir : Path)
    (w : World) :
  scratch (fst (fetch E self sourcesDir w)) = scratch w.
Proof.
  unfold fetch, clonePackagesRepos.
  pose proof (clonePackagesRepos_loop_scratch E sourcesDir (keys (toFetch self)) w [] []) as H.
  destruct (clonePackagesRepos_loop E sourcesDir (keys (toFetch self)) w [] [])
    as [[w' res] ign]. exact H.
Qed.

Lemma ResolutionRound_call_scratch (E : Collaborators) (self : ResolutionRound)
    (prefs : ResolutionPrefs) (installDirs : dict value) (sourcesDir : Path) (w : World) :
  scratch (fst (ResolutionRound_call E self prefs installDirs sourcesDir w)) = scratch w.
Proof.
  unfold ResolutionRound_call.
  pose proof (fetch_scratch E (build self) sourcesDir w) as H1.
  destruct (fetch E (build self) sourcesDir w) as [w1 [b|e]]; simpl in H1; [|exact H1].
  match goal with |- context [fetch E ?s sourcesDir w1] =>
    pose proof (fetch_scratch E s sourcesDir w1) as H2;
    destruct (fetch E s sourcesDir w1) as [w2 [p|e]] end;
    simpl in H2 |- *; [|congruence].
  match goal with |- context [_resolveDeps E prefs ?s] =>
    destruct (_resolveDeps E prefs s) end; simpl; congruence.
Qed.

Lemma converge_scratch (E : Collaborators) (fuel : nat) (prefs : ResolutionPrefs)
    (sourcesDir : Path) :
  forall rr installDirs w,
    scratch (snd (fst (converge E fuel prefs rr installDirs sourcesDir w))) = scratch w.
Proof.
  induction fuel as [|fuel IH]; intros rr installDirs w; simpl.
  - now destruct (ResolutionRound_bool rr).
  - destruct (ResolutionRound_bool rr); [|reflexivity].
    pose proof (ResolutionRound_call_scratch E rr (clone prefs (Some false) None None)
                  installDirs sourcesDir w) as H.
    destruct (ResolutionRound_call E rr (clone prefs (Some false) None None)
                installDirs sourcesDir w) as [w' [c|e]]; simpl in H; [|exact H].
    specialize (IH (nextRound c) (dirs c) w').
    destruct (converge E fuel prefs (nextRound c) (dirs c) sourcesDir w')
      as [[calls w''] r]. simpl in *. congruence.
Qed.

Lemma buildAndInstallWheel_each_scratch (names : list string) (installDirs : dict value) :
  forall w, scratch (fst (buildAndInstallWheel_each names installDirs w)) = scratch w.
Proof.
  induction names as [|t rest IH]; intros w; simpl; [reflexivity|].
  destruct (dict_get t installDirs); [|reflexivity]. now rewrite IH.
Qed.

Lemma ResolutionRound_buildAndInstallWheel_scratch (rr : ResolutionRound)
    (installDirs : dict value) (w : World) :
  scratch (fst (ResolutionRound_buildAndInstallWheel rr installDirs w)) = scratch w.
Proof.
  unfold ResolutionRound_buildAndInstallWheel, ResolutionSubRound_buildAndInstallWheel.
  destruct (dict_bool (resolved (build rr))).
  - pose proof (buildAndInstallWheel_each_scratch (keys (resolved (build rr))) installDirs w) as H.
    destruct (buildAndInstallWheel_each (keys (resolved (build rr))) installDirs w)
      as [w1 [u|e]]; simpl in H; [|exact H].
    destruct (dict_bool (resolved (pkgs rr))); [|exact H].
    now rewrite buildAndInstallWheel_each_scratch.
  - destruct (dict_bool (resolved (pkgs rr))); [|reflexivity].
    apply buildAndInstallWheel_each_scratch.
Qed.

Lemma download_scratch (E : Collaborators) (fuel : nat) (self : PackagesInstaller.t)
    (dir : Path) (prefs : ResolutionPrefs) (names : list string) (w : World) :
  scratch (snd (fst (PackagesInstaller.downloadPackagesAndTheirDependencies
                       E fuel self dir prefs names w))) = scratch w.
Proof.
  unfold PackagesInstaller.downloadPackagesAndTheirDependencies.
  pose proof (converge_scratch E fuel prefs dir (PackagesInstaller.firstRound E names)
                (PackagesInstaller.installDirs self) w) as H.
  destruct (converge E fuel prefs (PackagesInstaller.firstRound E names)
              (PackagesInstaller.installDirs self) dir w) as [[calls w1] r].
  simpl in H. destruct r as [[rr installDirs']|e|]; simpl; try exact H.
  pose proof (ResolutionRound_buildAndInstallWheel_scratch rr installDirs' w1) as H2.
  destruct (ResolutionRound_buildAndInstallWheel rr installDirs' w1) as [w2 [u|e]];
    simpl in *; congruence.
Qed.

Lemma cleanup_removes (p : Path) (w : World) : ~ In p (scratch (cleanup p w)).
Proof.
  unfold cleanup, Path_eqb; simpl. intros H. apply filter_In in H.
  destruct H as [_ H]. destruct (list_eq_dec string_dec p p); [discriminate|congruence].
Qed.

(** The explicit release of [__call__]: when the install operation returns,
    its scratch directory has been released; when it raises, [cleanup] has not
    been called and the directory is still in place. *)
Lemma scratch_released_on_return (E : Collaborators) (fuel : nat)
    (self : PackagesInstaller.t) (prefs : ResolutionPrefs) (names : list string)
    (w : World) :
  (forall calls w' r,
     PackagesInstaller.call E fuel self prefs names w = (calls, w', Returned r) ->
     ~ In (PackagesInstaller.scratchDir E) (scratch w')) /\
  (forall calls w' e,
     PackagesInstaller.call E fuel self prefs names w = (calls, w', Raised e) ->
     In (PackagesInstaller.scratchDir E) (scratch w')).
Proof.
  unfold PackagesInstaller.call.
  match goal with |- context [PackagesInstaller.downloadPackagesAndTheirDependencies
                                E fuel ?s ?d prefs names ?w0] =>
    pose proof (download_scratch E fuel s d prefs names w0) as H;
    destruct (PackagesInstaller.downloadPackagesAndTheirDependencies
                E fuel s d prefs names w0) as [[calls0 w0'] r0] end.
  simpl in H. split; intros calls w' r Heq; destruct r0; inversion Heq; subst.
  - apply cleanup_removes.
  - rewrite H. apply in_or_app. right. now left.
Qed.

Lemma scratch_released_on_return_witness :
  ~ In (PackagesInstaller.scratchDir abc)
       (scratch (snd (fst (PackagesInstaller.call abc 8 PackagesInstaller._reset
                             defaultPrefs ["A"] emptyWorld)))).
Proof.
  destruct (PackagesInstaller.call abc 8 PackagesInstaller._reset defaultPrefs ["A"]
              emptyWorld) as [[calls w'] r] eqn:Hrun.
  assert (Hr : exists x, r = Returned x).
  { vm_compute in Hrun. inversion Hrun. eexists. reflexivity. }
  destruct Hr as [x ->].
  exact (proj1 (scratch_released_on_return abc 8 PackagesInstaller._reset defaultPrefs
                  ["A"] emptyWorld) calls w' x Hrun).
Defined.

(** C7, on the code.  The release is to happen on every exit path; here a
    requested package whose repository kind has no fetcher makes the first
    round raise, [__call__] has no [try]/[finally] around the download phase,
    so [self.sourcesDir.cleanup()] is not reached, and the operation ends with
    the error and with its scratch directory still there.  The installer
    still holds the [TemporaryDirectory] object at that point, so the
    directory goes only when the runtime finalises that object, which is no
    step of the operation. *)
Theorem scratch_left_behind_on_error :
  PackagesInstaller.call mixed 8 PackagesInstaller._reset defaultPrefs ["legacy"] emptyWorld
  = ([], {| clones := []; builds := []; scratch := [PackagesInstaller.scratchDir mixed] |},
     Raised NotImplementedError).
Proof. vm_compute. reflexivity. Qed.

(** ** The three defects of the resolution step, on concrete runs *)

(** C1, on the code.  [promoStore] is the store of the second round of the
    run of [promo] for [A]: the build lane has fetched [B], the package lane
    has fetched [X].  Appending the build dependency [X] of [B] on the build
    lane finds [X] at stage [fetched] in the package lane; after the call [X]
    is gone from the package lane's [fetched] but is not in the build lane's
    [fetched] either, and it is queued for another fetch. *)
Theorem appendNewDeps_promotion_drops_entry :
  isAlreadyBeingProcessed (pkgs (current promoStore)) "X" = Stage.fetched /\
  moveToThis (build (current promoStore)) = true /\
  exists st,
    appendNewDeps promo ResolutionRoundSubRound.build defaultPrefs [req "X"]
      [ResolutionRoundSubRound.pkgs] ResolutionRoundSubRound.build promoStore = Ok st /\
    dict_mem "X" (fetched (pkgs (current st))) = false /\
    dict_mem "X" (fetched (build (current st))) = false /\
    toFetch (build (successor st)) = [("X", One)].
Proof.
  split; [reflexivity|]. split; [reflexivity|].
  eexists. split; [vm_compute; reflexivity|].
  repeat split.
Qed.

(** The same holds of every store: handling another lane never changes the
    collections of the lane that appends, whatever stage the name is found
    at. *)
Lemma appendNewDeps_other_leaves_this_lane (t o : Lane) (el : string) (st st' : Store) :
  o <> t ->
  appendNewDeps_other t el st o = Ok st' ->
  fetched (subRounds (current st') t) = fetched (subRounds (current st) t) /\
  resolved (subRounds (current st') t) = resolved (subRounds (current st) t).
Proof.
  intros Hne. unfold appendNewDeps_other.
  destruct (Stage.truthy _); [|intros H; inversion H; now subst].
  destruct (moveToThis _); [|intros H; inversion H; now subst].
  destruct (isAlreadyBeingProcessed (subRounds (current st) o) el);
    simpl; try discriminate; intros H; inversion H; subst st'; clear H;
    destruct o, t; try contradiction; split; reflexivity.
Qed.

(** The store above is the one the installer reaches: in the run of [promo]
    for [A] the second round ends with [X] in neither lane's [fetched] and
    absent from [installDirs], and [X] is cloned a second time. *)
Lemma promo_run_second_round :
  let run := PackagesInstaller.call promo 8 PackagesInstaller._reset defaultPrefs ["A"]
               emptyWorld in
  exists c1 c2 c3,
    calls_of run = [c1; c2; c3] /\
    keys (fetched (build (after c2))) = ["B"] /\
    keys (fetched (pkgs (after c2))) = [] /\
    keys (dirs c2) = ["A"; "B"] /\
    times_cloned ["install_k3xq"; "X"] (world_of run) = 2.
Proof.
  vm_compute. do 3 eexists. repeat split.
Qed.

(** C2, on the code.  In the run of [abc] for [A], the second round resolves
    [B] in the build lane, and the round it returns has an empty build lane
    [resolved]; the third round holds [A] as resolved in the package lane,
    fetches nothing in that lane, and the round it returns does not hold
    [A]. *)
Theorem resolved_not_propagated_to_same_lane :
  let run := PackagesInstaller.call abc 8 PackagesInstaller._reset defaultPrefs ["A"]
               emptyWorld in
  exists c1 c2 c3,
    calls_of run = [c1; c2; c3] /\
    dict_mem "B" (resolved (build (after c2))) = true /\
    resolved (build (nextRound c2)) = [] /\
    keys (resolved (pkgs (nextRound c2))) = ["B"; "A"; "C"] /\
    dict_mem "A" (resolved (pkgs (after c3))) = true /\
    dict_mem "A" (resolved (pkgs (nextRound c3))) = false.
Proof.
  vm_compute. do 3 eexists. repeat split.
Qed.

(** C3, on the code.  In the scenario of the specification ([A] with build
    dependency [B] and dependency [C], [C] with build dependency [B]) the
    installer returns after three rounds, having cloned [B] twice; the round
    the loop ends on holds [B] in the package lane only, and [A] and [C],
    both fetched, in no lane. *)
Theorem abc_run_fetches_twice_and_loses_names :
  let run := PackagesInstaller.call abc 8 PackagesInstaller._reset defaultPrefs ["A"]
               emptyWorld in
  times_cloned ["install_k3xq"; "B"] (world_of run) = 2 /\
  times_cloned ["install_k3xq"; "A"] (world_of run) = 1 /\
  times_cloned ["install_k3xq"; "C"] (world_of run) = 1 /\
  exists rr self,
    outcome_of run = Returned (rr, self) /\
    lanes_resolving "B" rr = [ResolutionRoundSubRound.pkgs] /\
    lanes_resolving "A" rr = [] /\
    lanes_resolving "C" rr = [] /\
    builds (world_of run) = [Dir ["install_k3xq"; "B"]].
Proof.
  vm_compute. repeat split. do 2 eexists. repeat split.
Qed.

(** ** Fetching *)

Lemma Source_eqb_eq (a b : Source) : Source_eqb a b = true <-> a = b.
Proof.
  destruct a, b; simpl; try (split; congruence).
  rewrite Nat.eqb_eq. split; congruence.
Qed.

Lemma check_ignored_raises (ign : list Package.t) :
  check_ignored ign = Raise NotImplementedError <->
  exists p, In p ign /\ FetcherSpec.type (Package.fetcher p) <> system.
Proof.
  induction ign as [|p rest IH]; simpl.
  - split; [discriminate | intros [p [[] _]]].
  - destruct (Source_eqb (FetcherSpec.type (Package.fetcher p)) system) eqn:Hs; simpl.
    + apply Source_eqb_eq in Hs. rewrite IH. split.
      * intros [q [H1 H2]]. exists q. tauto.
      * intros [q [[<-|H1] H2]]; [contradiction|]. exists q. tauto.
    + split; [intros _|reflexivity]. exists p. split; [now left|].
      intros H. apply Source_eqb_eq in H. congruence.
Qed.

Lemma check_ignored_only_error (ign : list Package.t) (e : exn) :
  check_ignored ign = Raise e -> e = NotImplementedError.
Proof.
  induction ign as [|p rest IH]; simpl; [discriminate|].
  destruct (negb (Source_eqb (FetcherSpec.type (Package.fetcher p)) system));
    [congruence | exact IH].
Qed.

Lemma keys_ignoredNames_of (ign : list Package.t) (k : string) :
  In k (keys (ignoredNames_of ign)) <-> In k (map Package.name ign).
Proof.
  unfold ignoredNames_of.
  assert (G : forall acc,
             In k (keys (fold_left (fun acc el => dict_set (Package.name el) el acc) ign acc))
             <-> In k (keys acc) \/ In k (map Package.name ign)).
  { induction ign as [|p rest IH]; intros acc; simpl; [tauto|].
    rewrite IH, keys_dict_set. intuition. }
  rewrite G. simpl. tauto.
Qed.

Section Fetch.
Variable E : Collaborators.
Variable targetDir : Path.

Let spec := fetcherSpecOf E.

Lemma clone_loop_ignored (names : list string) :
  forall w res ign,
    snd (clonePackagesRepos_loop E targetDir names w res ign)
    = (ign ++ map (registry_lookup E) (filter (unmatched E) names))%list.
Proof.
  induction names as [|name rest IH]; intros w res ign; simpl.
  - now rewrite app_nil_r.
  - unfold unmatched at 1, spec, fetcherSpecOf.
    destruct (matchingFetcher E (Package.fetcher (registry_lookup E name))).
    + apply IH.
    + rewrite IH. simpl. now rewrite <- app_assoc.
Qed.

Lemma clone_loop_keeps (names : list string) (name : string) :
  forall w res ign,
    dict_get name res = Some (Dir (cloneTarget targetDir name (spec name))) ->
    dict_get name (snd (fst (clonePackagesRepos_loop E targetDir names w res ign)))
    = Some (Dir (cloneTarget targetDir name (spec name))).
Proof.
  induction names as [|name0 rest IH]; intros w res ign G; simpl; [exact G|].
  destruct (matchingFetcher E (Package.fetcher (registry_lookup E name0))).
  - apply IH. destruct (String.eqb_spec name name0) as [->|Hne].
    + apply dict_get_set_same.
    + now rewrite dict_get_set_other.
  - now apply IH.
Qed.

Lemma clone_loop_fetched (names : list string) (name fetcher : string) :
  In name names ->
  matchingFetcher E (spec name) = Some fetcher ->
  forall w res ign,
    dict_get name (snd (fst (clonePackagesRepos_loop E targetDir names w res ign)))
    = Some (Dir (cloneTarget targetDir name (spec name))).
Proof.
  intros Hin Hm. induction names as [|name0 rest IH]; intros w res ign; [contradiction|].
  simpl. destruct (string_dec name0 name) as [->|Hne].
  - unfold spec, fetcherSpecOf in Hm. rewrite Hm.
    apply clone_loop_keeps, dict_get_set_same.
  - destruct Hin as [|Hin]; [contradiction|].
    destruct (matchingFetcher E (Package.fetcher (registry_lookup E name0)));
      now apply IH.
Qed.

Lemma clone_loop_keys (names : list string) (k : string) :
  forall w res ign,
    In k (keys (snd (fst (clonePackagesRepos_loop E targetDir names w res ign)))) <->
    In k (keys res) \/ (In k names /\ unmatched E k = false).
Proof.
  induction names as [|name rest IH]; intros w res ign; simpl.
  - tauto.
  - destruct (matchingFetcher E (Package.fetcher (registry_lookup E name))) eqn:Hm.
    + rewrite IH, keys_dict_set.
      split.
      * intros [[->|H]|H]; [|tauto|tauto].
        right. unfold unmatched, fetcherSpecOf. rewrite Hm. tauto.
      * intros [H|[[->|H] Hu]]; tauto.
    + rewrite IH. split; [tauto|].
      intros [H|[[->|H] Hu]]; [tauto| |tauto].
      unfold unmatched, fetcherSpecOf in Hu.
      rewrite Hm in Hu. discriminate.
Qed.

Lemma clone_loop_clones (names : list string) :
  forall w res ign,
  exists cs,
    clones (fst (fst (clonePackagesRepos_loop E targetDir names w res ign)))
    = (clones w ++ cs)%list /\
    forall c, In c cs ->
      exists name, In name names /\ unmatched E name = false /\
                   call_outDir c = path_join targetDir name.
Proof.
  induction names as [|name rest IH]; intros w res ign; simpl.
  - exists []. split; [now rewrite app_nil_r | contradiction].
  - destruct (matchingFetcher E (Package.fetcher (registry_lookup E name))) eqn:Hm.
    + match goal with |- context [clonePackagesRepos_loop E targetDir rest ?w1 ?r1 ign] =>
        destruct (IH w1 r1 ign) as [cs [Hc Hcs]] end.
      simpl in Hc. rewrite <- app_assoc in Hc.
      eexists. split; [exact Hc|].
      intros c [<-|Hin].
      * exists name. simpl. unfold unmatched, fetcherSpecOf.
        rewrite Hm. tauto.
      * destruct (Hcs c Hin) as [n [H1 H2]]. exists n. tauto.
    + destruct (IH w res (ign ++ [registry_lookup E name])%list) as [cs [Hc Hcs]].
      exists cs. split; [exact Hc|].
      intros c Hin. destruct (Hcs c Hin) as [n [H1 H2]]. exists n. tauto.
Qed.

End Fetch.

Lemma fetch_eq (E : Collaborators) (self : ResolutionSubRound) (sourcesDir : Path)
    (w : World) :
  let r := clonePackagesRepos_loop E sourcesDir (keys (toFetch self)) w [] [] in
  fetch E self sourcesDir w
  = (fst (fst r),
     bind (check_ignored (snd r))
       (fun _ => Ok (set_ignored (dict_update (ignored self) (ignoredNames_of (snd r)))
                       (set_toFetch []
                          (set_fetched (dict_update (fetched self) (snd (fst r))) self))))).
Proof.
  unfold fetch, clonePackagesRepos.
  destruct (clonePackagesRepos_loop E sourcesDir (keys (toFetch self)) w [] [])
    as [[w' res] ign]. reflexivity.
Qed.

Lemma fetch_ok_inv (E : Collaborators) (self self' : ResolutionSubRound)
    (sourcesDir : Path) (w : World) :
  snd (fetch E self sourcesDir w) = Ok self' ->
  let r := clonePackagesRepos_loop E sourcesDir (keys (toFetch self)) w [] [] in
  check_ignored (snd r) = Ok tt /\
  self' = set_ignored (dict_update (ignored self) (ignoredNames_of (snd r)))
            (set_toFetch [] (set_fetched (dict_update (fetched self) (snd (fst r))) self)).
Proof.
  rewrite fetch_eq. simpl.
  destruct (check_ignored _) as [[]|e]; simpl; [|discriminate].
  intros H. inversion H. split; reflexivity.
Qed.

Lemma in_ignored_list (E : Collaborators) (names : list string) (name : string) :
  In name names -> unmatched E name = true ->
  In (registry_lookup E name) (map (registry_lookup E) (filter (unmatched E) names)).
Proof.
  intros Hin Hu. apply in_map, filter_In. tauto.
Qed.

Lemma system_unmatched (E : Collaborators) (name : string) :
  fetchers E system = None ->
  FetcherSpec.type (fetcherSpecOf E name) = system ->
  unmatched E name = true.
Proof.
  intros Hsys Ht. unfold unmatched, matchingFetcher.
  destruct (FetcherSpec.isSourceFetcher (fetcherSpecOf E name)); [|reflexivity].
  now rewrite Ht, Hsys.
Qed.

Lemma fetch_ignored_member (E : Collaborators) (self self' : ResolutionSubRound)
    (sourcesDir : Path) (w : World) (name : string) :
  snd (fetch E self sourcesDir w) = Ok self' ->
  In name (keys (toFetch self)) ->
  unmatched E name = true ->
  dict_mem (Package.name (registry_lookup E name)) (ignored self') = true.
Proof.
  intros Hok Hin Hu. apply fetch_ok_inv in Hok. destruct Hok as [_ ->].
  cbn [ignored set_ignored].
  apply dict_mem_In, keys_dict_update. right.
  apply keys_ignoredNames_of. rewrite clone_loop_ignored.
  apply in_map. now apply in_ignored_list.
Qed.

Lemma dict_set_In_inv {V : Type} (d : dict V) (a : string) (b : V) (k : string) (v : V) :
  In (k, v) (dict_set a b d) -> (k, v) = (a, b) \/ In (k, v) d.
Proof.
  induction d as [|[k0 v0] d IH]; simpl; intros H.
  - destruct H as [H|[]]. left. now symmetry.
  - destruct (String.eqb a k0).
    + destruct H as [H|H]; [left; now symmetry | right; now right].
    + destruct H as [H|H]; [right; now left|].
      destruct (IH H); [now left | right; now right].
Qed.

Lemma clone_loop_values (E : Collaborators) (targetDir : Path) (names : list string) :
  forall w res ign k v,
    (forall k1 v1, In (k1, v1) res ->
                   v1 = Dir (cloneTarget targetDir k1 (fetcherSpecOf E k1))) ->
    In (k, v) (snd (fst (clonePackagesRepos_loop E targetDir names w res ign))) ->
    v = Dir (cloneTarget targetDir k (fetcherSpecOf E k)).
Proof.
  induction names as [|n rest IH]; intros w res ign k v Hres Hin; simpl in Hin.
  - eauto.
  - destruct (matchingFetcher E (Package.fetcher (registry_lookup E n))).
    + eapply IH; [|exact Hin]. intros k1 v1 H1.
      destruct (dict_set_In_inv _ _ _ _ _ H1) as [Heq|Hold]; [|eauto].
      inversion Heq; subst. reflexivity.
    + eapply IH; eauto.
Qed.

(** C5. When [fetch] returns, [toFetch] is empty; every name that had a
    matching fetcher is in [fetched] with its source directory; and, given
    that no fetcher is registered for the system kind and that the registry
    answers with records named as asked, every name of the system kind is in
    [ignored], was not the target of any fetcher call, and was not added to
    [fetched]. *)
Theorem fetch_postcondition (E : Collaborators) (self self' : ResolutionSubRound)
    (sourcesDir : Path) (w : World) :
  snd (fetch E self sourcesDir w) = Ok self' ->
  toFetch self' = [] /\
  (forall name fetcher,
     In name (keys (toFetch self)) ->
     matchingFetcher E (fetcherSpecOf E name) = Some fetcher ->
     dict_get name (fetched self')
     = Some (Dir (cloneTarget sourcesDir name (fetcherSpecOf E name)))) /\
  (no_system_fetcher E ->
   registry_answers_by_name E (keys (toFetch self)) ->
   forall name,
     In name (keys (toFetch self)) ->
     FetcherSpec.type (fetcherSpecOf E name) = system ->
     dict_mem name (ignored self') = true /\
     dict_get name (fetched self') = dict_get name (fetched self) /\
     exists cs,
       clones (fst (fetch E self sourcesDir w)) = (clones w ++ cs)%list /\
       forall c, In c cs -> call_outDir c <> path_join sourcesDir name).
Proof.
  intros Hok. pose proof (fetch_ok_inv E self self' sourcesDir w Hok) as [Hchk Hself].
  cbv zeta in Hchk, Hself. split; [now subst self'|]. split.
  - intros name fetcher Hin Hm. subst self'. cbn [fetched set_ignored set_toFetch set_fetched].
    pose proof (clone_loop_fetched E sourcesDir (keys (toFetch self)) name fetcher Hin Hm
                  w [] []) as G.
    assert (Hk : In name (keys (snd (fst (clonePackagesRepos_loop E sourcesDir
                                            (keys (toFetch self)) w [] []))))).
    { apply dict_mem_In. unfold dict_mem. now rewrite G. }
    destruct (dict_get_update_present name (fetched self) _ Hk) as [v [Gv Iv]].
    rewrite Gv. f_equal.
    eapply clone_loop_values; [|exact Iv]. intros k1 v1 [].
  - intros Hsys Hname name Hin Ht.
    pose proof (system_unmatched E name Hsys Ht) as Hu.
    split; [|split].
    + rewrite <- (Hname name Hin) at 1. eapply fetch_ignored_member; eauto.
    + subst self'. cbn [fetched set_ignored set_toFetch set_fetched].
      apply dict_get_update_absent.
      rewrite clone_loop_keys. simpl. intros [[]|[_ H]]. congruence.
    + rewrite fetch_eq. cbv zeta. cbn [fst].
      destruct (clone_loop_clones E sourcesDir (keys (toFetch self)) w [] [])
        as [cs [Hc Hcs]].
      exists cs. split; [exact Hc|].
      intros c Hc' Heq. destruct (Hcs c Hc') as [n [_ [Hn Hout]]].
      rewrite Heq in Hout. unfold path_join in Hout.
      apply app_inj_tail in Hout. destruct Hout as [_ <-]. congruence.
Qed.

Lemma mixed_names (names : list string) : registry_answers_by_name mixed names.
Proof.
  intros name _. simpl. unfold mixedLookup.
  destruct (String.eqb name "legacy"); [reflexivity|].
  destruct (String.eqb name "libc"); reflexivity.
Defined.

Lemma fetch_postcondition_witness :
  match snd (fetch mixed sampleLane ["install_k3xq"] emptyWorld) with
  | Ok self' =>
      toFetch self' = [] /\
      dict_get "x" (fetched self') = Some (Dir ["install_k3xq"; "x"]) /\
      dict_mem "libc" (ignored self') = true
  | Raise _ => False
  end.
Proof.
  destruct (snd (fetch mixed sampleLane ["install_k3xq"] emptyWorld)) as [self'|e] eqn:Hf;
    [|vm_compute in Hf; discriminate].
  destruct (fetch_postcondition mixed sampleLane self' ["install_k3xq"] emptyWorld Hf)
    as (H1 & H2 & H3).
  split; [exact H1|]. split.
  - apply (H2 "x" "git"); [simpl; tauto | reflexivity].
  - apply (H3 eq_refl (mixed_names (keys (toFetch sampleLane))) "libc"); [simpl; tauto | reflexivity].
Defined.

(** C6. [fetch] raises [NotImplementedError] exactly when some name of
    [toFetch] has no matching fetcher and is not of the system kind, and it
    raises nothing else; so a lane whose unmatched names are all of the system
    kind is fetched without error, and (no fetcher being registered for the
    system kind, the registry answering with records named as asked) each
    name of the system kind is then in [ignored]. *)
Theorem fetch_raises_iff (E : Collaborators) (self : ResolutionSubRound)
    (sourcesDir : Path) (w : World) :
  (snd (fetch E self sourcesDir w) = Raise NotImplementedError <->
   exists name,
     In name (keys (toFetch self)) /\
     matchingFetcher E (fetcherSpecOf E name) = None /\
     FetcherSpec.type (fetcherSpecOf E name) <> system) /\
  (forall e, snd (fetch E self sourcesDir w) = Raise e -> e = NotImplementedError) /\
  ((forall name, In name (keys (toFetch self)) ->
                 matchingFetcher E (fetcherSpecOf E name) = None ->
                 FetcherSpec.type (fetcherSpecOf E name) = system) ->
   exists self', snd (fetch E self sourcesDir w) = Ok self') /\
  (no_system_fetcher E ->
   registry_answers_by_name E (keys (toFetch self)) ->
   forall self', snd (fetch E self sourcesDir w) = Ok self' ->
   forall name,
     In name (keys (toFetch self)) ->
     FetcherSpec.type (fetcherSpecOf E name) = system ->
     dict_mem name (ignored self') = true).
Proof.
  assert (Hiff : snd (fetch E self sourcesDir w) = Raise NotImplementedError <->
                 exists name,
                   In name (keys (toFetch self)) /\
                   matchingFetcher E (fetcherSpecOf E name) = None /\
                   FetcherSpec.type (fetcherSpecOf E name) <> system).
  { rewrite fetch_eq. cbv zeta. cbn [snd]. rewrite clone_loop_ignored. cbn [app].
    split.
    - intros H.
      destruct (check_ignored (map (registry_lookup E)
                                 (filter (unmatched E) (keys (toFetch self))))) as [[]|e] eqn:Hc;
        [discriminate|].
      simpl in H. inversion H; subst e.
      apply check_ignored_raises in Hc. destruct Hc as [p [Hp Ht]].
      apply in_map_iff in Hp. destruct Hp as [name [<- Hn]].
      apply filter_In in Hn. destruct Hn as [Hin Hu].
      exists name. split; [exact Hin|]. split; [|exact Ht].
      unfold unmatched in Hu.
      destruct (matchingFetcher E (fetcherSpecOf E name)); [discriminate|reflexivity].
    - intros [name [Hin [Hm Ht]]].
      assert (Hc : check_ignored (map (registry_lookup E)
                                    (filter (unmatched E) (keys (toFetch self))))
                   = Raise NotImplementedError).
      { apply check_ignored_raises. exists (registry_lookup E name). split; [|exact Ht].
        apply in_ignored_list; [exact Hin|]. unfold unmatched. now rewrite Hm. }
      now rewrite Hc. }
  assert (Honly : forall e, snd (fetch E self sourcesDir w) = Raise e ->
                            e = NotImplementedError).
  { intros e. rewrite fetch_eq. cbv zeta. cbn [snd].
    destruct (check_ignored _) as [[]|e'] eqn:Hc; simpl; [discriminate|].
    intros H. inversion H; subst e'. eapply check_ignored_only_error; eauto. }
  split; [exact Hiff|]. split; [exact Honly|]. split.
  - intros Hall. destruct (snd (fetch E self sourcesDir w)) as [self'|e] eqn:Hf.
    + now exists self'.
    + exfalso. rewrite (Honly e eq_refl) in Hiff.
      destruct (proj1 Hiff eq_refl) as [name [Hin [Hm Ht]]]. auto.
  - intros Hsys Hname self' Hok name Hin Ht.
    rewrite <- (Hname name Hin) at 1.
    eapply fetch_ignored_member; eauto using system_unmatched.
Qed.

Lemma fetch_raises_iff_witness :
  snd (fetch mixed legacyLane ["install_k3xq"] emptyWorld) = Raise NotImplementedError /\
  (exists self', snd (fetch mixed sampleLane ["install_k3xq"] emptyWorld) = Ok self' /\
                 dict_mem "libc" (ignored self') = true).
Proof.
  split.
  - apply (proj1 (fetch_raises_iff mixed legacyLane ["install_k3xq"] emptyWorld)).
    exists "legacy". split; [simpl; tauto|]. split; [reflexivity | discriminate].
  - destruct (fetch_raises_iff mixed sampleLane ["install_k3xq"] emptyWorld)
      as (_ & _ & Hok & Hign).
    destruct Hok as [self' Hf].
    + intros name [<-|[<-|[]]]; [reflexivity|discriminate].
    + exists self'. split; [exact Hf|].
      apply (Hign eq_refl (mixed_names (keys (toFetch sampleLane))) self' Hf "libc");
        [simpl; tauto | reflexivity].
Defined.

(** ** Resolved names have a source directory *)

Lemma foldM_inv {A B : Type} (P : A -> Prop) (f : A -> B -> result A) (l : list B) :
  (forall a b a', In b l -> P a -> f a b = Ok a' -> P a') ->
  forall a a', P a -> foldM f l a = Ok a' -> P a'.
Proof.
  induction l as [|b l IH]; intros Hstep a a' Ha Hf; simpl in Hf.
  - inversion Hf; now subst.
  - destruct (f a b) as [a1|e] eqn:Hb; simpl in Hf; [|discriminate].
    apply (IH (fun a0 b0 a0' Hin => Hstep a0 b0 a0' (or_intror Hin)) a1 a').
    + eapply Hstep; eauto. now left.
    + exact Hf.
Qed.

Lemma keys_within_del (d : dict value) (el : string) (S : string -> Prop) :
  keys_within d S -> keys_within (dict_del el (dict_set el One d)) S.
Proof.
  intros H k Hk. apply keys_dict_del in Hk. destruct Hk as [Hne Hk].
  apply keys_dict_set in Hk. destruct Hk as [->|Hk]; [contradiction|auto].
Qed.

Lemma keys_within_set (d : dict value) (k : string) (v : value) (S : string -> Prop) :
  S k -> keys_within d S -> keys_within (dict_set k v d) S.
Proof.
  intros Hk H k' Hk'. apply keys_dict_set in Hk'. destruct Hk' as [->|Hk']; auto.
Qed.

Lemma keys_within_update (d e : dict value) (S : string -> Prop) :
  keys_within d S -> keys_within e S -> keys_within (dict_update d e) S.
Proof.
  intros Hd He k Hk. apply keys_dict_update in Hk. destruct Hk; auto.
Qed.

Lemma keys_within_weaken {V : Type} (d : dict V) (S S' : string -> Prop) :
  (forall k, S k -> S' k) -> keys_within d S -> keys_within d S'.
Proof. intros HS H k Hk. auto. Qed.

Ltac lanes :=
  repeat match goal with
         | l : Lane |- _ => destruct l
         | l : ResolutionRoundSubRound.t |- _ => destruct l
         end.

Lemma LaneInv_refl (t : Lane) (S : string -> Prop) (st : Store) :
  (forall l, keys_within (resolved (subRounds (current st) l)) S) ->
  (forall l, keys_within (resolved (subRounds (successor st) l)) S) ->
  LaneInv t S st st.
Proof. intros H1 H2. constructor; auto. Qed.

(** Queuing a name in the successor keeps the invariant. *)
Lemma LaneInv_queue (t : Lane) (S : string -> Prop) (st0 st : Store)
    (l : Lane) (d : dict value) :
  LaneInv t S st0 st ->
  LaneInv t S st0 (update_successor l (fun s => set_toFetch d s) st).
Proof.
  intros [H1 H2 H3 H4 H5 H6]. constructor; try assumption.
  - intros l'. specialize (H2 l'). destruct l, l'; exact H2.
  - intros l'. specialize (H5 l'). destruct l, l'; exact H5.
Qed.

(** Marking a name of [S] as resolved in the lane keeps the invariant. *)
Lemma LaneInv_resolve (t : Lane) (S : string -> Prop) (st0 st : Store)
    (name : string) (installDir : value) :
  S name ->
  LaneInv t S st0 st ->
  LaneInv t S st0
    (update_current t (fun s => set_resolved (dict_set name installDir (resolved s)) s) st).
Proof.
  intros Hn [H1 H2 H3 H4 H5 H6]. constructor; try assumption.
  - intros l. specialize (H1 l). destruct t, l; simpl; try exact H1;
      now apply keys_within_set.
  - rewrite <- H3. destruct t; reflexivity.
  - intros l. specialize (H4 l). destruct t, l; exact H4.
  - intros Hf l. specialize (H6 Hf l). destruct t, l; exact H6.
Qed.

(** Copying the lane's [resolved] into a lane of the successor keeps it. *)
Lemma LaneInv_propagate (t : Lane) (S : string -> Prop) (st0 st : Store) (s : Lane) :
  LaneInv t S st0 st ->
  LaneInv t S st0
    (update_successor s
       (fun u => set_resolved
                   (dict_update (resolved u) (resolved (subRounds (current st) t))) u)
       st).
Proof.
  intros [H1 H2 H3 H4 H5 H6]. constructor; try assumption.
  - intros l. pose proof (H2 l) as H2l. pose proof (H1 t) as H1t.
    destruct s, l; simpl; try exact H2l; now apply keys_within_update.
  - intros l. specialize (H5 l). destruct s, l; exact H5.
Qed.

(** The promotion branch only ever touches another lane, and only when the
    lane being processed promotes. *)
Lemma LaneInv_other (t : Lane) (S : string -> Prop) (st0 st st' : Store)
    (el : string) (o : Lane) :
  o <> t ->
  LaneInv t S st0 st ->
  appendNewDeps_other t el st o = Ok st' ->
  LaneInv t S st0 st'.
Proof.
  intros Hne Hinv. unfold appendNewDeps_other.
  destruct (Stage.truthy (isAlreadyBeingProcessed (subRounds (current st) o) el)) eqn:Ht;
    [|intros H; inversion H; now subst].
  destruct (moveToThis (subRounds (current st) t)) eqn:Hmv;
    [|intros H; inversion H; now subst].
  destruct Hinv as [H1 H2 H3 H4 H5 H6].
  assert (Hfrozen : moveToThis (subRounds (current st0) t) = false -> False).
  { intros Hf. rewrite <- H4 in Hf. congruence. }
  destruct (isAlreadyBeingProcessed (subRounds (current st) o) el);
    simpl; try discriminate; intros H; inversion H; subst st'; clear H.
  - constructor; try assumption.
    + intros l. specialize (H1 l). destruct o, l; exact H1.
    + rewrite <- H3. destruct o, t; try reflexivity; contradiction.
    + intros l. specialize (H4 l). destruct o, l; exact H4.
    + intros Hf. contradiction.
  - constructor; try assumption.
    + intros l. specialize (H1 l). destruct o, l; simpl; try exact H1;
        now apply keys_within_del.
    + rewrite <- H3. destruct o, t; try reflexivity; contradiction.
    + intros l. specialize (H4 l). destruct o, l; exact H4.
    + intros Hf. contradiction.
Qed.

Lemma LaneInv_appendNewDeps (E : Collaborators) (t : Lane) (S : string -> Prop)
    (prefs : ResolutionPrefs) (srcList : list Requirement.t) (others : list Lane)
    (s : Lane) (st0 st st' : Store) :
  ~ In t others ->
  LaneInv t S st0 st ->
  appendNewDeps E t prefs srcList others s st = Ok st' ->
  LaneInv t S st0 st'.
Proof.
  intros Hnot Hinv. unfold appendNewDeps.
  apply (foldM_inv (LaneInv t S st0)); [|exact Hinv].
  clear st st' Hinv. intros st el st' _ Hinv. unfold appendNewDeps_el.
  destruct (dict_mem _ _); [intros H; inversion H; now subst|].
  destruct (negb _); [intros H; inversion H; now subst|].
  destruct (foldM (appendNewDeps_other t (Requirement.name el)) others st)
    as [st1|e] eqn:Hf; simpl; [|discriminate].
  assert (Hinv1 : LaneInv t S st0 st1).
  { revert Hf. apply (foldM_inv (LaneInv t S st0)); [|exact Hinv].
    intros a o a' Hin Ha Ho. eapply LaneInv_other; eauto.
    intros ->. contradiction. }
  destruct (Stage.truthy _); intros H; inversion H; subst; [exact Hinv1|].
  now apply LaneInv_queue.
Qed.

Lemma LaneInv_inner (E : Collaborators) (prefs : ResolutionPrefs) (t : Lane)
    (others : list Lane) (S : string -> Prop) (st0 : Store)
    (name : string) (installDir : value) (md : Metadata.t)
    (fr fr' : Frame) (item : Lane * Lane * ResolutionPrefs) :
  ~ In t others ->
  S name ->
  LaneInv t S st0 (store fr) ->
  resolveDeps_inner E prefs t others name installDir md fr item = Ok fr' ->
  LaneInv t S st0 (store fr').
Proof.
  intros Hnot Hn Hinv. unfold resolveDeps_inner. destruct item as [[d s] prefs'].
  destruct (appendNewDeps E t prefs' _ others s (store fr)) as [st|e] eqn:Ha;
    simpl; [|discriminate].
  intros H. inversion H; subst fr'; clear H. simpl.
  apply LaneInv_resolve; [exact Hn|].
  eapply LaneInv_appendNewDeps; eauto.
Qed.

Lemma LaneInv_name (E : Collaborators) (prefs : ResolutionPrefs) (t : Lane)
    (others : list Lane) (S : string -> Prop) (st0 : Store)
    (fr fr' : Frame) (item : string * value) :
  ~ In t others ->
  S (fst item) ->
  LaneInv t S st0 (store fr) ->
  resolveDeps_name E prefs t others fr item = Ok fr' ->
  LaneInv t S st0 (store fr').
Proof.
  intros Hnot Hn Hinv. unfold resolveDeps_name. destruct item as [name installDir].
  simpl in Hn.
  match goal with |- bind ?body _ = _ -> _ => destruct body as [fr1|e] eqn:Hbody end;
    simpl; [|discriminate].
  assert (Hinv1 : LaneInv t S st0 (store fr1)).
  { destruct (negb (dict_mem name _)); [|inversion Hbody; now subst].
    destruct (extractMetadata_value E installDir) as [md|e]; cbn [bind] in Hbody;
      [|discriminate].
    revert Hbody.
    apply (foldM_inv (fun f => LaneInv t S st0 (store f))); [|exact Hinv].
    intros a b a' _ Ha Hb. eapply LaneInv_inner; eauto. }
  destruct (successorSubRound fr1) as [s|]; [|discriminate].
  intros H. inversion H; subst fr'; clear H. simpl.
  now apply LaneInv_propagate.
Qed.

Lemma LaneInv_lane (E : Collaborators) (prefs : ResolutionPrefs) (t : Lane)
    (others : list Lane) (S : string -> Prop) (fr fr' : Frame) :
  ~ In t others ->
  keys_within (fetched (subRounds (current (store fr)) t)) S ->
  (forall l, keys_within (resolved (subRounds (current (store fr)) l)) S) ->
  (forall l, keys_within (resolved (subRounds (successor (store fr)) l)) S) ->
  resolveDeps_lane E prefs fr (t, others) = Ok fr' ->
  LaneInv t S (store fr) (store fr').
Proof.
  intros Hnot Hf Hc Hs. unfold resolveDeps_lane.
  apply (foldM_inv (fun f => LaneInv t S (store fr) (store f))).
  - intros a item a' Hin Ha Hitem. eapply LaneInv_name; eauto.
    apply Hf. unfold keys. now apply in_map.
  - now apply LaneInv_refl.
Qed.

Lemma resolveDeps_lanes (E : Collaborators) (prefs : ResolutionPrefs) (st0 : Store) :
  _resolveDeps E prefs st0
  = bind (bind (resolveDeps_lane E prefs {| store := st0; successorSubRound := None |}
                  (ResolutionRoundSubRound.build, [ResolutionRoundSubRound.pkgs]))
               (fun fr1 =>
                  bind (resolveDeps_lane E prefs fr1
                          (ResolutionRoundSubRound.pkgs, [ResolutionRoundSubRound.build]))
                       (fun fr2 => Ok fr2)))
         (fun fr => Ok (store fr)).
Proof. reflexivity. Qed.

(** After [_resolveDeps], in a round whose package lane does not promote,
    every resolved name of the round and of its successor was resolved
    before or is a key of one of the round's [fetched] collections. *)
Lemma resolveDeps_resolved (E : Collaborators) (prefs : ResolutionPrefs)
    (D : string -> Prop) (st0 st : Store) :
  moveToThis (pkgs (current st0)) = false ->
  (forall l, keys_within (resolved (subRounds (current st0) l)) D) ->
  (forall l, keys_within (resolved (subRounds (successor st0) l)) D) ->
  _resolveDeps E prefs st0 = Ok st ->
  let S := fun k => D k \/ In k (keys (fetched (build (current st))))
                    \/ In k (keys (fetched (pkgs (current st)))) in
  (forall l, keys_within (resolved (subRounds (current st) l)) S) /\
  (forall l, keys_within (resolved (subRounds (successor st) l)) S) /\
  (forall l, moveToThis (subRounds (successor st) l)
             = moveToThis (subRounds (successor st0) l)).
Proof.
  intros Hmv Hc Hs. rewrite resolveDeps_lanes.
  destruct (resolveDeps_lane E prefs {| store := st0; successorSubRound := None |}
              (ResolutionRoundSubRound.build, [ResolutionRoundSubRound.pkgs]))
    as [fr1|e] eqn:H1; cbn [bind]; [|discriminate].
  destruct (resolveDeps_lane E prefs fr1
              (ResolutionRoundSubRound.pkgs, [ResolutionRoundSubRound.build]))
    as [fr2|e] eqn:H2; cbn [bind]; [|discriminate].
  intros H. inversion H; subst st; clear H.
  set (S1 := fun k => D k \/ In k (keys (fetched (build (current st0))))).
  assert (I1 : LaneInv ResolutionRoundSubRound.build S1 st0 (store fr1)).
  { apply (LaneInv_lane E prefs ResolutionRoundSubRound.build
             [ResolutionRoundSubRound.pkgs] S1
             {| store := st0; successorSubRound := None |} fr1); simpl.
    - intros [H|[]]; discriminate.
    - intros k Hk. now right.
    - intros l. eapply keys_within_weaken; [|apply Hc]. intros k Hk; now left.
    - intros l. eapply keys_within_weaken; [|apply Hs]. intros k Hk; now left.
    - exact H1. }
  set (S2 := fun k => S1 k \/ In k (keys (fetched (pkgs (current (store fr1)))))).
  assert (I2 : LaneInv ResolutionRoundSubRound.pkgs S2 (store fr1) (store fr2)).
  { apply (LaneInv_lane E prefs ResolutionRoundSubRound.pkgs
             [ResolutionRoundSubRound.build] S2 fr1 fr2); simpl.
    - intros [H|[]]; discriminate.
    - intros k Hk. now right.
    - intros l. eapply keys_within_weaken; [|apply (li_cur _ _ _ _ I1)].
      intros k Hk; now left.
    - intros l. eapply keys_within_weaken; [|apply (li_succ _ _ _ _ I1)].
      intros k Hk; now left.
    - exact H2. }
  assert (Hpk : moveToThis (subRounds (current (store fr1)) ResolutionRoundSubRound.pkgs)
                = false).
  { rewrite (li_mv_cur _ _ _ _ I1). exact Hmv. }
  pose proof (li_frozen _ _ _ _ I2 Hpk ResolutionRoundSubRound.build) as Fb.
  pose proof (li_own _ _ _ _ I1) as Fb1.
  pose proof (li_own _ _ _ _ I2) as Fp.
  simpl in Fb, Fb1, Fp.
  assert (HS : forall k, S2 k ->
                 D k \/ In k (keys (fetched (build (current (store fr2)))))
                 \/ In k (keys (fetched (pkgs (current (store fr2)))))).
  { intros k [[Hk|Hk]|Hk].
    - now left.
    - right; left. now rewrite Fb, Fb1.
    - right; right. now rewrite Fp. }
  split; [|split].
  - intros l. eapply keys_within_weaken; [exact HS|]. apply (li_cur _ _ _ _ I2).
  - intros l. eapply keys_within_weaken; [exact HS|]. apply (li_succ _ _ _ _ I2).
  - intros l. rewrite (li_mv_succ _ _ _ _ I2). apply (li_mv_succ _ _ _ _ I1).
Qed.

Lemma fetch_keeps (E : Collaborators) (self self' : ResolutionSubRound)
    (sourcesDir : Path) (w : World) :
  snd (fetch E self sourcesDir w) = Ok self' ->
  resolved self' = resolved self /\ moveToThis self' = moveToThis self.
Proof.
  intros H. apply fetch_ok_inv in H. destruct H as [_ ->]. split; reflexivity.
Qed.

(** One call of a round re-establishes the invariant for the round it
    returns, and leaves the resolved names of both rounds in [installDirs]. *)
Lemma ResolutionRound_call_inv (E : Collaborators) (rr : ResolutionRound)
    (prefs : ResolutionPrefs) (installDirs : dict value) (sourcesDir : Path)
    (w w' : World) (c : RoundCall) :
  RoundInv rr installDirs ->
  ResolutionRound_call E rr prefs installDirs sourcesDir w = (w', Ok c) ->
  (forall l, keys_within (resolved (subRounds (after c) l)) (fun k => In k (keys (dirs c)))) /\
  RoundInv (nextRound c) (dirs c).
Proof.
  intros [Hmv Hres]. unfold ResolutionRound_call.
  destruct (fetch E (build rr) sourcesDir w) as [w1 [b|e]] eqn:Hb; [|discriminate].
  assert (Kb := fetch_keeps E (build rr) b sourcesDir w). rewrite Hb in Kb.
  destruct (Kb eq_refl) as [Kb1 Kb2]. clear Kb.
  cbn [set_subRound pkgs build].
  destruct (fetch E (pkgs rr) sourcesDir w1) as [w2 [p|e]] eqn:Hp; [|discriminate].
  assert (Kp := fetch_keeps E (pkgs rr) p sourcesDir w1). rewrite Hp in Kp.
  destruct (Kp eq_refl) as [Kp1 Kp2]. clear Kp.
  match goal with |- context [_resolveDeps E prefs ?s] =>
    set (st0 := s); destruct (_resolveDeps E prefs st0) as [st|e] eqn:Hr end;
    [|discriminate].
  intros H. inversion H; subst w' c; clear H. cbn [after nextRound dirs].
  destruct (resolveDeps_resolved E prefs (fun k => In k (keys installDirs)) st0 st)
    as (Hc & Hs & Hm).
  - simpl. congruence.
  - intros l. specialize (Hres l). destruct l; simpl in *;
      [rewrite Kb1 | rewrite Kp1]; exact Hres.
  - intros l k Hk. destruct l; contradiction.
  - exact Hr.
  - assert (HS : forall k,
               In k (keys installDirs)
               \/ In k (keys (fetched (build (current st))))
               \/ In k (keys (fetched (pkgs (current st)))) ->
               In k (keys (dict_update (dict_update installDirs
                                          (fetched (build (current st))))
                                       (fetched (pkgs (current st)))))).
    { intros k Hk. rewrite !keys_dict_update. tauto. }
    split; [|split].
    + intros l. eapply keys_within_weaken; [exact HS | apply Hc].
    + specialize (Hm ResolutionRoundSubRound.pkgs). exact Hm.
    + intros l. eapply keys_within_weaken; [exact HS | apply Hs].
Qed.

Lemma firstRound_inv (E : Collaborators) (names : list string) :
  RoundInv (PackagesInstaller.firstRound E names) [].
Proof.
  split; [reflexivity|]. intros l k Hk. destruct l; contradiction.
Qed.

Lemma converge_inv (E : Collaborators) (fuel : nat) (prefs : ResolutionPrefs)
    (sourcesDir : Path) :
  forall rr installDirs w,
    RoundInv rr installDirs ->
    let run := converge E fuel prefs rr installDirs sourcesDir w in
    (forall c, In c (calls_of run) ->
       (forall l, keys_within (resolved (subRounds (after c) l))
                              (fun k => In k (keys (dirs c)))) /\
       RoundInv (nextRound c) (dirs c)) /\
    (forall rr' installDirs',
       outcome_of run = Returned (rr', installDirs') -> RoundInv rr' installDirs').
Proof.
  unfold calls_of, outcome_of.
  induction fuel as [|fuel IH]; intros rr installDirs w Hinv; simpl.
  - destruct (ResolutionRound_bool rr); simpl.
    + split; [contradiction | discriminate].
    + split; [contradiction|]. intros rr' iD' H. inversion H; now subst.
  - destruct (ResolutionRound_bool rr); simpl.
    2:{ split; [contradiction|]. intros rr' iD' H. inversion H; now subst. }
    destruct (ResolutionRound_call E rr (clone prefs (Some false) None None)
                installDirs sourcesDir w) as [w1 [c|e]] eqn:Hcall; simpl.
    2:{ split; [contradiction | discriminate]. }
    pose proof (ResolutionRound_call_inv E rr _ installDirs sourcesDir w w1 c Hinv Hcall)
      as [Hc Hnext].
    specialize (IH (nextRound c) (dirs c) w1 Hnext).
    destruct (converge E fuel prefs (nextRound c) (dirs c) sourcesDir w1)
      as [[calls w2] r]. simpl in *.
    destruct IH as [IH1 IH2]. split; [|exact IH2].
    intros c' [<-|Hin]; [split; assumption | now apply IH1].
Qed.

Lemma buildAndInstallWheel_each_ok (names : list string) (installDirs : dict value) :
  (forall t, In t names -> In t (keys installDirs)) ->
  forall w, exists w', buildAndInstallWheel_each names installDirs w = (w', Ok tt).
Proof.
  induction names as [|t rest IH]; intros Hall w; simpl.
  - now exists w.
  - destruct (dict_get t installDirs) as [d|] eqn:G.
    + apply IH. intros t' Ht'. apply Hall. now right.
    + apply dict_get_None in G. exfalso. apply G, Hall. now left.
Qed.

Lemma ResolutionRound_buildAndInstallWheel_ok (rr : ResolutionRound)
    (installDirs : dict value) (w : World) :
  RoundInv rr installDirs ->
  exists w', ResolutionRound_buildAndInstallWheel rr installDirs w = (w', Ok tt).
Proof.
  intros [_ Hres].
  unfold ResolutionRound_buildAndInstallWheel, ResolutionSubRound_buildAndInstallWheel.
  assert (Hb : exists w1,
             (if dict_bool (resolved (build rr))
              then buildAndInstallWheel_each (keys (resolved (build rr))) installDirs w
              else (w, Ok tt)) = (w1, Ok tt)).
  { destruct (dict_bool (resolved (build rr))); [|now exists w].
    apply buildAndInstallWheel_each_ok. apply (Hres ResolutionRoundSubRound.build). }
  destruct Hb as [w1 ->].
  destruct (dict_bool (resolved (pkgs rr))); [|now exists w1].
  apply buildAndInstallWheel_each_ok. apply (Hres ResolutionRoundSubRound.pkgs).
Qed.

(** C10. In every run of the installer's loop, after each round call every
    name in a lane's [resolved], of the round called or of the round it
    returned, is a key of [installDirs]; and when the loop ends, the build and
    install phase finds a directory for every resolved name. *)
Theorem resolved_names_have_install_dirs (E : Collaborators) (fuel : nat)
    (prefs : ResolutionPrefs) (names : list string) (sourcesDir : Path) (w : World) :
  let run := converge E fuel prefs (PackagesInstaller.firstRound E names)
               (PackagesInstaller.installDirs PackagesInstaller._reset) sourcesDir w in
  (forall c l name,
     In c (calls_of run) ->
     In name (keys (resolved (subRounds (after c) l)))
     \/ In name (keys (resolved (subRounds (nextRound c) l))) ->
     In name (keys (dirs c))) /\
  (forall rr installDirs,
     outcome_of run = Returned (rr, installDirs) ->
     exists w', ResolutionRound_buildAndInstallWheel rr installDirs (world_of run)
                = (w', Ok tt)).
Proof.
  intros run.
  destruct (converge_inv E fuel prefs sourcesDir (PackagesInstaller.firstRound E names)
              [] w (firstRound_inv E names)) as [H1 H2].
  fold run in H1, H2. split.
  - intros c l name Hc [Hn|Hn].
    + now apply (proj1 (H1 c Hc) l).
    + now apply (proj2 (proj2 (H1 c Hc)) l).
  - intros rr installDirs Hr. apply ResolutionRound_buildAndInstallWheel_ok. now apply H2.
Qed.

Lemma resolved_names_have_install_dirs_witness :
  let run := converge abc 8 defaultPrefs (PackagesInstaller.firstRound abc ["A"]) []
               ["install_k3xq"] emptyWorld in
  (exists c, nth_error (calls_of run) 1 = Some c /\
             keys (resolved (build (after c))) = ["B"] /\
             In "B" (keys (dirs c))) /\
  (exists rr installDirs w',
     outcome_of run = Returned (rr, installDirs) /\
     ResolutionRound_buildAndInstallWheel rr installDirs (world_of run) = (w', Ok tt)).
Proof.
  intros run.
  destruct (resolved_names_have_install_dirs abc 8 defaultPrefs ["A"] ["install_k3xq"]
              emptyWorld) as [H1 H2].
  fold run in H1, H2. split.
  - destruct (nth_error (calls_of run) 1) as [c|] eqn:Hn; [|vm_compute in Hn; discriminate].
    exists c. split; [reflexivity|].
    assert (Hk : keys (resolved (build (after c))) = ["B"]).
    { vm_compute in Hn. inversion Hn. reflexivity. }
    split; [exact Hk|].
    apply (H1 c ResolutionRoundSubRound.build "B"); [eapply nth_error_In; eauto|].
    left. simpl. rewrite Hk. now left.
  - destruct (outcome_of run) as [[rr installDirs]|e|] eqn:Ho;
      [|vm_compute in Ho; discriminate|vm_compute in Ho; discriminate].
    destruct (H2 rr installDirs Ho) as [w' Hw].
    exists rr, installDirs, w'. split; [reflexivity | exact Hw].
Defined.

(** * Further properties of the code *)

(** ** Stage checks *)

Lemma isAlreadyBeingProcessed_eq (self : ResolutionSubRound) (el : string) :
  isAlreadyBeingProcessed self el
  = if dict_mem el (fetched self) then Stage.fetched
    else if dict_mem el (resolved self) then Stage.depsResolved
    else Stage.notResolved.
Proof.
  unfold isAlreadyBeingProcessed, dict_mem. simpl.
  destruct (dict_get el (fetched self)) as [[|p]|]; simpl; try reflexivity.
  destruct (dict_get el (resolved self)) as [[|p]|]; reflexivity.
Qed.

Lemma stageToCollection_of_stage (o : Lane) (self : ResolutionSubRound) (el : string) :
  Stage.truthy (isAlreadyBeingProcessed self el) = true ->
  exists c, stageToCollection o (isAlreadyBeingProcessed self el) = Ok c.
Proof.
  rewrite isAlreadyBeingProcessed_eq.
  destruct (dict_mem el (fetched self)); [intros _; eexists; reflexivity|].
  destruct (dict_mem el (resolved self)); [intros _; eexists; reflexivity|].
  discriminate.
Qed.

Lemma foldM_total {A B : Type} (f : A -> B -> result A) (l : list B) :
  (forall a b, exists a', f a b = Ok a') ->
  forall a, exists a', foldM f l a = Ok a'.
Proof.
  intros Hf. induction l as [|b l IH]; intros a; simpl.
  - now exists a.
  - destruct (Hf a b) as [a1 ->]. simpl. apply IH.
Qed.

Lemma appendNewDeps_other_total (t : Lane) (el : string) (st : Store) (o : Lane) :
  exists st', appendNewDeps_other t el st o = Ok st'.
Proof.
  unfold appendNewDeps_other.
  destruct (Stage.truthy (isAlreadyBeingProcessed (subRounds (current st) o) el)) eqn:Ht;
    [|now exists st].
  destruct (moveToThis (subRounds (current st) t)); [|now exists st].
  destruct (stageToCollection_of_stage o _ _ Ht) as [c ->]. simpl.
  eexists. reflexivity.
Qed.

Lemma appendNewDeps_total (E : Collaborators) (this : Lane)
    (prefs : ResolutionPrefs) (srcList : list Requirement.t) (otherSubRounds : list Lane)
    (successor_ : Lane) (st : Store) :
  exists st', appendNewDeps E this prefs srcList otherSubRounds successor_ st = Ok st'.
Proof.
  unfold appendNewDeps. apply foldM_total. clear st. intros st el.
  unfold appendNewDeps_el.
  destruct (dict_mem _ _); [now exists st|].
  destruct (negb _); [now exists st|].
  destruct (foldM_total (appendNewDeps_other this (Requirement.name el)) otherSubRounds
              (appendNewDeps_other_total this (Requirement.name el)) st) as [st1 ->].
  simpl. destruct (Stage.truthy _); eexists; reflexivity.
Qed.

(** ** What [appendNewDeps] changes *)

Lemma set_toFetch_same (s : ResolutionSubRound) : set_toFetch (toFetch s) s = s.
Proof. now destruct s. Qed.

Lemma dict_del_set_In (d : dict value) (el k : string) (v : value) :
  In (k, v) (dict_del el (dict_set el One d)) -> In (k, v) d.
Proof.
  unfold dict_del. intros H. apply filter_In in H. destruct H as [H Hb]. simpl in Hb.
  destruct (dict_set_In_inv _ _ _ _ _ H) as [Heq|Hin]; [|exact Hin].
  inversion Heq; subst. now rewrite String.eqb_refl in Hb.
Qed.

(** One pass over another lane leaves the successor round alone, leaves the
    other lanes' [toFetch], [ignored] and constructor fields alone, and can
    only remove entries from [fetched] and [resolved]. *)
Lemma appendNewDeps_other_shrinks (t : Lane) (el : string) (st st' : Store) (o : Lane) :
  appendNewDeps_other t el st o = Ok st' ->
  successor st' = successor st /\
  (moveToThis (subRounds (current st) t) = false -> st' = st) /\
  (forall l, l <> o -> subRounds (current st') l = subRounds (current st) l) /\
  (forall l,
     toFetch (subRounds (current st') l) = toFetch (subRounds (current st) l) /\
     ignored (subRounds (current st') l) = ignored (subRounds (current st) l) /\
     same_static (subRounds (current st) l) (subRounds (current st') l) /\
     (forall k v, In (k, v) (fetched (subRounds (current st') l)) ->
                  In (k, v) (fetched (subRounds (current st) l))) /\
     (forall k v, In (k, v) (resolved (subRounds (current st') l)) ->
                  In (k, v) (resolved (subRounds (current st) l)))).
Proof.
  unfold appendNewDeps_other, same_static.
  destruct (Stage.truthy _);
    [|intros H; inversion H; subst; repeat split; auto].
  destruct (moveToThis (subRounds (current st) t));
    [|intros H; inversion H; subst; repeat split; auto].
  destruct (isAlreadyBeingProcessed (subRounds (current st) o) el);
    simpl; try discriminate; intros H; inversion H; subst st'; clear H;
    (split; [reflexivity|]); (split; [discriminate|]); split.
  - intros l Hl. destruct o, l; try reflexivity; contradiction.
  - intros l. destruct o, l; simpl; repeat split; auto; apply dict_del_set_In.
  - intros l Hl. destruct o, l; try reflexivity; contradiction.
  - intros l. destruct o, l; simpl; repeat split; auto; apply dict_del_set_In.
Qed.

Lemma same_static_refl (s : ResolutionSubRound) : same_static s s.
Proof. unfold same_static. tauto. Qed.

Lemma same_static_trans (s1 s2 s3 : ResolutionSubRound) :
  same_static s1 s2 -> same_static s2 s3 -> same_static s1 s3.
Proof. unfold same_static. intuition congruence. Qed.

Lemma appendNewDeps_others_shrinks (t : Lane) (el : string) (others : list Lane) :
  forall st st',
    foldM (appendNewDeps_other t el) others st = Ok st' ->
    successor st' = successor st /\
    (moveToThis (subRounds (current st) t) = false -> st' = st) /\
    (forall l, ~ In l others -> subRounds (current st') l = subRounds (current st) l) /\
    (forall l,
       toFetch (subRounds (current st') l) = toFetch (subRounds (current st) l) /\
       ignored (subRounds (current st') l) = ignored (subRounds (current st) l) /\
       same_static (subRounds (current st) l) (subRounds (current st') l) /\
       (forall k v, In (k, v) (fetched (subRounds (current st') l)) ->
                    In (k, v) (fetched (subRounds (current st) l))) /\
       (forall k v, In (k, v) (resolved (subRounds (current st') l)) ->
                    In (k, v) (resolved (subRounds (current st) l)))).
Proof.
  induction others as [|o others IH]; intros st st' H; simpl in H.
  - inversion H; subst. repeat split; auto using same_static_refl.
  - destruct (appendNewDeps_other t el st o) as [st1|e] eqn:Ho; simpl in H; [|discriminate].
    apply appendNewDeps_other_shrinks in Ho. destruct Ho as (A1 & A2 & A3 & A4).
    destruct (IH st1 st' H) as (B1 & B2 & B3 & B4).
    split; [congruence|]. split; [|split].
    + intros Hmv. specialize (A2 Hmv). subst st1. auto.
    + intros l Hl. rewrite B3, A3; auto; intros Hx; apply Hl; [now left | now right].
    + intros l. destruct (A4 l) as (a1 & a2 & a3 & a4 & a5).
      destruct (B4 l) as (b1 & b2 & b3 & b4 & b5).
      repeat split; try congruence; eauto using same_static_trans.
      * destruct a3 as (?&?&?&?&?), b3 as (?&?&?&?&?); congruence.
      * destruct a3 as (?&?&?&?&?), b3 as (?&?&?&?&?); congruence.
      * destruct a3 as (?&?&?&?&?), b3 as (?&?&?&?&?); congruence.
      * destruct a3 as (?&?&?&?&?), b3 as (?&?&?&?&?); congruence.
      * destruct a3 as (?&?&?&?&?), b3 as (?&?&?&?&?); congruence.
Qed.

Lemma current_shrinks_refl (st : Store) : current_shrinks st st.
Proof. intros l. repeat split; auto. Qed.

Lemma current_shrinks_trans (st1 st2 st3 : Store) :
  current_shrinks st1 st2 -> current_shrinks st2 st3 -> current_shrinks st1 st3.
Proof.
  intros H12 H23 l. destruct (H12 l) as (a1 & a2 & a3 & a4 & a5).
  destruct (H23 l) as (b1 & b2 & b3 & b4 & b5).
  split; [congruence|]. split; [congruence|].
  split; [eapply same_static_trans; eauto|]. split; eauto.
Qed.

Lemma subRounds_set_same (s : Lane) (x : ResolutionSubRound) (r : ResolutionRound) :
  subRounds (set_subRound s x r) s = x.
Proof. now destruct s. Qed.

Lemma subRounds_set_other (s l : Lane) (x : ResolutionSubRound) (r : ResolutionRound) :
  l <> s -> subRounds (set_subRound s x r) l = subRounds r l.
Proof. destruct s, l; intros H; try reflexivity; contradiction. Qed.

Lemma set_subRound_twice (s : Lane) (x y : ResolutionSubRound) (r : ResolutionRound) :
  set_subRound s x (set_subRound s y r) = set_subRound s x r.
Proof. now destruct s. Qed.

Lemma set_subRound_same (s : Lane) (r : ResolutionRound) :
  set_subRound s (subRounds r s) r = r.
Proof. now destruct s, r. Qed.

(** What one requirement does to the store. *)
Lemma appendNewDeps_el_effect (E : Collaborators) (t : Lane) (prefs : ResolutionPrefs)
    (others : list Lane) (s : Lane) (st st' : Store) (el : Requirement.t) :
  appendNewDeps_el E t prefs others s st el = Ok st' ->
  current_shrinks st st' /\
  (moveToThis (subRounds (current st) t) = false -> current st' = current st) /\
  (forall l, ~ In l others -> subRounds (current st') l = subRounds (current st) l) /\
  (~ In t others ->
   successor st'
   = if eligible E prefs (subRounds (current st) t) el
     then set_subRound s
            (set_toFetch (dict_set (Requirement.name el) One
                            (toFetch (subRounds (successor st) s)))
                         (subRounds (successor st) s))
            (successor st)
     else successor st).
Proof.
  unfold appendNewDeps_el, eligible.
  destruct (dict_mem (Requirement.name el) (ignored (subRounds (current st) t))); simpl.
  { intros H; inversion H; subst. auto using current_shrinks_refl. }
  destruct (isReInstallationNeeded E el prefs); simpl.
  2:{ intros H; inversion H; subst. auto using current_shrinks_refl. }
  destruct (foldM (appendNewDeps_other t (Requirement.name el)) others st)
    as [st1|e] eqn:Hf; simpl; [|discriminate].
  apply appendNewDeps_others_shrinks in Hf. destruct Hf as (A1 & A2 & A3 & A4).
  destruct (Stage.truthy (isAlreadyBeingProcessed (subRounds (current st1) t)
                            (Requirement.name el))) eqn:Hs;
    intros H; inversion H; subst st'; clear H; simpl.
  - split; [exact A4|]. split; [intros Hmv; now rewrite (A2 Hmv)|].
    split; [exact A3|]. intros Hn. rewrite (A3 t Hn) in Hs. now rewrite Hs.
  - split; [exact A4|]. split; [intros Hmv; now rewrite (A2 Hmv)|].
    split; [exact A3|]. intros Hn. rewrite (A3 t Hn) in Hs. rewrite Hs. simpl.
    now rewrite A1.
Qed.

Lemma appendNewDeps_effect (E : Collaborators) (t : Lane) (prefs : ResolutionPrefs)
    (others : list Lane) (s : Lane) (srcList : list Requirement.t) :
  ~ In t others ->
  forall st st',
    appendNewDeps E t prefs srcList others s st = Ok st' ->
    subRounds (current st') t = subRounds (current st) t /\
    current_shrinks st st' /\
    (moveToThis (subRounds (current st) t) = false -> current st' = current st) /\
    successor st'
    = set_subRound s
        (set_toFetch (queued E prefs (subRounds (current st) t) srcList
                        (toFetch (subRounds (successor st) s)))
                     (subRounds (successor st) s))
        (successor st).
Proof.
  intros Hn. unfold appendNewDeps.
  induction srcList as [|el rest IH]; intros st st' H; simpl in H.
  - inversion H; subst. simpl.
    rewrite set_toFetch_same, set_subRound_same. auto using current_shrinks_refl.
  - destruct (appendNewDeps_el E t prefs others s st el) as [st1|e] eqn:Hel;
      simpl in H; [|discriminate].
    apply appendNewDeps_el_effect in Hel. destruct Hel as (A1 & A2 & A3 & A4).
    specialize (A4 Hn). pose proof (A3 t Hn) as At.
    destruct (IH st1 st' H) as (B1 & B2 & B3 & B4).
    split; [congruence|]. split; [eapply current_shrinks_trans; eauto|]. split.
    + intros Hmv. rewrite B3, A2; auto. now rewrite At.
    + rewrite B4, At, A4. simpl.
      destruct (eligible E prefs (subRounds (current st) t) el); [|reflexivity].
      rewrite subRounds_set_same, set_subRound_twice. reflexivity.
Qed.

Lemma keys_queued (E : Collaborators) (prefs : ResolutionPrefs)
    (thisSubRound : ResolutionSubRound) (srcList : list Requirement.t) (k : string) :
  forall d,
    In k (keys (queued E prefs thisSubRound srcList d)) <->
    In k (keys d) \/
    exists el, In el srcList /\ Requirement.name el = k /\
               eligible E prefs thisSubRound el = true.
Proof.
  unfold queued. induction srcList as [|el rest IH]; intros d; simpl.
  - split; [tauto | intros [H|[el [[] _]]]; exact H].
  - rewrite IH. destruct (eligible E prefs thisSubRound el) eqn:He.
    + rewrite keys_dict_set. split.
      * intros [[->|H]|[el' [H1 H2]]]; [right; exists el; tauto | tauto |].
        right. exists el'. tauto.
      * intros [H|[el' [[<-|H1] [H2 H3]]]]; [tauto | left; left; now symmetry |].
        right. exists el'. tauto.
    + split.
      * intros [H|[el' [H1 H2]]]; [tauto|]. right. exists el'. tauto.
      * intros [H|[el' [[<-|H1] [H2 H3]]]]; [tauto | congruence |].
        right. exists el'. tauto.
Qed.

(** [appendNewDeps] on a lane that is not among the other lanes leaves that
    lane as it is and writes to the successor round only in the [toFetch] of
    the successor lane, where it adds exactly the names of the requirements
    that are not ignored, need (re)installation and are not yet fetched or
    resolved in the lane itself; what the other lanes hold plays no part. *)
Theorem appendNewDeps_queues_exactly (E : Collaborators) (this : Lane)
    (prefs : ResolutionPrefs) (srcList : list Requirement.t) (otherSubRounds : list Lane)
    (successor_ : Lane) (st st' : Store) :
  ~ In this otherSubRounds ->
  appendNewDeps E this prefs srcList otherSubRounds successor_ st = Ok st' ->
  subRounds (current st') this = subRounds (current st) this /\
  (forall l, l <> successor_ ->
             subRounds (successor st') l = subRounds (successor st) l) /\
  fetched (subRounds (successor st') successor_)
  = fetched (subRounds (successor st) successor_) /\
  resolved (subRounds (successor st') successor_)
  = resolved (subRounds (successor st) successor_) /\
  ignored (subRounds (successor st') successor_)
  = ignored (subRounds (successor st) successor_) /\
  (forall k,
     In k (keys (toFetch (subRounds (successor st') successor_))) <->
     In k (keys (toFetch (subRounds (successor st) successor_))) \/
     exists el, In el srcList /\ Requirement.name el = k /\
                eligible E prefs (subRounds (current st) this) el = true).
Proof.
  intros Hn H. destruct (appendNewDeps_effect E this prefs otherSubRounds successor_
                           srcList Hn st st' H) as (A1 & _ & _ & A4).
  split; [exact A1|]. rewrite A4. split.
  - intros l Hl. now apply subRounds_set_other.
  - rewrite subRounds_set_same. simpl. repeat split; try reflexivity; apply keys_queued.
Qed.

Lemma appendNewDeps_queues_exactly_witness :
  exists st',
    appendNewDeps promo ResolutionRoundSubRound.build defaultPrefs [req "X"]
      [ResolutionRoundSubRound.pkgs] ResolutionRoundSubRound.build promoStore = Ok st' /\
    In "X" (keys (toFetch (build (successor st')))).
Proof.
  destruct (appendNewDeps_total promo ResolutionRoundSubRound.build defaultPrefs
              [req "X"] [ResolutionRoundSubRound.pkgs] ResolutionRoundSubRound.build
              promoStore) as [st' H].
  exists st'. split; [exact H|].
  assert (Hn : ~ In ResolutionRoundSubRound.build [ResolutionRoundSubRound.pkgs]).
  { intros [Hx|[]]; discriminate. }
  destruct (appendNewDeps_queues_exactly promo ResolutionRoundSubRound.build defaultPrefs
              [req "X"] [ResolutionRoundSubRound.pkgs] ResolutionRoundSubRound.build
              promoStore st' Hn H) as (_ & _ & _ & _ & _ & Hk).
  apply (Hk "X"). right. exists (req "X"). repeat split. now left.
Defined.

(** [isAlreadyBeingProcessed] answers [fetched] for a name held in
    [fetched], else [depsResolved] for a name held in [resolved], else
    [notResolved]: a name held in both counts as fetched, [toFetch] and
    [ignored] play no part, and [built] and [installed] are never answered. *)
Theorem isAlreadyBeingProcessed_cases (self : ResolutionSubRound) (el : string) :
  (dict_mem el (fetched self) = true ->
   isAlreadyBeingProcessed self el = Stage.fetched) /\
  (dict_mem el (fetched self) = false -> dict_mem el (resolved self) = true ->
   isAlreadyBeingProcessed self el = Stage.depsResolved) /\
  (dict_mem el (fetched self) = false -> dict_mem el (resolved self) = false ->
   isAlreadyBeingProcessed self el = Stage.notResolved) /\
  isAlreadyBeingProcessed self el <> Stage.built /\
  isAlreadyBeingProcessed self el <> Stage.installed /\
  (forall d i, isAlreadyBeingProcessed (set_ignored i (set_toFetch d self)) el
               = isAlreadyBeingProcessed self el).
Proof.
  rewrite isAlreadyBeingProcessed_eq.
  split; [now intros ->|]. split; [now intros -> ->|]. split; [now intros -> ->|].
  split; [|split].
  - destruct (dict_mem el (fetched self)), (dict_mem el (resolved self)); discriminate.
  - destruct (dict_mem el (fetched self)), (dict_mem el (resolved self)); discriminate.
  - intros d i. now rewrite isAlreadyBeingProcessed_eq.
Qed.

Lemma isAlreadyBeingProcessed_cases_witness :
  isAlreadyBeingProcessed (pkgs (current promoStore)) "X" = Stage.fetched /\
  isAlreadyBeingProcessed (pkgs (current promoStore)) "A" = Stage.depsResolved.
Proof.
  split.
  - apply (proj1 (isAlreadyBeingProcessed_cases (pkgs (current promoStore)) "X")).
    reflexivity.
  - apply (proj1 (proj2 (isAlreadyBeingProcessed_cases (pkgs (current promoStore)) "A")));
      reflexivity.
Defined.

(** [appendNewDeps] never raises: the stage it hands to [stageToCollection]
    is always one of the two the table knows. *)
Theorem appendNewDeps_never_raises (E : Collaborators) (this : Lane)
    (prefs : ResolutionPrefs) (srcList : list Requirement.t) (otherSubRounds : list Lane)
    (successor_ : Lane) (st : Store) :
  exists st', appendNewDeps E this prefs srcList otherSubRounds successor_ st = Ok st'.
Proof. apply appendNewDeps_total. Qed.

Lemma isReInstallationNeeded_marker (E : Collaborators) (el : Requirement.t)
    (prefs : ResolutionPrefs) :
  Requirement.marker el <> None -> isReInstallationNeeded E el prefs = false.
Proof.
  unfold isReInstallationNeeded. destruct (Requirement.marker el); [reflexivity|congruence].
Qed.

Lemma isReInstallationNeeded_satisfied (E : Collaborators) (el : Requirement.t)
    (prefs : ResolutionPrefs) (version : Version) :
  getInstalledPackageVersion E (Requirement.name el) = Some version ->
  upgrade prefs = false -> forceReinstall prefs = false ->
  satisfies E (Requirement.specifier el) version = true ->
  isReInstallationNeeded E el prefs = false.
Proof.
  unfold isReInstallationNeeded. intros -> -> -> ->. now destruct (Requirement.marker el).
Qed.

(** Requirements that carry a marker, that the lane ignores, or that an
    installed version satisfies (with neither [upgrade] nor [forceReinstall])
    leave the whole store as it is: nothing is queued and no other lane is
    touched. *)
Theorem appendNewDeps_skips (E : Collaborators) (this : Lane)
    (prefs : ResolutionPrefs) (srcList : list Requirement.t) (otherSubRounds : list Lane)
    (successor_ : Lane) (st : Store) :
  (forall el, In el srcList ->
     Requirement.marker el <> None
     \/ dict_mem (Requirement.name el) (ignored (subRounds (current st) this)) = true
     \/ exists version,
          getInstalledPackageVersion E (Requirement.name el) = Some version /\
          upgrade prefs = false /\ forceReinstall prefs = false /\
          satisfies E (Requirement.specifier el) version = true) ->
  appendNewDeps E this prefs srcList otherSubRounds successor_ st = Ok st.
Proof.
  unfold appendNewDeps. induction srcList as [|el rest IH]; intros Hall; simpl.
  - reflexivity.
  - assert (Hel : appendNewDeps_el E this prefs otherSubRounds successor_ st el = Ok st).
    { unfold appendNewDeps_el.
      destruct (dict_mem (Requirement.name el) (ignored (subRounds (current st) this)))
        eqn:Hi; [reflexivity|].
      destruct (Hall el (or_introl eq_refl)) as [Hm|[Hig|[v (Hv & Hu & Hf & Hs)]]].
      - now rewrite isReInstallationNeeded_marker.
      - congruence.
      - now rewrite (isReInstallationNeeded_satisfied E el prefs v). }
    rewrite Hel. simpl. apply IH. intros el' Hin. apply Hall. now right.
Qed.

Lemma appendNewDeps_skips_witness :
  appendNewDeps promo ResolutionRoundSubRound.build defaultPrefs
    [Requirement.mk "X" [] (Some "os_name == 'nt'")]
    [ResolutionRoundSubRound.pkgs] ResolutionRoundSubRound.build promoStore
  = Ok promoStore.
Proof.
  apply appendNewDeps_skips. intros el [<-|[]]. left. discriminate.
Defined.

(** Whatever [appendNewDeps] is given, the current round only loses entries
    of [fetched] and [resolved]: [toFetch], [ignored] and the constructor
    fields of every lane stay, and no entry is added or changed.  On a lane
    that does not promote ([moveToThis] false) the current round does not
    change at all. *)
Theorem appendNewDeps_current_round (E : Collaborators) (this : Lane)
    (prefs : ResolutionPrefs) (srcList : list Requirement.t) (otherSubRounds : list Lane)
    (successor_ : Lane) (st st' : Store) :
  appendNewDeps E this prefs srcList otherSubRounds successor_ st = Ok st' ->
  current_shrinks st st' /\
  (moveToThis (subRounds (current st) this) = false -> current st' = current st).
Proof.
  unfold appendNewDeps. revert st.
  induction srcList as [|el rest IH]; intros st H; simpl in H.
  - inversion H; subst. auto using current_shrinks_refl.
  - destruct (appendNewDeps_el E this prefs otherSubRounds successor_ st el)
      as [st1|e] eqn:Hel; simpl in H; [|discriminate].
    apply appendNewDeps_el_effect in Hel. destruct Hel as (A1 & A2 & _ & _).
    destruct (IH st1 H) as (B1 & B2).
    split; [eapply current_shrinks_trans; eauto|].
    intros Hmv. rewrite B2, A2; auto.
    destruct (A1 this) as (_ & _ & (_ & _ & _ & Hm & _) & _). congruence.
Qed.

Lemma appendNewDeps_current_round_witness :
  exists st',
    appendNewDeps promo ResolutionRoundSubRound.pkgs defaultPrefs [req "B"]
      [ResolutionRoundSubRound.build] ResolutionRoundSubRound.build promoStore = Ok st' /\
    current st' = current promoStore.
Proof.
  destruct (appendNewDeps_total promo ResolutionRoundSubRound.pkgs defaultPrefs [req "B"]
              [ResolutionRoundSubRound.build] ResolutionRoundSubRound.build promoStore)
    as [st' H].
  exists st'. split; [exact H|].
  apply (proj2 (appendNewDeps_current_round _ _ _ _ _ _ _ _ H)). reflexivity.
Defined.

(** ** What [clonePackagesRepos] and [fetch] do *)

Lemma clone_loop_world (E : Collaborators) (targetDir : Path) (names : list string) :
  forall w res ign,
    let w' := fst (fst (clonePackagesRepos_loop E targetDir names w res ign)) in
    clones w' = (clones w ++ map (cloneCallOf E targetDir) (filter (matched E) names))%list /\
    builds w' = builds w /\ scratch w' = scratch w.
Proof.
  induction names as [|name rest IH]; intros w res ign; simpl.
  - now rewrite app_nil_r.
  - unfold matched at 1, unmatched, fetcherSpecOf.
    destruct (matchingFetcher E (Package.fetcher (registry_lookup E name))) eqn:Hm; simpl.
    + match goal with |- context [clonePackagesRepos_loop E targetDir rest ?w1 ?r1 ign] =>
        destruct (IH w1 r1 ign) as (H1 & H2 & H3) end.
      rewrite H1, H2, H3. simpl. rewrite <- app_assoc. simpl.
      unfold cloneCallOf, fetcherSpecOf. rewrite Hm. auto.
    + apply IH.
Qed.

Lemma matched_unmatched_length (E : Collaborators) (names : list string) :
  length (filter (matched E) names) + length (filter (unmatched E) names) = length names.
Proof.
  induction names as [|n rest IH]; simpl; [reflexivity|].
  unfold matched at 1. destruct (unmatched E n); simpl; lia.
Qed.

(** [clonePackagesRepos] splits the names it is given: a name with a matching
    fetcher gets one fetcher call and an entry of the result holding its
    source directory; the registry record of any other name goes to the
    ignored list; calls and records keep the order of the names, every name
    is counted once, and nothing else in the world changes. *)
Theorem clonePackagesRepos_partition (E : Collaborators) (targetDir : Path)
    (packagesToClone : list string) (w w' : World) (res : dict value)
    (ignored' : list Package.t) :
  clonePackagesRepos E targetDir packagesToClone w = (w', res, ignored') ->
  ignored' = map (registry_lookup E) (filter (unmatched E) packagesToClone) /\
  clones w' = (clones w ++ map (cloneCallOf E targetDir)
                             (filter (matched E) packagesToClone))%list /\
  builds w' = builds w /\ scratch w' = scratch w /\
  (forall k, In k (keys res) <-> In k packagesToClone /\ matched E k = true) /\
  (forall k v, dict_get k res = Some v ->
               v = Dir (cloneTarget targetDir k (fetcherSpecOf E k))) /\
  length (clones w') + length ignored' = length (clones w) + length packagesToClone.
Proof.
  unfold clonePackagesRepos. intros H.
  pose proof (clone_loop_ignored E targetDir packagesToClone w [] []) as Hi.
  pose proof (clone_loop_world E targetDir packagesToClone w [] []) as (Hc & Hb & Hs).
  rewrite H in Hi, Hc, Hb, Hs. simpl in Hi, Hc, Hb, Hs.
  split; [exact Hi|]. split; [exact Hc|]. split; [exact Hb|]. split; [exact Hs|].
  split; [|split].
  - intros k. pose proof (clone_loop_keys E targetDir packagesToClone k w [] []) as Hk.
    rewrite H in Hk. simpl in Hk. rewrite Hk. unfold matched.
    destruct (unmatched E k); simpl; intuition congruence.
  - intros k v G. apply dict_get_In in G.
    apply (clone_loop_values E targetDir packagesToClone w [] [] k v).
    + intros k1 v1 [].
    + now rewrite H.
  - rewrite Hc, Hi, length_app, !length_map.
    pose proof (matched_unmatched_length E packagesToClone). lia.
Qed.

Lemma clonePackagesRepos_partition_witness :
  exists w' res ignored',
    clonePackagesRepos mixed ["install_k3xq"] ["libc"; "x"] emptyWorld = (w', res, ignored') /\
    length (clones w') + length ignored' = 2.
Proof.
  destruct (clonePackagesRepos mixed ["install_k3xq"] ["libc"; "x"] emptyWorld)
    as [[w' res] ign] eqn:H.
  exists w', res, ign. split; [reflexivity|].
  exact (proj2 (proj2 (proj2 (proj2 (proj2 (proj2
           (clonePackagesRepos_partition mixed ["install_k3xq"] ["libc"; "x"] emptyWorld
              w' res ign H))))))).
Defined.

Lemma fetch_world (E : Collaborators) (self : ResolutionSubRound) (sourcesDir : Path)
    (w : World) :
  let w' := fst (fetch E self sourcesDir w) in
  clones w' = (clones w ++ map (cloneCallOf E sourcesDir)
                             (filter (matched E) (keys (toFetch self))))%list /\
  builds w' = builds w /\ scratch w' = scratch w.
Proof.
  rewrite fetch_eq. cbv zeta. cbn [fst].
  apply (clone_loop_world E sourcesDir (keys (toFetch self)) w [] []).
Qed.

(** The fetcher calls of [fetch] are made before it checks for names it
    cannot fetch: whether it returns or raises, every name of [toFetch] with
    a matching fetcher has been fetched, in order, and the rest of the world
    is untouched. *)
Theorem fetch_effects_precede_check (E : Collaborators) (self : ResolutionSubRound)
    (sourcesDir : Path) (w : World) :
  let w' := fst (fetch E self sourcesDir w) in
  clones w' = (clones w ++ map (cloneCallOf E sourcesDir)
                             (filter (matched E) (keys (toFetch self))))%list /\
  builds w' = builds w /\ scratch w' = scratch w.
Proof. apply fetch_world. Qed.

Lemma keys_ignored_after_fetch (E : Collaborators) (names : list string) (k : string) :
  In k (map Package.name (map (registry_lookup E) (filter (unmatched E) names))) <->
  exists n, In n names /\ unmatched E n = true /\ Package.name (registry_lookup E n) = k.
Proof.
  rewrite map_map, in_map_iff. split.
  - intros [n [Hn Hin]]. apply filter_In in Hin. exists n. tauto.
  - intros [n (Hin & Hu & Hn)]. exists n. split; [exact Hn|]. apply filter_In. tauto.
Qed.

(** When [fetch] returns, [fetched] has gained exactly the names of [toFetch]
    with a matching fetcher and kept its other entries, [ignored] has gained
    exactly the names carried by the registry records of the other names, and
    [resolved] and the constructor fields are as before. *)
Theorem fetch_collections (E : Collaborators) (self self' : ResolutionSubRound)
    (sourcesDir : Path) (w : World) :
  snd (fetch E self sourcesDir w) = Ok self' ->
  (forall k, In k (keys (fetched self')) <->
             In k (keys (fetched self))
             \/ (In k (keys (toFetch self)) /\ matched E k = true)) /\
  (forall k, ~ (In k (keys (toFetch self)) /\ matched E k = true) ->
             dict_get k (fetched self') = dict_get k (fetched self)) /\
  (forall k, In k (keys (ignored self')) <->
             In k (keys (ignored self))
             \/ exists n, In n (keys (toFetch self)) /\ unmatched E n = true /\
                          Package.name (registry_lookup E n) = k) /\
  resolved self' = resolved self /\
  same_static self self'.
Proof.
  intros H. apply fetch_ok_inv in H. destruct H as [_ ->].
  assert (Hm : forall k, In k (keys (toFetch self)) /\ matched E k = true <->
                         In k (keys (toFetch self)) /\ unmatched E k = false).
  { intros k. unfold matched. destruct (unmatched E k); simpl; intuition congruence. }
  cbn [fetched ignored resolved set_ignored set_toFetch set_fetched].
  split; [|split; [|split; [|split]]].
  - intros k. rewrite keys_dict_update, clone_loop_keys, Hm. simpl. tauto.
  - intros k Hk. apply dict_get_update_absent. rewrite clone_loop_keys, <- Hm. simpl. tauto.
  - intros k. rewrite keys_dict_update, keys_ignoredNames_of, clone_loop_ignored.
    simpl. now rewrite keys_ignored_after_fetch.
  - reflexivity.
  - unfold same_static. simpl. tauto.
Qed.

Lemma fetch_collections_witness :
  match snd (fetch mixed sampleLane ["install_k3xq"] emptyWorld) with
  | Ok self' => In "x" (keys (fetched self')) /\ In "libc" (keys (ignored self'))
  | Raise _ => False
  end.
Proof.
  destruct (snd (fetch mixed sampleLane ["install_k3xq"] emptyWorld)) as [self'|e] eqn:Hf;
    [|vm_compute in Hf; discriminate].
  destruct (fetch_collections mixed sampleLane self' ["install_k3xq"] emptyWorld Hf)
    as (H1 & _ & H3 & _).
  split.
  - apply H1. right. split; [simpl; tauto | reflexivity].
  - apply H3. right. exists "libc". repeat split. simpl; tauto.
Defined.

(** ** What [_resolveDeps] keeps *)

Lemma ResolveInv_refl (nodeps : Prop) (st : Store) : ResolveInv nodeps st st.
Proof. constructor; auto using same_static_refl. Qed.

Lemma queued_nil (E : Collaborators) (prefs : ResolutionPrefs)
    (x : ResolutionSubRound) (d : dict value) : queued E prefs x [] d = d.
Proof. reflexivity. Qed.

Lemma ResolveInv_append (E : Collaborators) (nodeps : Prop) (t : Lane)
    (prefs : ResolutionPrefs) (srcList : list Requirement.t) (others : list Lane)
    (s : Lane) (st0 st st' : Store) :
  ~ In t others ->
  (nodeps -> s = ResolutionRoundSubRound.pkgs -> srcList = []) ->
  ResolveInv nodeps st0 st ->
  appendNewDeps E t prefs srcList others s st = Ok st' ->
  ResolveInv nodeps st0 st'.
Proof.
  intros Hn Hnil [H1 H2 H3 H4 H5 H6 H7 H8 H9] H.
  destruct (appendNewDeps_effect E t prefs others s srcList Hn st st' H)
    as (_ & Hsh & _ & Hsucc).
  constructor.
  - intros l. destruct (Hsh l) as (a & _). now rewrite a.
  - intros l. destruct (Hsh l) as (_ & a & _). now rewrite a.
  - intros l. destruct (Hsh l) as (_ & _ & a & _). eapply same_static_trans; eauto.
  - intros l k v Hin. destruct (Hsh l) as (_ & _ & _ & a & _). auto.
  - intros l. rewrite Hsucc, <- H5. destruct s, l; reflexivity.
  - intros l. rewrite Hsucc, <- H6. destruct s, l; reflexivity.
  - intros l. eapply same_static_trans; [apply H7|].
    rewrite Hsucc. destruct s, l; simpl; unfold same_static; tauto.
  - rewrite Hsucc, <- H8. destruct s; reflexivity.
  - intros Hnd. rewrite Hsucc, <- (H9 Hnd). destruct s; [reflexivity|].
    rewrite (Hnil Hnd eq_refl). reflexivity.
Qed.

Lemma ResolveInv_resolve (nodeps : Prop) (t : Lane) (st0 st : Store)
    (name : string) (installDir : value) :
  ResolveInv nodeps st0 st ->
  ResolveInv nodeps st0
    (update_current t (fun s => set_resolved (dict_set name installDir (resolved s)) s) st).
Proof.
  intros [H1 H2 H3 H4 H5 H6 H7 H8 H9]. constructor; try assumption.
  - intros l. rewrite <- H1. destruct t, l; reflexivity.
  - intros l. rewrite <- H2. destruct t, l; reflexivity.
  - intros l. eapply same_static_trans; [apply H3|].
    destruct t, l; simpl; unfold same_static; tauto.
  - intros l k v Hin. apply H4. destruct t, l; exact Hin.
Qed.

Lemma ResolveInv_propagate (nodeps : Prop) (st0 st : Store) (d : dict value) :
  ResolveInv nodeps st0 st ->
  ResolveInv nodeps st0
    (update_successor ResolutionRoundSubRound.pkgs
       (fun u => set_resolved (dict_update (resolved u) d) u) st).
Proof.
  intros [H1 H2 H3 H4 H5 H6 H7 H8 H9]. constructor; try assumption.
  - intros l. rewrite <- H5. destruct l; reflexivity.
  - intros l. rewrite <- H6. destruct l; reflexivity.
  - intros l. eapply same_static_trans; [apply H7|].
    destruct l; simpl; unfold same_static; tauto.
Qed.

(** The innermost loop runs over the build lane and then the package lane,
    whatever the store holds. *)
Lemma resolveDeps_name_eq (E : Collaborators) (prefs : ResolutionPrefs) (t : Lane)
    (others : list Lane) (fr : Frame) (name : string) (installDir : value) :
  resolveDeps_name E prefs t others fr (name, installDir)
  = bind (if negb (dict_mem name (ignored (subRounds (current (store fr)) t)))
          then bind (extractMetadata_value E installDir)
                 (fun md =>
                    bind (resolveDeps_inner E prefs t others name installDir md fr
                            (ResolutionRoundSubRound.build, ResolutionRoundSubRound.build,
                             clone_patch prefs (prefsPatch (build (current (store fr))))))
                      (fun fr1 =>
                         bind (resolveDeps_inner E prefs t others name installDir md fr1
                                 (ResolutionRoundSubRound.pkgs, ResolutionRoundSubRound.pkgs,
                                  clone_patch prefs
                                    (prefsPatch (pkgs (current (store fr))))))
                           (fun fr2 => Ok fr2)))
          else Ok fr)
      (fun fr =>
         match successorSubRound fr with
         | None => Raise UnboundLocalError
         | Some s =>
             Ok {| store := update_successor s
                              (fun u => set_resolved
                                          (dict_update (resolved u)
                                             (resolved (subRounds (current (store fr)) t))) u)
                              (store fr);
                   successorSubRound := successorSubRound fr |}
         end).
Proof. reflexivity. Qed.

Lemma ResolveInv_inner (E : Collaborators) (prefs : ResolutionPrefs) (t : Lane)
    (others : list Lane) (st0 : Store) (name : string) (installDir : value)
    (md : Metadata.t) (fr fr' : Frame) (s : Lane) (p : ResolutionPrefs) :
  ~ In t others ->
  ResolveInv (nodeps_of prefs st0) st0 (store fr) ->
  resolveDeps_inner E prefs t others name installDir md fr (s, s, p) = Ok fr' ->
  ResolveInv (nodeps_of prefs st0) st0 (store fr') /\ successorSubRound fr' = Some s.
Proof.
  intros Hn Hinv. unfold resolveDeps_inner.
  destruct (appendNewDeps E t p _ others s (store fr)) as [st|e] eqn:Ha;
    simpl; [|discriminate].
  intros H. inversion H; subst fr'; clear H. simpl. split; [|reflexivity].
  apply ResolveInv_resolve.
  refine (ResolveInv_append E _ t p _ others s st0 (store fr) st Hn _ Hinv Ha).
  intros [Hr Hg] ->.
  destruct (ri_static _ _ _ Hinv ResolutionRoundSubRound.pkgs) as (_ & _ & Hd & _).
  cbn [subRounds] in Hd |- *. rewrite Hd, Hg. simpl. now rewrite Hr.
Qed.

Lemma ResolveInv_name (E : Collaborators) (prefs : ResolutionPrefs) (t : Lane)
    (others : list Lane) (st0 : Store) (fr fr' : Frame) (item : string * value) :
  ~ In t others ->
  ResolveInv (nodeps_of prefs st0) st0 (store fr) /\ leftover (successorSubRound fr) ->
  resolveDeps_name E prefs t others fr item = Ok fr' ->
  ResolveInv (nodeps_of prefs st0) st0 (store fr') /\ leftover (successorSubRound fr').
Proof.
  intros Hn [Hinv Hl]. destruct item as [name installDir]. rewrite resolveDeps_name_eq.
  match goal with |- bind ?body _ = _ -> _ => destruct body as [fr1|e] eqn:Hbody end;
    cbn [bind]; [|discriminate].
  assert (H1 : ResolveInv (nodeps_of prefs st0) st0 (store fr1)
               /\ leftover (successorSubRound fr1)).
  { destruct (negb (dict_mem name _)); [|inversion Hbody; now subst].
    destruct (extractMetadata_value E installDir) as [md|e]; cbn [bind] in Hbody;
      [|discriminate].
    destruct (resolveDeps_inner E prefs t others name installDir md fr _)
      as [fa|e] eqn:Ha; cbn [bind] in Hbody; [|discriminate].
    destruct (resolveDeps_inner E prefs t others name installDir md fa _)
      as [fb|e] eqn:Hb; cbn [bind] in Hbody; [|discriminate].
    inversion Hbody; subst fr1.
    destruct (ResolveInv_inner E prefs t others st0 name installDir md fr fa _ _
                Hn Hinv Ha) as [Ia _].
    destruct (ResolveInv_inner E prefs t others st0 name installDir md fa fb _ _
                Hn Ia Hb) as [Ib Hs].
    split; [exact Ib | right; exact Hs]. }
  destruct H1 as [I1 L1].
  destruct (successorSubRound fr1) as [s|] eqn:Hs; [|discriminate].
  intros H. inversion H; subst fr'; clear H. cbn [store successorSubRound].
  destruct L1 as [L1|L1]; [discriminate|]. inversion L1; subst s.
  split; [now apply ResolveInv_propagate | now right].
Qed.

Lemma ResolveInv_lane (E : Collaborators) (prefs : ResolutionPrefs) (t : Lane)
    (others : list Lane) (st0 : Store) (fr fr' : Frame) :
  ~ In t others ->
  ResolveInv (nodeps_of prefs st0) st0 (store fr) /\ leftover (successorSubRound fr) ->
  resolveDeps_lane E prefs fr (t, others) = Ok fr' ->
  ResolveInv (nodeps_of prefs st0) st0 (store fr') /\ leftover (successorSubRound fr').
Proof.
  intros Hn Hinv. unfold resolveDeps_lane.
  apply (foldM_inv (fun f => ResolveInv (nodeps_of prefs st0) st0 (store f)
                             /\ leftover (successorSubRound f))); [|exact Hinv].
  intros a item a' _ Ha Hitem. eapply ResolveInv_name; eauto.
Qed.

Lemma build_not_in_pkgs :
  ~ In ResolutionRoundSubRound.build [ResolutionRoundSubRound.pkgs].
Proof. intros [H|[]]; discriminate. Qed.

Lemma pkgs_not_in_build :
  ~ In ResolutionRoundSubRound.pkgs [ResolutionRoundSubRound.build].
Proof. intros [H|[]]; discriminate. Qed.

Lemma resolveDeps_keeps (E : Collaborators) (prefs : ResolutionPrefs) (st0 st : Store) :
  _resolveDeps E prefs st0 = Ok st ->
  ResolveInv (nodeps_of prefs st0) st0 st.
Proof.
  rewrite resolveDeps_lanes.
  destruct (resolveDeps_lane E prefs {| store := st0; successorSubRound := None |}
              (ResolutionRoundSubRound.build, [ResolutionRoundSubRound.pkgs]))
    as [fr1|e] eqn:H1; cbn [bind]; [|discriminate].
  destruct (resolveDeps_lane E prefs fr1
              (ResolutionRoundSubRound.pkgs, [ResolutionRoundSubRound.build]))
    as [fr2|e] eqn:H2; cbn [bind]; [|discriminate].
  intros H. inversion H; subst st; clear H.
  assert (I0 : ResolveInv (nodeps_of prefs st0) st0
                 (store {| store := st0; successorSubRound := None |})
               /\ leftover (successorSubRound {| store := st0; successorSubRound := None |})).
  { split; [apply ResolveInv_refl | now left]. }
  pose proof (ResolveInv_lane E prefs _ _ st0 _ fr1 build_not_in_pkgs I0 H1) as I1.
  exact (proj1 (ResolveInv_lane E prefs _ _ st0 fr1 fr2 pkgs_not_in_build I1 H2)).
Qed.

(** ** When [_resolveDeps] cannot raise *)

Lemma foldM_total_inv {A B : Type} (P : A -> Prop) (f : A -> B -> result A) (l : list B) :
  (forall a b, In b l -> P a -> exists a', f a b = Ok a' /\ P a') ->
  forall a, P a -> exists a', foldM f l a = Ok a' /\ P a'.
Proof.
  induction l as [|b l IH]; intros Hstep a Ha; simpl.
  - now exists a.
  - destruct (Hstep a b (or_introl eq_refl) Ha) as [a1 [-> H1]]. simpl.
    apply IH; [|exact H1]. intros a0 b0 Hin. apply Hstep. now right.
Qed.

Lemma resolveDeps_inner_total (E : Collaborators) (prefs : ResolutionPrefs) (t : Lane)
    (others : list Lane) (name : string) (installDir : value) (md : Metadata.t)
    (fr : Frame) (item : Lane * Lane * ResolutionPrefs) :
  exists fr', resolveDeps_inner E prefs t others name installDir md fr item = Ok fr'.
Proof.
  unfold resolveDeps_inner. destruct item as [[d s] p].
  match goal with |- context [appendNewDeps E t p ?src others s (store fr)] =>
    destruct (appendNewDeps_total E t p src others s (store fr)) as [st ->] end.
  simpl. eexists. reflexivity.
Qed.

Lemma resolveDeps_name_total (E : Collaborators) (prefs : ResolutionPrefs) (t : Lane)
    (others : list Lane) (st0 : Store) (fr : Frame) (item : string * value) :
  ~ In t others ->
  fetched_ready st0 ->
  In item (fetched (subRounds (current st0) t)) ->
  ResolveInv (nodeps_of prefs st0) st0 (store fr) ->
  exists fr', resolveDeps_name E prefs t others fr item = Ok fr'.
Proof.
  intros Hn Hready Hin Hinv. destruct item as [name installDir].
  destruct (Hready t name installDir Hin) as [[p ->] Hig].
  rewrite resolveDeps_name_eq, (ri_ignored _ _ _ Hinv t), Hig. cbn [negb bind extractMetadata_value].
  match goal with |- context [resolveDeps_inner E prefs t others name ?v ?md fr ?it] =>
    destruct (resolveDeps_inner E prefs t others name v md fr it) as [fa|e] eqn:Ha;
      [|destruct (resolveDeps_inner_total E prefs t others name v md fr it) as [x Hx];
        congruence] end.
  cbn [bind].
  match goal with |- context [resolveDeps_inner E prefs t others name ?v ?md fa ?it] =>
    destruct (resolveDeps_inner E prefs t others name v md fa it) as [fb|e] eqn:Hb;
      [|destruct (resolveDeps_inner_total E prefs t others name v md fa it) as [x Hx];
        congruence] end.
  cbn [bind].
  destruct (ResolveInv_inner E prefs t others st0 _ _ _ fr fa _ _ Hn Hinv Ha) as [Ia _].
  destruct (ResolveInv_inner E prefs t others st0 _ _ _ fa fb _ _ Hn Ia Hb) as [_ ->].
  eexists. reflexivity.
Qed.

Lemma resolveDeps_lane_total (E : Collaborators) (prefs : ResolutionPrefs) (t : Lane)
    (others : list Lane) (st0 : Store) (fr : Frame) :
  ~ In t others ->
  fetched_ready st0 ->
  ResolveInv (nodeps_of prefs st0) st0 (store fr) /\ leftover (successorSubRound fr) ->
  exists fr',
    resolveDeps_lane E prefs fr (t, others) = Ok fr' /\
    ResolveInv (nodeps_of prefs st0) st0 (store fr') /\ leftover (successorSubRound fr').
Proof.
  intros Hn Hready Hinv. unfold resolveDeps_lane.
  apply (foldM_total_inv
           (fun f => ResolveInv (nodeps_of prefs st0) st0 (store f)
                     /\ leftover (successorSubRound f))); [|exact Hinv].
  intros a item Hin Ha.
  destruct item as [name installDir].
  assert (Hin0 : In (name, installDir) (fetched (subRounds (current st0) t))).
  { apply (ri_fetched _ _ _ (proj1 Hinv)). exact Hin. }
  destruct (resolveDeps_name_total E prefs t others st0 a (name, installDir)
              Hn Hready Hin0 (proj1 Ha)) as [a' Ha'].
  exists a'. split; [exact Ha'|]. eapply ResolveInv_name; eauto.
Qed.

Lemma resolveDeps_total (E : Collaborators) (prefs : ResolutionPrefs) (st0 : Store) :
  fetched_ready st0 -> exists st, _resolveDeps E prefs st0 = Ok st.
Proof.
  intros Hready. rewrite resolveDeps_lanes.
  assert (I0 : ResolveInv (nodeps_of prefs st0) st0
                 (store {| store := st0; successorSubRound := None |})
               /\ leftover (successorSubRound {| store := st0; successorSubRound := None |})).
  { split; [apply ResolveInv_refl | now left]. }
  destruct (resolveDeps_lane_total E prefs ResolutionRoundSubRound.build
              [ResolutionRoundSubRound.pkgs] st0 _ build_not_in_pkgs Hready I0)
    as [fr1 [H1 I1]].
  destruct (resolveDeps_lane_total E prefs ResolutionRoundSubRound.pkgs
              [ResolutionRoundSubRound.build] st0 fr1 pkgs_not_in_build Hready I1)
    as [fr2 [H2 I2]].
  exists (store fr2). unfold Lane in *. rewrite H1. cbn [bind]. rewrite H2. reflexivity.
Qed.

Lemma dict_update_In_inv {V : Type} (e : dict V) :
  forall (d : dict V) k v, In (k, v) (dict_update d e) -> In (k, v) d \/ In (k, v) e.
Proof.
  unfold dict_update. induction e as [|[k0 v0] e IH]; intros d k v H; simpl in H.
  - now left.
  - destruct (IH _ _ _ H) as [H1|H1]; [|right; now right].
    destruct (dict_set_In_inv _ _ _ _ _ H1) as [Heq|Hd]; [|now left].
    right. left. now symmetry.
Qed.

Lemma fetch_only_error (E : Collaborators) (self : ResolutionSubRound)
    (sourcesDir : Path) (w : World) (e : exn) :
  snd (fetch E self sourcesDir w) = Raise e -> e = NotImplementedError.
Proof.
  rewrite fetch_eq. cbv zeta. cbn [snd].
  destruct (check_ignored _) as [[]|e'] eqn:Hc; simpl; [discriminate|].
  intros H. inversion H; subst e'. eapply check_ignored_only_error; eauto.
Qed.

(** After [fetch] on a lane that had fetched and ignored nothing, with a
    registry that answers by name, no fetched name is ignored and every
    fetched value is a directory. *)
Lemma fetch_ready (E : Collaborators) (self self' : ResolutionSubRound)
    (sourcesDir : Path) (w : World) :
  (forall name, Package.name (registry_lookup E name) = name) ->
  fetched self = [] -> ignored self = [] ->
  snd (fetch E self sourcesDir w) = Ok self' ->
  forall k v, In (k, v) (fetched self') ->
    (exists p, v = Dir p) /\ dict_mem k (ignored self') = false.
Proof.
  intros Hreg Hf Hi Hok k v Hin.
  apply fetch_ok_inv in Hok. destruct Hok as [_ ->].
  cbn [fetched ignored set_ignored set_toFetch set_fetched] in *.
  rewrite Hf in Hin. rewrite Hi.
  apply dict_update_In_inv in Hin. destruct Hin as [[]|Hin].
  split.
  - eexists. eapply clone_loop_values; [|exact Hin]. intros k1 v1 [].
  - apply dict_mem_false. rewrite keys_dict_update, keys_ignoredNames_of,
      clone_loop_ignored. simpl.
    intros [[]|Hk]. apply keys_ignored_after_fetch in Hk.
    destruct Hk as [n (Hn & Hu & Hname)]. rewrite Hreg in Hname. subst n.
    assert (Hk : In k (keys (snd (fst (clonePackagesRepos_loop E sourcesDir
                                         (keys (toFetch self)) w [] []))))).
    { unfold keys. apply in_map_iff. now exists (k, v). }
    apply clone_loop_keys in Hk. destruct Hk as [[]|[_ Hk]]. congruence.
Qed.

(** ** One call of a round *)

Lemma ResolutionRound_call_ok (E : Collaborators) (rr : ResolutionRound)
    (prefs : ResolutionPrefs) (installDirs : dict value) (sourcesDir : Path)
    (w w' : World) (c : RoundCall) :
  ResolutionRound_call E rr prefs installDirs sourcesDir w = (w', Ok c) ->
  exists w1 b p st,
    fetch E (build rr) sourcesDir w = (w1, Ok b) /\
    fetch E (pkgs rr) sourcesDir w1 = (w', Ok p) /\
    _resolveDeps E prefs {| current := {| build := b; pkgs := p |};
                            successor := ResolutionRound_init |} = Ok st /\
    c = {| after := current st; nextRound := successor st;
           dirs := dict_update (dict_update installDirs (fetched (build (current st))))
                               (fetched (pkgs (current st))) |}.
Proof.
  unfold ResolutionRound_call.
  destruct (fetch E (build rr) sourcesDir w) as [w1 [b|e]] eqn:Hb; [|discriminate].
  cbn [set_subRound pkgs build].
  destruct (fetch E (pkgs rr) sourcesDir w1) as [w2 [p|e]] eqn:Hp; [|discriminate].
  destruct (_resolveDeps E prefs _) as [st|e] eqn:Hr; [|discriminate].
  intros H. inversion H; subst. exists w1, b, p, st.
  split; [reflexivity|]. split; [exact Hp|]. split; [exact Hr | reflexivity].
Qed.

Lemma ResolutionRound_call_raise (E : Collaborators) (rr : ResolutionRound)
    (prefs : ResolutionPrefs) (installDirs : dict value) (sourcesDir : Path)
    (w w' : World) (e : exn) :
  ResolutionRound_call E rr prefs installDirs sourcesDir w = (w', Raise e) ->
  snd (fetch E (build rr) sourcesDir w) = Raise e
  \/ (exists w1 b, fetch E (build rr) sourcesDir w = (w1, Ok b) /\
                   snd (fetch E (pkgs rr) sourcesDir w1) = Raise e)
  \/ (exists w1 b p, fetch E (build rr) sourcesDir w = (w1, Ok b) /\
                     fetch E (pkgs rr) sourcesDir w1 = (w', Ok p) /\
                     _resolveDeps E prefs {| current := {| build := b; pkgs := p |};
                                             successor := ResolutionRound_init |}
                     = Raise e).
Proof.
  unfold ResolutionRound_call.
  destruct (fetch E (build rr) sourcesDir w) as [w1 [b|e1]] eqn:Hb;
    [|intros H; inversion H; now left].
  cbn [set_subRound pkgs build].
  destruct (fetch E (pkgs rr) sourcesDir w1) as [w2 [p|e2]] eqn:Hp.
  - destruct (_resolveDeps E prefs _) as [st|e3] eqn:Hr; [discriminate|].
    intros H. inversion H; subst. right. right. exists w1, b, p.
    split; [reflexivity|]. split; [exact Hp | exact Hr].
  - intros H. inversion H; subst. right. left. exists w1, b.
    split; [reflexivity | now rewrite Hp].
Qed.


Lemma ResolutionRound_call_keeps (E : Collaborators) (rr : ResolutionRound)
    (prefs : ResolutionPrefs) (installDirs : dict value) (sourcesDir : Path)
    (w w' : World) (c : RoundCall) :
  ResolutionRound_call E rr prefs installDirs sourcesDir w = (w', Ok c) ->
  (forall l, toFetch (subRounds (after c) l) = []) /\
  (forall l, same_static (subRounds rr l) (subRounds (after c) l)) /\
  fresh (nextRound c) /\
  resolved (build (nextRound c)) = [] /\
  (resolveDeps prefs = false ->
   depsGetter (pkgs rr) = depsGetter (pkgs ResolutionRound_init) ->
   toFetch (pkgs (nextRound c)) = []).
Proof.
  intros H. apply ResolutionRound_call_ok in H.
  destruct H as (w1 & b & p & st & Hb & Hp & Hr & ->).
  assert (Kb : snd (fetch E (build rr) sourcesDir w) = Ok b) by now rewrite Hb.
  assert (Kp : snd (fetch E (pkgs rr) sourcesDir w1) = Ok p) by now rewrite Hp.
  pose proof (fetch_ok_inv _ _ _ _ _ Kb) as [_ Eb].
  pose proof (fetch_ok_inv _ _ _ _ _ Kp) as [_ Ep].
  cbv zeta in Eb, Ep.
  apply resolveDeps_keeps in Hr. cbn [after nextRound dirs].
  split; [|split; [|split; [|split]]].
  - intros l. rewrite (ri_toFetch _ _ _ Hr l). destruct l; simpl; subst; reflexivity.
  - intros l. eapply same_static_trans; [|apply (ri_static _ _ _ Hr l)].
    destruct l; simpl; subst; unfold same_static; simpl; tauto.
  - intros l. split; [|split].
    + rewrite (ri_sfetched _ _ _ Hr l). now destruct l.
    + rewrite (ri_signored _ _ _ Hr l). now destruct l.
    + apply (ri_sstatic _ _ _ Hr l).
  - apply (ri_sbuild _ _ _ Hr).
  - intros Hnd Hg. rewrite (ri_nodeps _ _ _ Hr); [reflexivity|].
    split; [exact Hnd|]. simpl. subst p. exact Hg.
Qed.

Lemma ResolutionRound_call_world (E : Collaborators) (rr : ResolutionRound)
    (prefs : ResolutionPrefs) (installDirs : dict value) (sourcesDir : Path) (w : World) :
  let w' := fst (ResolutionRound_call E rr prefs installDirs sourcesDir w) in
  builds w' = builds w /\ exists cs, clones w' = (clones w ++ cs)%list.
Proof.
  unfold ResolutionRound_call.
  pose proof (fetch_world E (build rr) sourcesDir w) as (C1 & B1 & _).
  destruct (fetch E (build rr) sourcesDir w) as [w1 [b|e]]; cbn [fst] in *.
  2:{ split; [exact B1|]. eexists; exact C1. }
  cbn [set_subRound pkgs build].
  pose proof (fetch_world E (pkgs rr) sourcesDir w1) as (C2 & B2 & _).
  destruct (fetch E (pkgs rr) sourcesDir w1) as [w2 [p|e]]; cbn [fst] in *.
  2:{ split; [congruence|]. rewrite C2, C1, <- app_assoc. eexists; reflexivity. }
  destruct (_resolveDeps E prefs _); cbn [fst];
    (split; [congruence|]); rewrite C2, C1, <- app_assoc; eexists; reflexivity.
Qed.

(** A round call that returns leaves the round it was called on with nothing
    to fetch, and returns a round that holds nothing as fetched or ignored
    (names found to be system-provided are not carried over) and nothing as
    resolved in the build lane; it builds nothing, only adds fetcher calls,
    and [installDirs] keeps all its keys and gains the round's fetched
    names. *)
Theorem ResolutionRound_call_postcondition (E : Collaborators) (rr : ResolutionRound)
    (prefs : ResolutionPrefs) (installDirs : dict value) (sourcesDir : Path)
    (w w' : World) (c : RoundCall) :
  ResolutionRound_call E rr prefs installDirs sourcesDir w = (w', Ok c) ->
  (forall l, toFetch (subRounds (after c) l) = []) /\
  (forall l, fetched (subRounds (nextRound c) l) = [] /\
             ignored (subRounds (nextRound c) l) = []) /\
  resolved (build (nextRound c)) = [] /\
  (forall k, In k (keys (dirs c)) <->
             In k (keys installDirs)
             \/ In k (keys (fetched (build (after c))))
             \/ In k (keys (fetched (pkgs (after c))))) /\
  builds w' = builds w /\
  exists cs, clones w' = (clones w ++ cs)%list.
Proof.
  intros H.
  pose proof (ResolutionRound_call_keeps _ _ _ _ _ _ _ _ H) as (K1 & _ & K3 & K4 & _).
  pose proof (ResolutionRound_call_world E rr prefs installDirs sourcesDir w) as Hw.
  rewrite H in Hw. cbn [fst] in Hw.
  split; [exact K1|]. split; [intros l; destruct (K3 l) as (a & b & _); auto|].
  split; [exact K4|]. split; [|exact Hw].
  apply ResolutionRound_call_ok in H. destruct H as (w1 & b & p & st & _ & _ & _ & ->).
  intros k. cbn [dirs after]. rewrite !keys_dict_update. tauto.
Qed.

Lemma ResolutionRound_call_postcondition_witness :
  exists w' c,
    ResolutionRound_call abc (PackagesInstaller.firstRound abc ["A"]) defaultPrefs []
      ["install_k3xq"] emptyWorld = (w', Ok c) /\
    toFetch (pkgs (after c)) = [] /\ builds w' = [].
Proof.
  destruct (ResolutionRound_call abc (PackagesInstaller.firstRound abc ["A"]) defaultPrefs []
              ["install_k3xq"] emptyWorld) as [w' [c|e]] eqn:H;
    [|vm_compute in H; discriminate].
  exists w', c. split; [reflexivity|].
  destruct (ResolutionRound_call_postcondition _ _ _ _ _ _ _ _ H)
    as (H1 & _ & _ & _ & H5 & _).
  split; [exact (H1 ResolutionRoundSubRound.pkgs) | exact H5].
Defined.

(** ** The convergence loop *)

Lemma converge_world (E : Collaborators) (fuel : nat) (prefs : ResolutionPrefs)
    (sourcesDir : Path) :
  forall rr installDirs w,
    let run := converge E fuel prefs rr installDirs sourcesDir w in
    builds (world_of run) = builds w /\
    exists cs, clones (world_of run) = (clones w ++ cs)%list.
Proof.
  unfold world_of.
  induction fuel as [|fuel IH]; intros rr installDirs w; simpl.
  - destruct (ResolutionRound_bool rr); simpl;
      (split; [reflexivity | exists []; now rewrite app_nil_r]).
  - destruct (ResolutionRound_bool rr); simpl.
    2:{ split; [reflexivity | exists []; now rewrite app_nil_r]. }
    pose proof (ResolutionRound_call_world E rr (clone prefs (Some false) None None)
                  installDirs sourcesDir w) as (B & cs & C).
    destruct (ResolutionRound_call E rr (clone prefs (Some false) None None)
                installDirs sourcesDir w) as [w1 [c|e]]; cbn [fst] in *.
    2:{ simpl. split; [exact B | exists cs; exact C]. }
    destruct (IH (nextRound c) (dirs c) w1) as (B' & cs' & C').
    destruct (converge E fuel prefs (nextRound c) (dirs c) sourcesDir w1)
      as [[calls w2] r]. simpl in *.
    split; [congruence|]. exists (cs ++ cs')%list. rewrite C', C. now rewrite app_assoc.
Qed.

Lemma converge_returned (E : Collaborators) (fuel : nat) (prefs : ResolutionPrefs)
    (sourcesDir : Path) :
  forall rr installDirs w rr' installDirs',
    outcome_of (converge E fuel prefs rr installDirs sourcesDir w)
    = Returned (rr', installDirs') ->
    ResolutionRound_bool rr' = false /\
    (rr' = rr \/ (resolved (build rr') = [] /\ fresh rr')).
Proof.
  unfold outcome_of.
  induction fuel as [|fuel IH]; intros rr installDirs w rr' iD'; simpl.
  - destruct (ResolutionRound_bool rr) eqn:Hb; simpl; [discriminate|].
    intros H. inversion H; subst. auto.
  - destruct (ResolutionRound_bool rr) eqn:Hb; simpl.
    2:{ intros H. inversion H; subst. auto. }
    destruct (ResolutionRound_call E rr (clone prefs (Some false) None None)
                installDirs sourcesDir w) as [w1 [c|e]] eqn:Hc; [|discriminate].
    pose proof (ResolutionRound_call_keeps _ _ _ _ _ _ _ _ Hc) as (_ & _ & K3 & K4 & _).
    specialize (IH (nextRound c) (dirs c) w1 rr' iD').
    destruct (converge E fuel prefs (nextRound c) (dirs c) sourcesDir w1)
      as [[calls w2] r]. simpl in *.
    intros H. destruct (IH H) as [Hf [->|Hr]]; auto.
Qed.

Lemma converge_calls (E : Collaborators) (fuel : nat) (prefs : ResolutionPrefs)
    (sourcesDir : Path) :
  forall rr installDirs w,
    length (calls_of (converge E fuel prefs rr installDirs sourcesDir w)) <= fuel.
Proof.
  unfold calls_of.
  induction fuel as [|fuel IH]; intros rr installDirs w; simpl.
  - destruct (ResolutionRound_bool rr); simpl; lia.
  - destruct (ResolutionRound_bool rr); simpl; [|lia].
    destruct (ResolutionRound_call E rr (clone prefs (Some false) None None)
                installDirs sourcesDir w) as [w1 [c|e]]; simpl; [|lia].
    specialize (IH (nextRound c) (dirs c) w1).
    destruct (converge E fuel prefs (nextRound c) (dirs c) sourcesDir w1)
      as [[calls w2] r]. simpl in *. lia.
Qed.

(** Fuel only bounds the loop: a run that ends within its fuel is the same
    run under any larger fuel. *)
Lemma converge_more_fuel (E : Collaborators) (prefs : ResolutionPrefs)
    (sourcesDir : Path) (fuel : nat) :
  forall fuel' rr installDirs w,
    fuel <= fuel' ->
    outcome_of (converge E fuel prefs rr installDirs sourcesDir w) <> OutOfFuel ->
    converge E fuel' prefs rr installDirs sourcesDir w
    = converge E fuel prefs rr installDirs sourcesDir w.
Proof.
  unfold outcome_of.
  induction fuel as [|fuel IH]; intros fuel' rr installDirs w Hle Hne.
  - simpl in *. destruct (ResolutionRound_bool rr) eqn:Hb; [now elim Hne|].
    destruct fuel'; simpl; now rewrite Hb.
  - destruct fuel' as [|fuel']; [lia|]. simpl in *.
    destruct (ResolutionRound_bool rr); [|reflexivity].
    destruct (ResolutionRound_call E rr (clone prefs (Some false) None None)
                installDirs sourcesDir w) as [w1 [c|e]]; [|reflexivity].
    rewrite (IH fuel' (nextRound c) (dirs c) w1); [reflexivity | lia |].
    destruct (converge E fuel prefs (nextRound c) (dirs c) sourcesDir w1)
      as [[calls w2] r]. exact Hne.
Qed.

(** The loop builds nothing and only adds fetcher calls; it makes at most as
    many round calls as it has fuel; and when it returns, the round it ends
    on has nothing left to fetch in either lane. *)
Theorem converge_exit (E : Collaborators) (fuel : nat) (prefs : ResolutionPrefs)
    (rr : ResolutionRound) (installDirs : dict value) (sourcesDir : Path) (w : World) :
  let run := converge E fuel prefs rr installDirs sourcesDir w in
  builds (world_of run) = builds w /\
  (exists cs, clones (world_of run) = (clones w ++ cs)%list) /\
  length (calls_of run) <= fuel /\
  (forall rr' installDirs',
     outcome_of run = Returned (rr', installDirs') ->
     toFetch (build rr') = [] /\ toFetch (pkgs rr') = []).
Proof.
  intros run. destruct (converge_world E fuel prefs sourcesDir rr installDirs w) as [B C].
  split; [exact B|]. split; [exact C|]. split; [apply converge_calls|].
  intros rr' iD' H. apply converge_returned in H. destruct H as [Hb _].
  unfold ResolutionRound_bool, ResolutionSubRound_bool in Hb.
  apply orb_false_iff in Hb. destruct Hb as [H1 H2].
  destruct (toFetch (build rr')); [|discriminate].
  destruct (toFetch (pkgs rr')); [|discriminate]. auto.
Qed.

Lemma converge_exit_witness :
  let run := converge abc 8 defaultPrefs (PackagesInstaller.firstRound abc ["A"]) []
               ["install_k3xq"] emptyWorld in
  exists rr' installDirs',
    outcome_of run = Returned (rr', installDirs') /\
    toFetch (build rr') = [] /\ toFetch (pkgs rr') = [].
Proof.
  intros run.
  destruct (outcome_of run) as [[rr' iD']|e|] eqn:Ho;
    [|vm_compute in Ho; discriminate|vm_compute in Ho; discriminate].
  exists rr', iD'. split; [reflexivity|].
  exact (proj2 (proj2 (proj2 (converge_exit abc 8 defaultPrefs
                                (PackagesInstaller.firstRound abc ["A"]) []
                                ["install_k3xq"] emptyWorld))) rr' iD' Ho).
Defined.

(** ** Errors of the loop *)

Lemma fresh_after_fetches (E : Collaborators) (rr : ResolutionRound) (sourcesDir : Path)
    (w w1 w2 : World) (b p : ResolutionSubRound) :
  (forall name, Package.name (registry_lookup E name) = name) ->
  fresh rr ->
  fetch E (build rr) sourcesDir w = (w1, Ok b) ->
  fetch E (pkgs rr) sourcesDir w1 = (w2, Ok p) ->
  fetched_ready {| current := {| build := b; pkgs := p |};
                   successor := ResolutionRound_init |}.
Proof.
  intros Hreg Hfresh Hb Hp l k v Hin.
  destruct (Hfresh ResolutionRoundSubRound.build) as (Fb & Ib & _).
  destruct (Hfresh ResolutionRoundSubRound.pkgs) as (Fp & Ip & _).
  destruct l; simpl in *.
  - eapply (fetch_ready E (build rr) b sourcesDir w); eauto. now rewrite Hb.
  - eapply (fetch_ready E (pkgs rr) p sourcesDir w1); eauto. now rewrite Hp.
Qed.

Lemma ResolutionRound_call_only_error (E : Collaborators) (rr : ResolutionRound)
    (prefs : ResolutionPrefs) (installDirs : dict value) (sourcesDir : Path)
    (w w' : World) (e : exn) :
  (forall name, Package.name (registry_lookup E name) = name) ->
  fresh rr ->
  ResolutionRound_call E rr prefs installDirs sourcesDir w = (w', Raise e) ->
  e = NotImplementedError.
Proof.
  intros Hreg Hfresh H. apply ResolutionRound_call_raise in H.
  destruct H as [H|[(w1 & b & Hb & H)|(w1 & b & p & Hb & Hp & H)]].
  - eapply fetch_only_error; eauto.
  - eapply fetch_only_error; eauto.
  - destruct (resolveDeps_total E prefs _
                (fresh_after_fetches E rr sourcesDir w w1 w' b p Hreg Hfresh Hb Hp))
      as [st Hst]. congruence.
Qed.

Lemma converge_only_error (E : Collaborators) (fuel : nat) (prefs : ResolutionPrefs)
    (sourcesDir : Path) :
  (forall name, Package.name (registry_lookup E name) = name) ->
  forall rr installDirs w e,
    fresh rr ->
    outcome_of (converge E fuel prefs rr installDirs sourcesDir w) = Raised e ->
    e = NotImplementedError.
Proof.
  intros Hreg. unfold outcome_of.
  induction fuel as [|fuel IH]; intros rr installDirs w e Hfresh; simpl.
  - destruct (ResolutionRound_bool rr); discriminate.
  - destruct (ResolutionRound_bool rr); [|discriminate].
    destruct (ResolutionRound_call E rr (clone prefs (Some false) None None)
                installDirs sourcesDir w) as [w1 [c|e1]] eqn:Hc.
    + pose proof (ResolutionRound_call_keeps _ _ _ _ _ _ _ _ Hc) as (_ & _ & K3 & _).
      specialize (IH (nextRound c) (dirs c) w1 e K3).
      destruct (converge E fuel prefs (nextRound c) (dirs c) sourcesDir w1)
        as [[calls w2] r]. simpl in *. exact IH.
    + simpl. intros H. inversion H; subst e1.
      eapply ResolutionRound_call_only_error; eauto.
Qed.

Lemma firstRound_fresh (E : Collaborators) (names : list string) :
  fresh (PackagesInstaller.firstRound E names).
Proof. intros l. destruct l; repeat split. Qed.

(** ** The build and install phase *)

Lemma buildAndInstallWheel_each_spec (names : list string) (installDirs : dict value) :
  forall w,
    let r := buildAndInstallWheel_each names installDirs w in
    clones (fst r) = clones w /\ scratch (fst r) = scratch w /\
    (snd r = Ok tt \/ snd r = Raise KeyError) /\
    (snd r = Ok tt <-> forall t, In t names -> In t (keys installDirs)) /\
    (snd r = Ok tt ->
     exists ds, builds (fst r) = (builds w ++ ds)%list /\
                Forall2 (fun t d => dict_get t installDirs = Some d) names ds).
Proof.
  induction names as [|t rest IH]; intros w; simpl.
  - split; [reflexivity|]. split; [reflexivity|]. split; [now left|]. split.
    + split; [intros _ t [] | reflexivity].
    + intros _. exists []. split; [now rewrite app_nil_r | constructor].
  - destruct (dict_get t installDirs) as [d|] eqn:G.
    + destruct (IH (log_build d w)) as (C & S & O & I & B). simpl in C, S.
      split; [exact C|]. split; [exact S|]. split; [exact O|]. split.
      * rewrite I. split.
        -- intros H t' [<-|Hin]; [|auto].
           apply dict_mem_In. unfold dict_mem. now rewrite G.
        -- intros H t' Hin. apply H. now right.
      * intros Hok. destruct (B Hok) as [ds [Hb Hf]]. exists (d :: ds). split.
        -- rewrite Hb. simpl. now rewrite <- app_assoc.
        -- constructor; assumption.
    + simpl. split; [reflexivity|]. split; [reflexivity|]. split; [now right|]. split.
      * split; [discriminate|]. intros H. exfalso.
        apply dict_get_None in G. apply G, H. now left.
      * discriminate.
Qed.

(** The lookups of [ResolutionRound.buildAndInstallWheel], build calls
    aside. *)
Lemma ResolutionRound_buildAndInstallWheel_lookups (rr : ResolutionRound)
    (installDirs : dict value) (w : World) :
  let r := ResolutionRound_buildAndInstallWheel rr installDirs w in
  (snd r = Ok tt \/ snd r = Raise KeyError) /\
  (snd r = Ok tt <->
   forall l t, In t (keys (resolved (subRounds rr l))) -> In t (keys installDirs)) /\
  (snd r = Ok tt ->
   exists db dp,
     builds (fst r) = (builds w ++ db ++ dp)%list /\
     Forall2 (fun t d => dict_get t installDirs = Some d) (keys (resolved (build rr))) db /\
     Forall2 (fun t d => dict_get t installDirs = Some d) (keys (resolved (pkgs rr))) dp) /\
  clones (fst r) = clones w /\ scratch (fst r) = scratch w.
Proof.
  unfold ResolutionRound_buildAndInstallWheel, ResolutionSubRound_buildAndInstallWheel.
  assert (Hnil : forall d : dict value, dict_bool d = false -> keys d = []).
  { intros [|x d]; [reflexivity | discriminate]. }
  pose proof (buildAndInstallWheel_each_spec (keys (resolved (build rr))) installDirs w)
    as (C1 & S1 & O1 & I1 & B1).
  assert (Hstep1 :
    exists w1 r1,
      (if dict_bool (resolved (build rr))
       then buildAndInstallWheel_each (keys (resolved (build rr))) installDirs w
       else (w, Ok tt)) = (w1, r1) /\
      clones w1 = clones w /\ scratch w1 = scratch w /\
      (r1 = Ok tt \/ r1 = Raise KeyError) /\
      (r1 = Ok tt <-> forall t, In t (keys (resolved (build rr))) -> In t (keys installDirs)) /\
      (r1 = Ok tt ->
       exists ds, builds w1 = (builds w ++ ds)%list /\
                  Forall2 (fun t d => dict_get t installDirs = Some d)
                          (keys (resolved (build rr))) ds)).
  { destruct (dict_bool (resolved (build rr))) eqn:Hb.
    - destruct (buildAndInstallWheel_each (keys (resolved (build rr))) installDirs w)
        as [w1 r1]. exists w1, r1. simpl in *. auto 10.
    - exists w, (Ok tt). rewrite (Hnil _ Hb). repeat split; auto.
      + intros _ t [].
      + intros _. exists []. split; [now rewrite app_nil_r | constructor]. }
  destruct Hstep1 as (w1 & r1 & -> & C1' & S1' & O1' & I1' & B1').
  destruct r1 as [[]|e1].
  2:{ cbn [fst snd]. split; [exact O1'|]. split; [|split; [discriminate|auto]].
      split; [discriminate|]. intros H. apply I1'.
      intros t Ht. apply (H ResolutionRoundSubRound.build t Ht). }
  pose proof (buildAndInstallWheel_each_spec (keys (resolved (pkgs rr))) installDirs w1)
    as (C2 & S2 & O2 & I2 & B2).
  assert (Hstep2 :
    exists w2 r2,
      (if dict_bool (resolved (pkgs rr))
       then buildAndInstallWheel_each (keys (resolved (pkgs rr))) installDirs w1
       else (w1, Ok tt)) = (w2, r2) /\
      clones w2 = clones w1 /\ scratch w2 = scratch w1 /\
      (r2 = Ok tt \/ r2 = Raise KeyError) /\
      (r2 = Ok tt <-> forall t, In t (keys (resolved (pkgs rr))) -> In t (keys installDirs)) /\
      (r2 = Ok tt ->
       exists ds, builds w2 = (builds w1 ++ ds)%list /\
                  Forall2 (fun t d => dict_get t installDirs = Some d)
                          (keys (resolved (pkgs rr))) ds)).
  { destruct (dict_bool (resolved (pkgs rr))) eqn:Hb.
    - destruct (buildAndInstallWheel_each (keys (resolved (pkgs rr))) installDirs w1)
        as [w2 r2]. exists w2, r2. simpl in *. auto 10.
    - exists w1, (Ok tt). rewrite (Hnil _ Hb). repeat split; auto.
      + intros _ t [].
      + intros _. exists []. split; [now rewrite app_nil_r | constructor]. }
  destruct Hstep2 as (w2 & r2 & -> & C2' & S2' & O2' & I2' & B2').
  cbn [fst snd]. split; [exact O2'|]. split; [|split; [|split; congruence]].
  - rewrite I2'. split.
    + intros H l t Ht. destruct l; [apply (proj1 I1' eq_refl t Ht) | apply (H t Ht)].
    + intros H t Ht. apply (H ResolutionRoundSubRound.pkgs t Ht).
  - intros Hok. destruct (B1' eq_refl) as [db [Hb1 F1]].
    destruct (B2' Hok) as [dp [Hb2 F2]].
    exists db, dp. split; [|split; assumption].
    rewrite Hb2, Hb1. now rewrite app_assoc.
Qed.

Lemma missing_key (names : list string) (installDirs : dict value) :
  (forall t, In t names -> In t (keys installDirs))
  \/ exists t, In t names /\ ~ In t (keys installDirs).
Proof.
  induction names as [|t rest IH]; [left; intros t []|].
  destruct (in_dec string_dec t (keys installDirs)) as [Hin|Hout].
  - destruct IH as [IH|[t' [H1 H2]]].
    + left. intros t' [<-|H]; auto.
    + right. exists t'. split; [now right | exact H2].
  - right. exists t. split; [now left | exact Hout].
Qed.

(** When [ResolutionRound.buildAndInstallWheel] returns, every resolved name
    of both lanes was a key of [installDirs], and it has built the build
    lane's resolved names and then the package lane's, each lane in the order
    of its [resolved] and each name from its directory in [installDirs];
    when a lookup [installDirs[t]] raises [KeyError], some resolved name of a
    lane is not a key of [installDirs].  Fetcher calls and scratch
    directories are untouched.  Nothing is said of a run in which a build
    fails. *)
Theorem ResolutionRound_buildAndInstallWheel_order (rr : ResolutionRound)
    (installDirs : dict value) (w : World) :
  let r := ResolutionRound_buildAndInstallWheel rr installDirs w in
  (snd r = Ok tt ->
   (forall l t, In t (keys (resolved (subRounds rr l))) -> In t (keys installDirs)) /\
   exists db dp,
     builds (fst r) = (builds w ++ db ++ dp)%list /\
     Forall2 (fun t d => dict_get t installDirs = Some d) (keys (resolved (build rr))) db /\
     Forall2 (fun t d => dict_get t installDirs = Some d) (keys (resolved (pkgs rr))) dp) /\
  (snd r = Raise KeyError ->
   exists l t, In t (keys (resolved (subRounds rr l))) /\ ~ In t (keys installDirs)) /\
  clones (fst r) = clones w /\ scratch (fst r) = scratch w.
Proof.
  intros r.
  destruct (ResolutionRound_buildAndInstallWheel_lookups rr installDirs w)
    as (_ & I & B & C & S).
  fold r in I, B, C, S. split; [|split; [|split; assumption]].
  - intros Hok. split; [now apply I | now apply B].
  - intros Hk.
    destruct (missing_key (keys (resolved (build rr))) installDirs) as [Hb|[t [H1 H2]]];
      [|exists ResolutionRoundSubRound.build, t; auto].
    destruct (missing_key (keys (resolved (pkgs rr))) installDirs) as [Hp|[t [H1 H2]]];
      [|exists ResolutionRoundSubRound.pkgs, t; auto].
    assert (Hok : snd r = Ok tt).
    { apply I. intros l t Ht. destruct l; auto. }
    congruence.
Qed.

Lemma ResolutionRound_buildAndInstallWheel_order_witness :
  exists db dp,
    builds (fst (ResolutionRound_buildAndInstallWheel (current promoStore)
                   [("A", Dir ["install_k3xq"; "A"])] emptyWorld))
    = (builds emptyWorld ++ db ++ dp)%list /\
    Forall2 (fun t d => dict_get t [("A", Dir ["install_k3xq"; "A"])] = Some d)
            (keys (resolved (build (current promoStore)))) db /\
    Forall2 (fun t d => dict_get t [("A", Dir ["install_k3xq"; "A"])] = Some d)
            (keys (resolved (pkgs (current promoStore)))) dp.
Proof.
  apply (proj1 (ResolutionRound_buildAndInstallWheel_order (current promoStore)
                  [("A", Dir ["install_k3xq"; "A"])] emptyWorld)).
  reflexivity.
Defined.

(** ** The install operation as a whole *)

Lemma call_eq (E : Collaborators) (fuel : nat) (self : PackagesInstaller.t)
    (prefs : ResolutionPrefs) (names : list string) (w : World) :
  let run := converge E fuel prefs (PackagesInstaller.firstRound E names) []
               (PackagesInstaller.scratchDir E)
               (make_scratch (PackagesInstaller.scratchDir E) w) in
  PackagesInstaller.call E fuel self prefs names w
  = match outcome_of run with
    | Returned (rr, installDirs') =>
        match ResolutionRound_buildAndInstallWheel rr installDirs' (world_of run) with
        | (w', Ok _) =>
            (calls_of run, cleanup (PackagesInstaller.scratchDir E) w',
             Returned (rr, {| PackagesInstaller.installDirs := installDirs';
                              PackagesInstaller.ignored := [];
                              PackagesInstaller.sourcesDir :=
                                Some (PackagesInstaller.scratchDir E) |}))
        | (w', Raise e) => (calls_of run, w', Raised e)
        end
    | Raised e => (calls_of run, world_of run, Raised e)
    | OutOfFuel => (calls_of run, world_of run, OutOfFuel)
    end.
Proof.
  unfold PackagesInstaller.call, PackagesInstaller.downloadPackagesAndTheirDependencies,
    calls_of, world_of, outcome_of. cbn [PackagesInstaller.installDirs
    PackagesInstaller._reset PackagesInstaller.ignored PackagesInstaller.sourcesDir].
  destruct (converge E fuel prefs (PackagesInstaller.firstRound E names) []
              (PackagesInstaller.scratchDir E)
              (make_scratch (PackagesInstaller.scratchDir E) w)) as [[calls w1] r].
  cbn [fst snd]. destruct r as [[rr iD]|e|]; try reflexivity.
  destruct (ResolutionRound_buildAndInstallWheel rr iD w1) as [w2 [u|e]]; reflexivity.
Qed.

(** When the convergence loop of a run does not return (it raises, or is
    still running when the fuel is used up), the install operation ends the
    same way, without having built or installed anything: building starts
    only after the loop has returned. *)
Theorem failed_resolution_builds_nothing (E : Collaborators) (fuel : nat)
    (self : PackagesInstaller.t) (prefs : ResolutionPrefs) (names : list string)
    (w : World) :
  let loop := converge E fuel prefs (PackagesInstaller.firstRound E names) []
                (PackagesInstaller.scratchDir E)
                (make_scratch (PackagesInstaller.scratchDir E) w) in
  let run := PackagesInstaller.call E fuel self prefs names w in
  (forall x, outcome_of loop <> Returned x) ->
  builds (world_of run) = builds w /\
  calls_of run = calls_of loop /\
  (forall e, outcome_of loop = Raised e -> outcome_of run = Raised e) /\
  (outcome_of loop = OutOfFuel -> outcome_of run = OutOfFuel).
Proof.
  intros loop run Hne. subst run. rewrite call_eq. cbv zeta. fold loop.
  pose proof (converge_world E fuel prefs (PackagesInstaller.scratchDir E)
                (PackagesInstaller.firstRound E names) []
                (make_scratch (PackagesInstaller.scratchDir E) w)) as [B _].
  cbv zeta in B. fold loop in B.
  destruct (outcome_of loop) as [x|e|] eqn:Ho.
  - exfalso. eapply Hne. reflexivity.
  - split; [exact B|]. split; [reflexivity|].
    split; [intros e' H; inversion H; reflexivity | discriminate].
  - split; [exact B|]. split; [reflexivity|]. split; [discriminate | reflexivity].
Qed.

Lemma failed_resolution_builds_nothing_witness :
  builds (world_of (PackagesInstaller.call mixed 8 PackagesInstaller._reset defaultPrefs
                      ["x"; "legacy"] emptyWorld)) = [] /\
  clones (world_of (PackagesInstaller.call mixed 8 PackagesInstaller._reset defaultPrefs
                      ["x"; "legacy"] emptyWorld)) <> [].
Proof.
  split.
  - apply (failed_resolution_builds_nothing mixed 8 PackagesInstaller._reset defaultPrefs
             ["x"; "legacy"] emptyWorld).
    intros x. vm_compute. discriminate.
  - vm_compute. discriminate.
Defined.

(** With a registry that answers by name, the only error the code of the
    convergence loop of a run raises is the [NotImplementedError] of [fetch],
    the one of a name that cannot be fetched: [_resolveDeps] never raises,
    neither for an unbound [successorSubRound] nor on a stage lookup.  The
    build phase, which comes after the loop, is not part of the statement. *)
Theorem resolution_only_error (E : Collaborators) (fuel : nat)
    (prefs : ResolutionPrefs) (names : list string) (installDirs : dict value)
    (sourcesDir : Path) (w : World) (e : exn) :
  (forall name, Package.name (registry_lookup E name) = name) ->
  outcome_of (converge E fuel prefs (PackagesInstaller.firstRound E names) installDirs
                sourcesDir w) = Raised e ->
  e = NotImplementedError.
Proof.
  intros Hreg H.
  exact (converge_only_error E fuel prefs sourcesDir Hreg
           (PackagesInstaller.firstRound E names) installDirs w e
           (firstRound_fresh E names) H).
Qed.

Lemma resolution_only_error_witness :
  outcome_of (converge mixed 8 defaultPrefs (PackagesInstaller.firstRound mixed ["x"; "legacy"])
                [] ["install_k3xq"] emptyWorld) = Raised NotImplementedError.
Proof.
  destruct (outcome_of (converge mixed 8 defaultPrefs
                          (PackagesInstaller.firstRound mixed ["x"; "legacy"])
                          [] ["install_k3xq"] emptyWorld))
    as [x|e|] eqn:Ho; [vm_compute in Ho; discriminate| |vm_compute in Ho; discriminate].
  f_equal.
  apply (resolution_only_error mixed 8 defaultPrefs ["x"; "legacy"] [] ["install_k3xq"]
           emptyWorld e); [|exact Ho].
  intros name. apply (mixed_names [name]). now left.
Defined.

(** When the install operation returns, the round its loop ended on has
    nothing to fetch and nothing resolved in the build lane; what was built
    is exactly the package lane's resolved names of that round, in order,
    each from its directory in [installDirs]. *)
Theorem install_builds_final_package_lane (E : Collaborators) (fuel : nat)
    (self self' : PackagesInstaller.t) (prefs : ResolutionPrefs) (names : list string)
    (w w' : World) (calls : list RoundCall) (rr : ResolutionRound) :
  PackagesInstaller.call E fuel self prefs names w = (calls, w', Returned (rr, self')) ->
  toFetch (build rr) = [] /\ toFetch (pkgs rr) = [] /\
  resolved (build rr) = [] /\
  exists ds,
    builds w' = (builds w ++ ds)%list /\
    Forall2 (fun t d => dict_get t (PackagesInstaller.installDirs self') = Some d)
            (keys (resolved (pkgs rr))) ds.
Proof.
  rewrite call_eq. cbv zeta.
  pose proof (converge_world E fuel prefs (PackagesInstaller.scratchDir E)
                (PackagesInstaller.firstRound E names) []
                (make_scratch (PackagesInstaller.scratchDir E) w)) as [B _].
  pose proof (converge_returned E fuel prefs (PackagesInstaller.scratchDir E)
                (PackagesInstaller.firstRound E names) []
                (make_scratch (PackagesInstaller.scratchDir E) w)) as Hret.
  cbv zeta in B.
  destruct (outcome_of (converge E fuel prefs (PackagesInstaller.firstRound E names) []
                          (PackagesInstaller.scratchDir E)
                          (make_scratch (PackagesInstaller.scratchDir E) w)))
    as [[rr1 iD]|e|]; [|discriminate|discriminate].
  destruct (Hret rr1 iD eq_refl) as [Hb Hr].
  assert (Hres : resolved (build rr1) = []).
  { destruct Hr as [->|[Hr _]]; [reflexivity | exact Hr]. }
  unfold ResolutionRound_buildAndInstallWheel, ResolutionSubRound_buildAndInstallWheel.
  rewrite Hres. cbn [dict_bool].
  set (w1 := world_of (converge E fuel prefs (PackagesInstaller.firstRound E names) []
                         (PackagesInstaller.scratchDir E)
                         (make_scratch (PackagesInstaller.scratchDir E) w))) in *.
  pose proof (buildAndInstallWheel_each_spec (keys (resolved (pkgs rr1))) iD w1)
    as (_ & _ & _ & _ & Hb2).
  cbv zeta in Hb2.
  assert (Hlane :
    forall w2 r2,
      (if dict_bool (resolved (pkgs rr1))
       then buildAndInstallWheel_each (keys (resolved (pkgs rr1))) iD w1
       else (w1, Ok tt)) = (w2, r2) ->
      r2 = Ok tt ->
      exists ds, builds w2 = (builds w1 ++ ds)%list /\
                 Forall2 (fun t d => dict_get t iD = Some d) (keys (resolved (pkgs rr1))) ds).
  { intros w2 r2. destruct (dict_bool (resolved (pkgs rr1))) eqn:Hd.
    - intros H Hok. rewrite H in Hb2. apply Hb2. exact Hok.
    - intros H _. inversion H; subst. exists []. split; [now rewrite app_nil_r|].
      destruct (resolved (pkgs rr1)); [constructor | discriminate]. }
  destruct (if dict_bool (resolved (pkgs rr1))
            then buildAndInstallWheel_each (keys (resolved (pkgs rr1))) iD w1
            else (w1, Ok tt)) as [w2 [[]|e]] eqn:Hp; [|discriminate].
  intros H. inversion H; subst; clear H.
  unfold ResolutionRound_bool, ResolutionSubRound_bool in Hb.
  apply orb_false_iff in Hb. destruct Hb as [H1 H2].
  split; [destruct (toFetch (build rr)); [reflexivity|discriminate]|].
  split; [destruct (toFetch (pkgs rr)); [reflexivity|discriminate]|].
  split; [exact Hres|].
  destruct (Hlane w2 (Ok tt) eq_refl eq_refl) as [ds [Hds Hf]].
  exists ds. split; [|exact Hf]. simpl. rewrite Hds, B. reflexivity.
Qed.

Lemma install_builds_final_package_lane_witness :
  exists calls w' rr self',
    PackagesInstaller.call abc 8 PackagesInstaller._reset defaultPrefs ["A"] emptyWorld
    = (calls, w', Returned (rr, self')) /\
    resolved (build rr) = [] /\ toFetch (pkgs rr) = [].
Proof.
  destruct (PackagesInstaller.call abc 8 PackagesInstaller._reset defaultPrefs ["A"]
              emptyWorld) as [[calls w'] r] eqn:H.
  destruct r as [[rr self']|e|];
    [|vm_compute in H; discriminate|vm_compute in H; discriminate].
  exists calls, w', rr, self'. split; [reflexivity|].
  destruct (install_builds_final_package_lane abc 8 PackagesInstaller._reset self'
              defaultPrefs ["A"] emptyWorld w' calls rr H) as (_ & H2 & H3 & _).
  split; assumption.
Defined.

(** ** Preferences of the lanes *)

Lemma converge_nodeps (E : Collaborators) (fuel : nat) (prefs : ResolutionPrefs)
    (sourcesDir : Path) :
  resolveDeps prefs = false ->
  forall rr installDirs w c,
    fresh rr ->
    In c (calls_of (converge E fuel prefs rr installDirs sourcesDir w)) ->
    toFetch (pkgs (nextRound c)) = [].
Proof.
  intros Hnd. unfold calls_of.
  induction fuel as [|fuel IH]; intros rr installDirs w c Hfresh; simpl.
  - destruct (ResolutionRound_bool rr); contradiction.
  - destruct (ResolutionRound_bool rr); [|contradiction].
    destruct (ResolutionRound_call E rr (clone prefs (Some false) None None)
                installDirs sourcesDir w) as [w1 [c1|e1]] eqn:Hc; [|contradiction].
    pose proof (ResolutionRound_call_keeps _ _ _ _ _ _ _ _ Hc) as (_ & _ & K3 & _ & K5).
    specialize (IH (nextRound c1) (dirs c1) w1 c K3).
    destruct (converge E fuel prefs (nextRound c1) (dirs c1) sourcesDir w1)
      as [[calls w2] r]. simpl in *.
    intros [<-|Hin]; [|auto].
    apply K5; [exact Hnd|].
    destruct (Hfresh ResolutionRoundSubRound.pkgs) as (_ & _ & (_ & _ & Hg & _)).
    exact Hg.
Qed.

(** With [resolveDeps] off, no round of a run queues anything in the package
    lane of its successor: after the requested packages themselves, only
    build dependencies are fetched. *)
Theorem no_deps_no_package_lane (E : Collaborators) (fuel : nat)
    (self : PackagesInstaller.t) (prefs : ResolutionPrefs) (names : list string)
    (w : World) (c : RoundCall) :
  resolveDeps prefs = false ->
  In c (calls_of (PackagesInstaller.call E fuel self prefs names w)) ->
  toFetch (pkgs (nextRound c)) = [].
Proof.
  intros Hnd. rewrite call_eq. cbv zeta.
  assert (Hcalls : forall run : list RoundCall * World * outcome (ResolutionRound * dict value),
             In c (calls_of
                     match outcome_of run with
                     | Returned (rr, installDirs') =>
                         match ResolutionRound_buildAndInstallWheel rr installDirs'
                                 (world_of run) with
                         | (w', Ok _) =>
                             (calls_of run, cleanup (PackagesInstaller.scratchDir E) w',
                              Returned (rr, {| PackagesInstaller.installDirs := installDirs';
                                               PackagesInstaller.ignored := [];
                                               PackagesInstaller.sourcesDir :=
                                                 Some (PackagesInstaller.scratchDir E) |}))
                         | (w', Raise e) => (calls_of run, w', Raised e)
                         end
                     | Raised e => (calls_of run, world_of run, Raised e)
                     | OutOfFuel => (calls_of run, world_of run, OutOfFuel)
                     end) ->
             In c (calls_of run)).
  { intros run. destruct (outcome_of run) as [[rr iD]|e|]; try (intros H; exact H).
    destruct (ResolutionRound_buildAndInstallWheel rr iD (world_of run)) as [w2 [u|e]];
      intros H; exact H. }
  intros H. apply Hcalls in H.
  eapply converge_nodeps; eauto using firstRound_fresh.
Qed.

Lemma no_deps_no_package_lane_witness :
  exists c,
    In c (calls_of (PackagesInstaller.call abc 8 PackagesInstaller._reset
                      {| upgrade := false; resolveDeps := false; forceReinstall := false |}
                      ["A"] emptyWorld)) /\
    toFetch (pkgs (nextRound c)) = [].
Proof.
  destruct (calls_of (PackagesInstaller.call abc 8 PackagesInstaller._reset
                        {| upgrade := false; resolveDeps := false;
                           forceReinstall := false |} ["A"] emptyWorld))
    as [|c calls] eqn:Hc; [vm_compute in Hc; discriminate|].
  exists c. split; [now left|].
  apply (no_deps_no_package_lane abc 8 PackagesInstaller._reset
           {| upgrade := false; resolveDeps := false; forceReinstall := false |}
           ["A"] emptyWorld c eq_refl).
  rewrite Hc. now left.
Defined.



(** ** The first round *)

Lemma NoDup_keys_dict_set {V : Type} (d : dict V) (k : string) (v : V) :
  NoDup (keys d) -> NoDup (keys (dict_set k v d)).
Proof.
  induction d as [|[k0 v0] d IH]; simpl; intros H.
  - constructor; [tauto | constructor].
  - inversion H as [|? ? Hn Hd]; subst.
    destruct (String.eqb_spec k k0) as [->|Hne]; simpl.
    + constructor; assumption.
    + constructor; [|auto]. rewrite keys_dict_set. intros [->|Hin]; tauto.
Qed.

Lemma NoDup_keys_dict_update {V : Type} (e : dict V) :
  forall d : dict V, NoDup (keys d) -> NoDup (keys (dict_update d e)).
Proof.
  unfold dict_update. induction e as [|[k v] e IH]; intros d H; simpl; [exact H|].
  apply IH. now apply NoDup_keys_dict_set.
Qed.

Lemma seed_spec (E : Collaborators) (names : list string) :
  (forall k, In k (keys (PackagesInstaller.seed E names)) <->
             exists el, In el names /\
                        Requirement.name (canonicalizedRequirement E el) = k) /\
  NoDup (keys (PackagesInstaller.seed E names)) /\
  (forall k v, In (k, v) (PackagesInstaller.seed E names) -> v = One).
Proof.
  unfold PackagesInstaller.seed.
  assert (G : forall acc : dict value,
             NoDup (keys acc) -> (forall k v, In (k, v) acc -> v = One) ->
             let d := fold_left
                        (fun acc el =>
                           dict_set (Requirement.name (canonicalizedRequirement E el)) One acc)
                        names acc in
             (forall k, In k (keys d) <->
                        In k (keys acc) \/
                        exists el, In el names /\
                                   Requirement.name (canonicalizedRequirement E el) = k) /\
             NoDup (keys d) /\ (forall k v, In (k, v) d -> v = One)).
  { induction names as [|el rest IH]; intros acc Hnd Hone; simpl.
    - split; [|auto]. intros k. split; [tauto | intros [H|[el [[] _]]]; exact H].
    - destruct (IH (dict_set (Requirement.name (canonicalizedRequirement E el)) One acc))
        as (A & B & C).
      + now apply NoDup_keys_dict_set.
      + intros k v Hin. destruct (dict_set_In_inv _ _ _ _ _ Hin) as [Heq|Hold];
          [now inversion Heq | eauto].
      + split; [|auto]. intros k. rewrite A, keys_dict_set. split.
        * intros [[->|H]|[el' [H1 H2]]]; [right; exists el; auto | tauto |].
          right. exists el'. auto.
        * intros [H|[el' [[<-|H1] H2]]]; [tauto | left; left; now symmetry |].
          right. exists el'. auto. }
  destruct (G [] (NoDup_nil _) (fun k v (H : In (k, v) []) => match H with end))
    as (A & B & C).
  split; [|auto]. intros k. rewrite A. simpl. tauto.
Qed.

(** The first round holds the requested names in the package lane's
    [toFetch], canonicalized and each once however often it was requested,
    and nothing else anywhere. *)
Theorem firstRound_seeds_once (E : Collaborators) (names : list string) :
  let rr := PackagesInstaller.firstRound E names in
  (forall k, In k (keys (toFetch (pkgs rr))) <->
             exists el, In el names /\
                        Requirement.name (canonicalizedRequirement E el) = k) /\
  NoDup (keys (toFetch (pkgs rr))) /\
  toFetch (build rr) = [] /\
  (forall l, fetched (subRounds rr l) = [] /\ resolved (subRounds rr l) = []
             /\ ignored (subRounds rr l) = []) /\
  (names = [] -> ResolutionRound_bool rr = false).
Proof.
  destruct (seed_spec E names) as (A & B & _).
  unfold PackagesInstaller.firstRound. cbn [set_subRound pkgs build toFetch set_toFetch].
  split; [|split; [|split; [|split]]].
  - intros k. rewrite keys_dict_update, A. simpl. tauto.
  - apply NoDup_keys_dict_update. constructor.
  - reflexivity.
  - intros l. destruct l; repeat split.
  - intros ->. reflexivity.
Qed.

(** ** The installed-distribution lookup, in full *)

(** [getInstalledPackageDistribution] raises exactly when the two spellings
    of the name differ and both are installed, and then it is a
    [RuntimeError]; in every other case it returns a distribution that
    [get_distribution] gave for one of the two spellings, or nothing when it
    gave none for either. *)
Theorem getInstalledPackageDistribution_total (E : Collaborators) (name : string) :
  let dashName := fst (canonicalizePackageNameMulti E name) in
  let underscoreName := snd (canonicalizePackageNameMulti E name) in
  (forall e, getInstalledPackageDistribution E name = Raise e <->
             e = RuntimeError /\ dashName <> underscoreName /\
             get_distribution E dashName <> None /\
             get_distribution E underscoreName <> None) /\
  (forall dist, getInstalledPackageDistribution E name = Ok (Some dist) ->
                get_distribution E dashName = Some dist
                \/ get_distribution E underscoreName = Some dist) /\
  (getInstalledPackageDistribution E name = Ok None <->
   get_distribution E dashName = None /\ get_distribution E underscoreName = None).
Proof.
  unfold getInstalledPackageDistribution.
  destruct (canonicalizePackageNameMulti E name) as [d u]. cbn [fst snd].
  destruct (String.eqb_spec d u) as [->|Hne]; cbn [negb].
  - split; [|split].
    + intros e. split; [discriminate | intros (_ & H & _); congruence].
    + intros dist H. inversion H. now left.
    + split; [intros H; inversion H; auto | intros [-> _]; reflexivity].
  - destruct (get_distribution E d) as [dd|], (get_distribution E u) as [ud|];
      (split; [|split]).
    all: try (intros e; split; [intros H; inversion H; repeat split; congruence
                               | intros (-> & _ & H1 & H2); congruence]).
    all: try (intros dist H; inversion H; subst; auto).
    all: try (split; [intros H; inversion H | intros [H1 H2]; congruence]).
    all: try (split; [auto | reflexivity]).
Qed.

(** ** Bootstrapping by sequence *)

Lemma not_installed_ext (l l' : list string) (el : PathEntry) :
  (forall n, In n l <-> In n l') -> not_installed l el = not_installed l' el.
Proof.
  intros H. destruct el as [name|dir]; [|reflexivity]. simpl. f_equal.
  destruct (existsb (String.eqb name) l) eqn:A, (existsb (String.eqb name) l') eqn:B;
    try reflexivity.
  - apply existsb_exists in A. destruct A as [x [Hx Hn]]. apply String.eqb_eq in Hn. subst x.
    apply H in Hx. assert (existsb (String.eqb name) l' = true).
    { apply existsb_exists. exists name. split; [exact Hx | apply String.eqb_refl]. }
    congruence.
  - apply existsb_exists in B. destruct B as [x [Hx Hn]]. apply String.eqb_eq in Hn. subst x.
    apply H in Hx. assert (existsb (String.eqb name) l = true).
    { apply existsb_exists. exists name. split; [exact Hx | apply String.eqb_refl]. }
    congruence.
Qed.


Lemma cook_ext (clonedDirs : dict Path) (l l' : list string) (pythonPaths : list PathEntry) :
  (forall n, In n l <-> In n l') ->
  cookPythonPaths clonedDirs l pythonPaths = cookPythonPaths clonedDirs l' pythonPaths.
Proof.
  intros H. induction pythonPaths as [|el rest IH]; simpl; [reflexivity|].
  rewrite (not_installed_ext l l' el H), IH. reflexivity.
Qed.

Lemma cook_ok (clonedDirs : dict Path) (ai : list string) (pythonPaths : list PathEntry) :
  forall dirs,
    cookPythonPaths clonedDirs ai pythonPaths = Ok dirs <->
    Forall2 (fun el d => entryDir clonedDirs el = Ok d) (kept ai pythonPaths) dirs.
Proof.
  unfold kept. induction pythonPaths as [|el rest IH]; intros dirs; simpl.
  - split; [intros H; inversion H; constructor | intros H; inversion H; reflexivity].
  - destruct (not_installed ai el); [|apply IH].
    destruct (entryDir clonedDirs el) as [d|e] eqn:Hd; simpl.
    + destruct (cookPythonPaths clonedDirs ai rest) as [ds|e] eqn:Hc; simpl.
      * split.
        -- intros H. inversion H; subst. constructor; [exact Hd | now apply IH].
        -- intros H. inversion H as [|? ? ? ? H1 H2]; subst.
           apply IH in H2. inversion H2; subst. congruence.
      * split; [discriminate|]. intros H. inversion H as [|? ? ? ? H1 H2]; subst.
        apply IH in H2. discriminate.
    + split; [discriminate|]. intros H. inversion H; subst. congruence.
Qed.

Lemma cook_raise (clonedDirs : dict Path) (ai : list string) (pythonPaths : list PathEntry)
    (e : exn) :
  cookPythonPaths clonedDirs ai pythonPaths = Raise e ->
  e = KeyError /\
  exists n, In (ByName n) (kept ai pythonPaths) /\ ~ In n (keys clonedDirs).
Proof.
  unfold kept. induction pythonPaths as [|el rest IH]; simpl; [discriminate|].
  destruct (not_installed ai el) eqn:Hk.
  - destruct (entryDir clonedDirs el) as [d|e1] eqn:Hd; simpl.
    + destruct (cookPythonPaths clonedDirs ai rest) as [ds|e2]; simpl; [discriminate|].
      intros H. inversion H; subst. destruct (IH eq_refl) as [He [n [Hn Hm]]].
      split; [exact He|]. exists n. split; [now right | exact Hm].
    + intros H. inversion H; subst e1. destruct el as [name|dir]; simpl in Hd; [|discriminate].
      destruct (dict_get name clonedDirs) eqn:G; [discriminate|]. inversion Hd.
      split; [reflexivity|]. exists name. split; [now left | now apply dict_get_None].
  - intros H. destruct (IH H) as [He [n [Hn Hm]]]. split; [exact He|]. now exists n.
Qed.

Lemma cook_total (clonedDirs : dict Path) (ai : list string) (pythonPaths : list PathEntry) :
  (forall n, In (ByName n) (kept ai pythonPaths) -> In n (keys clonedDirs)) ->
  exists dirs, cookPythonPaths clonedDirs ai pythonPaths = Ok dirs.
Proof.
  intros H. destruct (cookPythonPaths clonedDirs ai pythonPaths) as [ds|e] eqn:Hc.
  - now exists ds.
  - apply cook_raise in Hc. destruct Hc as [_ [n [Hn Hm]]]. exfalso. auto.
Qed.

Lemma bootstrap_made (clonedDirs : dict Path) (seq : list (string * list PathEntry)) :
  forall ai made,
    bootstrapBySequence_loop clonedDirs seq ai made
    = ((made ++ fst (bootstrapBySequence_loop clonedDirs seq ai []))%list,
       snd (bootstrapBySequence_loop clonedDirs seq ai [])).
Proof.
  induction seq as [|[name pp] rest IH]; intros ai made; simpl.
  - now rewrite app_nil_r.
  - destruct (dict_get name clonedDirs) as [dir|]; [|now rewrite app_nil_r].
    destruct (cookPythonPaths clonedDirs ai pp) as [ds|e]; [|now rewrite app_nil_r].
    rewrite (IH _ (made ++ _)%list), (IH _ [_]). simpl. now rewrite <- app_assoc.
Qed.

Lemma bootstrap_loop_ok (clonedDirs : dict Path) (seq : list (string * list PathEntry)) :
  forall ai done made,
    (forall n, In n ai <-> In n done) ->
    bootstrapBySequence_loop clonedDirs seq ai [] = (made, Ok tt) ->
    length made = length seq /\
    forall pre name pythonPaths post,
      seq = (pre ++ (name, pythonPaths) :: post)%list ->
      exists dir dirs,
        dict_get name clonedDirs = Some dir /\
        nth_error made (length pre)
        = Some {| bb_targetDir := dir; bb_buildPythonPath := dir :: dirs |} /\
        Forall2 (fun el d => entryDir clonedDirs el = Ok d)
                (kept (done ++ map fst pre) pythonPaths) dirs.
Proof.
  induction seq as [|[name0 pp0] rest IH]; intros ai done made Hai H; simpl in H.
  - inversion H; subst. split; [reflexivity|].
    intros pre name pp post Heq. destruct pre; discriminate.
  - destruct (dict_get name0 clonedDirs) as [dir0|] eqn:G; [|discriminate].
    destruct (cookPythonPaths clonedDirs ai pp0) as [ds0|e] eqn:Hc; [|discriminate].
    rewrite bootstrap_made in H. cbn [app] in H.
    destruct (bootstrapBySequence_loop clonedDirs rest (name0 :: ai) []) as [made' r'] eqn:Hl.
    cbn [fst snd] in H. inversion H; subst made r'; clear H.
    assert (Hai' : forall n, In n (name0 :: ai) <-> In n (done ++ [name0])).
    { intros n. rewrite in_app_iff. simpl. rewrite Hai. tauto. }
    destruct (IH (name0 :: ai) (done ++ [name0])%list made' Hai' Hl) as [Hlen Hnth].
    split; [simpl; now rewrite Hlen|].
    intros pre name pp post Heq. destruct pre as [|x pre]; simpl in Heq.
    + inversion Heq; subst. exists dir0, ds0. split; [exact G|]. split; [reflexivity|].
      simpl. rewrite app_nil_r. apply cook_ok. rewrite <- Hc. apply cook_ext.
      intros n. symmetry. apply Hai.
    + inversion Heq; subst x rest.
      destruct (Hnth pre name pp post eq_refl) as [dir [dirs (A & B & C)]].
      exists dir, dirs. split; [exact A|]. split; [exact B|].
      simpl. now rewrite <- app_assoc in C.
Qed.

(** When [bootstrapBySequence] returns, it has built every package of the
    sequence once and in order, each from its directory in [clonedDirs]; the
    build path of a package starts with its own directory and continues with
    the directories of its listed entries, except those that name a package
    placed earlier in the sequence. *)
Theorem bootstrapBySequence_builds (clonedDirs : dict Path)
    (bootstrapSequence : list (string * list PathEntry)) (made : list BootstrapBuild) :
  bootstrapBySequence clonedDirs bootstrapSequence = (made, Ok tt) ->
  length made = length bootstrapSequence /\
  forall pre name pythonPaths post,
    bootstrapSequence = (pre ++ (name, pythonPaths) :: post)%list ->
    exists dir dirs,
      dict_get name clonedDirs = Some dir /\
      nth_error made (length pre)
      = Some {| bb_targetDir := dir; bb_buildPythonPath := dir :: dirs |} /\
      Forall2 (fun el d => entryDir clonedDirs el = Ok d)
              (kept (map fst pre) pythonPaths) dirs.
Proof.
  unfold bootstrapBySequence. intros H.
  apply (bootstrap_loop_ok clonedDirs bootstrapSequence [] [] made); [tauto | exact H].
Qed.

Lemma bootstrapBySequence_builds_witness :
  exists made,
    bootstrapBySequence sampleClones sampleSequence = (made, Ok tt) /\
    nth_error made 1
    = Some {| bb_targetDir := ["src"; "b"];
              bb_buildPythonPath := [["src"; "b"]; ["vendor"]] |}.
Proof.
  destruct (bootstrapBySequence sampleClones sampleSequence) as [made r] eqn:H.
  assert (Hr : r = Ok tt) by (vm_compute in H; inversion H; reflexivity). subst r.
  exists made. split; [reflexivity|].
  destruct (proj2 (bootstrapBySequence_builds sampleClones sampleSequence made H)
              [("a", [])] "b" [ByName "a"; ByDir ["vendor"]] [] eq_refl)
    as [dir [dirs (A & B & C)]].
  vm_compute in A. inversion A; subst dir.
  vm_compute in C. inversion C as [|? ? ? ? C1 C2]; subst. inversion C2; subst.
  vm_compute in C1. inversion C1; subst. exact B.
Defined.





Lemma firstRound_seeds_once_witness :
  ResolutionRound_bool (PackagesInstaller.firstRound abc []) = false.
Proof.
  apply (proj2 (proj2 (proj2 (proj2 (firstRound_seeds_once abc []))))). reflexivity.
Defined.

Lemma getInstalledPackageDistribution_total_witness :
  get_distribution (spellings onlyUnderscore) "foo-bar"
  = Some (Distribution.mk "foo_bar" "1.0")
  \/ get_distribution (spellings onlyUnderscore) "foo_bar"
     = Some (Distribution.mk "foo_bar" "1.0").
Proof.
  apply (proj1 (proj2 (getInstalledPackageDistribution_total
                         (spellings onlyUnderscore) "Foo_Bar"))).
  reflexivity.
Defined.
